(** * image-server: a shallow embedding of [server.js]

    The server is an Express application: a CORS gate, a multer upload
    intake that buffers file parts in memory, a transcode step built on
    sharp, and three routes over one storage directory (list, upload,
    delete).  The JavaScript of [server.js] is embedded function by
    function; the libraries it calls (path, fs, multer, cors, sharp,
    Date) are modelled by small executable definitions that follow their
    documented behaviour, and the image encoders themselves are a
    parameter. *)

From Stdlib Require Import ZArith String Ascii List DecimalString DecimalPos DecimalZ Lia.
From stdpp Require Import gmap strings list.

(** ** JavaScript values used by the server *)

(** A Node [Buffer]: the bytes of an uploaded file. *)
Definition Buffer := list Byte.byte.

(** A JavaScript [Error] object: multer's errors carry a [code], plain
    [new Error(msg)] objects do not. *)
Record Error := mkError { code : option string; message : string }.

(** [new Error(msg)] *)
Definition new_Error (msg : string) : Error := mkError None msg.

(** Strings are byte strings; [toLowerCase] folds the ASCII letters, which
    is all the comparison against [".jpg"], [".jpeg"], [".png"] and
    [".webp"] can observe. *)
Definition lower_ascii (c : ascii) : ascii :=
  let n := N_of_ascii c in
  if ((65 <=? n) && (n <=? 90))%N then ascii_of_N (n + 32) else c.

Definition toLowerCase (s : string) : string :=
  string_of_list_ascii (List.map lower_ascii (list_ascii_of_string s)).

(** Equality of two strings up to the case of their ASCII letters. *)
Fixpoint equal_ignoring_case (a b : string) : bool :=
  match a, b with
  | EmptyString, EmptyString => true
  | String x a', String y b' =>
      Ascii.eqb (lower_ascii x) (lower_ascii y) && equal_ignoring_case a' b'
  | _, _ => false
  end.

(** [arr.includes(x)] on an array of strings. *)
Definition includes (arr : list string) (x : string) : bool :=
  existsb (String.eqb x) arr.

(** [`${n}`] for an integer-valued number such as [Date.now()]. *)
Definition Number_toString (n : Z) : string :=
  NilZero.string_of_int (Z.to_int n).

(** [str.split(sep)] for a one-character separator. *)
Fixpoint split_on (sep : ascii) (s : string) : list string :=
  match s with
  | EmptyString => [EmptyString]
  | String c r =>
      if Ascii.eqb c sep then EmptyString :: split_on sep r
      else match split_on sep r with
           | [] => [String c EmptyString]
           | h :: t => String c h :: t
           end
  end.

(** [arr.join(sep)] *)
Fixpoint join_with (sep : string) (l : list string) : string :=
  match l with
  | [] => ""
  | [x] => x
  | x :: r => x +:+ sep +:+ join_with sep r
  end.

Definition nonempty (s : string) : bool := negb (String.eqb s "").

(** ** The path module (POSIX flavour) *)

Definition is_slash (c : ascii) : bool := Ascii.eqb c "/"%char.
Definition is_dot (c : ascii) : bool := Ascii.eqb c "."%char.

Fixpoint drop_while (p : ascii → bool) (l : list ascii) : list ascii :=
  match l with
  | [] => []
  | c :: r => if p c then drop_while p r else l
  end.

Fixpoint take_until (p : ascii → bool) (l : list ascii) : list ascii :=
  match l with
  | [] => []
  | c :: r => if p c then [] else c :: take_until p r
  end.

(** The last portion of a path, read right to left: trailing separators
    are skipped and the portion ends at the next separator. *)
Definition rev_basename (path : string) : list ascii :=
  take_until is_slash (drop_while is_slash (rev (list_ascii_of_string path))).

(** [path.extname(p)]: from the last dot of the last portion to its end;
    empty when there is no dot, when nothing precedes the last dot
    ([".bashrc"]) and when the portion is [".."]. *)
Definition path_extname (path : string) : string :=
  let rb := rev_basename path in
  let rext := take_until is_dot rb in
  match drop_while (fun c => negb (is_dot c)) rb with
  | [] => ""                                   (* no dot at all *)
  | _ :: [] => ""                              (* the portion starts with its only dot *)
  | _ :: _ :: _ =>
      match rb with
      | [d1; d2] => if is_dot d1 && is_dot d2 then ""
                    else string_of_list_ascii (rev (rext ++ ["."%char]))
      | _ => string_of_list_ascii (rev (rext ++ ["."%char]))
      end
  end.

Definition starts_with_slash (s : string) : bool :=
  match s with
  | String c _ => is_slash c
  | EmptyString => false
  end.

Definition ends_with_slash (s : string) : bool :=
  match rev (list_ascii_of_string s) with
  | c :: _ => is_slash c
  | [] => false
  end.

(** Node's [normalizeString]: the segments of a path with [""] and ["."]
    dropped and [".."] resolved lexically.  [stack] holds the segments kept
    so far, innermost first. *)
Fixpoint normalize_segments (allowAboveRoot : bool)
    (stack : list string) (segs : list string) : list string :=
  match segs with
  | [] => rev stack
  | s :: rest =>
      if String.eqb s "" || String.eqb s "." then
        normalize_segments allowAboveRoot stack rest
      else if String.eqb s ".." then
        match stack with
        | top :: below =>
            if String.eqb top ".." then
              normalize_segments allowAboveRoot (".." :: stack) rest
            else normalize_segments allowAboveRoot below rest
        | [] =>
            if allowAboveRoot then
              normalize_segments allowAboveRoot [".."] rest
            else normalize_segments allowAboveRoot [] rest
        end
      else normalize_segments allowAboveRoot (s :: stack) rest
  end.

(** [path.normalize] *)
Definition path_normalize (path : string) : string :=
  if String.eqb path "" then "."
  else
    let isAbsolute := starts_with_slash path in
    let trailingSeparator := ends_with_slash path in
    let p := join_with "/"
               (normalize_segments (negb isAbsolute) [] (split_on "/"%char path)) in
    if String.eqb p "" then
      (if isAbsolute then "/" else if trailingSeparator then "./" else ".")
    else
      let p' := if trailingSeparator then p +:+ "/" else p in
      if isAbsolute then "/" +:+ p' else p'.

(** [path.join(...args)] *)
Definition path_join (args : list string) : string :=
  let joined := join_with "/" (List.filter nonempty args) in
  if String.eqb joined "" then "." else path_normalize joined.

(** The extension of [filename] is [ext], letter case aside. *)
Definition has_extension (filename ext : string) : Prop :=
  equal_ignoring_case (path_extname filename) ext = true.

(** A name that stays one path segment when joined to a directory: not
    empty, without a separator, and neither [.] nor [..]. *)
Definition no_slash (s : string) : bool :=
  negb (existsb is_slash (list_ascii_of_string s)).

Definition plain_name (s : string) : bool :=
  nonempty s && no_slash s && negb (String.eqb s ".") && negb (String.eqb s "..").

(** A segment that the normalisation of a path keeps. *)
Definition kept (s : string) : Prop := nonempty s = true ∧ no_slash s = true.

(** A NUL byte in a string.  No name on a disk holds one, and Node's [fs]
    functions refuse a path that does before they go to the kernel.  Of the
    strings the server makes paths of, the working directory and
    [UPLOADS_DIR] come from the system; a request can put a NUL byte in the
    file name of a deletion, which is modelled ([delete_images_route]), and
    in the original name of an upload, of which the model of the writes
    says nothing: statements that promise a write assume there is none. *)
Definition has_nul (s : string) : bool :=
  existsb (Ascii.eqb Ascii.zero) (list_ascii_of_string s).

(** ** Configuration (the ENV CONFIG block) *)

Record Config := mkConfig {
  PORT : Z;
  UPLOADS_DIR : string;
  UPLOADS_URL : string;
  ALLOWED_ORIGINS : list string;
  MAX_FILES : Z;
  MAX_FILE_SIZE : N;            (* a byte count *)
  ALLOWED_TYPES : list string
}.

(** The configuration when no environment variable is set. *)
Definition default_config : Config := {|
  PORT := 4000;
  UPLOADS_DIR := "uploads";
  UPLOADS_URL := "https://cdn.soulcraftbd.com/uploads";
  ALLOWED_ORIGINS := split_on ","%char "https://soulcraftbd.com";
  MAX_FILES := 20;
  MAX_FILE_SIZE := 2 * 1024 * 1024;
  ALLOWED_TYPES := split_on ","%char "image/jpeg,image/png,image/webp"
|}.

(** ** The file system

    Regular files and directories, addressed by the segments of an
    absolute path; the root always exists.  Permissions, links and a full
    disk are outside the model, so an operation fails exactly when the
    shape of the tree forbids it. *)

Inductive Node :=
| File (content : Buffer)
| Directory.

Abbreviation Disk := (gmap (list string) Node).

Record Location := mkLocation { segments : list string; trailing : bool }.

(** What the kernel makes of a normalised path string.  Relative paths do
    not occur: every path the server builds starts with [__dirname]. *)
Definition locate (path : string) : option Location :=
  if starts_with_slash path then
    Some {| segments := List.filter nonempty (split_on "/"%char path);
            trailing := ends_with_slash path |}
  else None.

Definition is_directory (d : Disk) (p : list string) : bool :=
  match p with
  | [] => true
  | _ => match d !! p with Some Directory => true | _ => false end
  end.

Definition is_file (d : Disk) (p : list string) : bool :=
  match d !! p with Some (File _) => true | _ => false end.

(** A system error as Node reports it: [code] and a message naming the
    call and the path. *)
Definition fs_error (c : string) (what : string) (syscall : string) (path : string) : Error :=
  mkError (Some c) (c +:+ ": " +:+ what +:+ ", " +:+ syscall +:+ " '" +:+ path +:+ "'").

Definition ENOENT := fs_error "ENOENT" "no such file or directory".
Definition ENOTDIR := fs_error "ENOTDIR" "not a directory".
Definition EISDIR := fs_error "EISDIR" "illegal operation on a directory".

(** Why the parent of [p] cannot hold an entry, if it cannot. *)
Definition parent_error (d : Disk) (p : list string) (syscall path : string) : option Error :=
  let parent := removelast p in
  if is_directory d parent then None
  else if is_file d parent then Some (ENOTDIR syscall path)
  else Some (ENOENT syscall path).

(** Create or truncate the file at [path] and write [data]. *)
Definition disk_write (path : string) (data : Buffer) (d : Disk) : Error + Disk :=
  match locate path with
  | None => inl (ENOENT "open" path)
  | Some l =>
      if trailing l then inl (EISDIR "open" path)
      else match segments l with
           | [] => inl (EISDIR "open" path)
           | p =>
               match parent_error d p "open" path with
               | Some e => inl e
               | None =>
                   match d !! p with
                   | Some Directory => inl (EISDIR "open" path)
                   | _ => inr (<[p := File data]> d)
                   end
               end
           end
  end.

(** Remove the regular file at [path]. *)
Definition disk_unlink (path : string) (d : Disk) : Error + Disk :=
  match locate path with
  | None => inl (ENOENT "unlink" path)
  | Some l =>
      match d !! segments l with
      | Some (File _) =>
          if trailing l then inl (ENOTDIR "unlink" path)
          else inr (delete (segments l) d)
      | Some Directory => inl (EISDIR "unlink" path)
      | None =>
          if is_directory d (segments l) then inl (EISDIR "unlink" path)
          else inl (ENOENT "unlink" path)
      end
  end.

(** [child_name dir p] is the name of [p] when [p] is an entry of [dir]. *)
Definition child_name (dir : list string) (p : list string) : option string :=
  match last p with
  | Some name => if decide (removelast p = dir) then Some name else None
  | None => None
  end.

Definition entries (dir : list string) (d : Disk) : list string :=
  omap (fun kv => child_name dir kv.1) (map_to_list d).

(** The names of the entries of the directory at [path]. *)
Definition disk_readdir (path : string) (d : Disk) : Error + list string :=
  match locate path with
  | None => inl (ENOENT "scandir" path)
  | Some l =>
      if is_directory d (segments l) then inr (entries (segments l) d)
      else if is_file d (segments l) then inl (ENOTDIR "scandir" path)
      else inl (ENOENT "scandir" path)
  end.

(** ** The world a request runs in, and the effects of the handlers *)

(** The disk and the system clock.  [clock k] is what the [k]-th call of
    [Date.now()] returns; [ticks] counts the calls made so far.  Requests
    are modelled one at a time: nothing else touches the disk while a
    handler awaits. *)
Record World := mkWorld {
  disk : Disk;
  clock : nat → Z;
  ticks : nat
}.

Definition set_disk (d : Disk) (w : World) : World :=
  {| disk := d; clock := clock w; ticks := ticks w |}.

(** A computation that may throw: it returns an [Error] or a value, and the
    world it leaves behind either way. *)
Definition M (A : Type) : Type := World → (Error + A) * World.

Definition ret {A} (a : A) : M A := fun w => (inr a, w).
Definition throw {A} (e : Error) : M A := fun w => (inl e, w).
Definition bind {A B} (m : M A) (k : A → M B) : M B :=
  fun w => match m w with
           | (inl e, w') => (inl e, w')
           | (inr a, w') => k a w'
           end.

Notation "'let*' x ':=' m 'in' k" := (bind m (fun x => k))
  (at level 10, x name, m at level 100, k at level 200).
Notation "m ';;' k" := (bind m (fun _ => k))
  (at level 100, k at level 200, right associativity).

(** [Date.now()] *)
Definition Date_now : M Z :=
  fun w => (inr (clock w (ticks w)),
            {| disk := disk w; clock := clock w; ticks := S (ticks w) |}).

(** Lift a disk operation: on an error the disk is left as it was. *)
Definition on_disk (op : Disk → Error + Disk) : M unit :=
  fun w => match op (disk w) with
           | inl e => (inl e, w)
           | inr d => (inr tt, set_disk d w)
           end.

(** [fs.writeFileSync(path, data)] *)
Definition fs_writeFileSync (path : string) (data : Buffer) : M unit :=
  on_disk (disk_write path data).

(** ** sharp *)

(** The output format chosen on a sharp pipeline, with the options the
    server passes. *)
Inductive SharpFormat :=
| jpeg (quality : Z) (mozjpeg : bool)
| png (compressionLevel : Z) (adaptiveFiltering : bool)
| webp (quality : Z).

(** The library as the server sees it.  Applied to a format and an input
    buffer it gives the bytes the pipeline produces, or the error it
    rejects the input with (an input that is not an image, for one).
    [toFile_error] is the error [toFile] rejects with when the output
    cannot be written, from the path and the error of the system: its text
    is libvips's, not Node's. *)
Record Sharp := mkSharp {
  sharp_pipeline :> SharpFormat → Buffer → Error + Buffer;
  toFile_error : string → Error → Error
}.

(** [sharp(buffer).<format>(options).toFile(outputPath)].  The input is
    read before the output is opened, so an input that is rejected leaves
    the disk as it was.  (A pipeline that fails after it has begun to
    write, on an image cut short, is outside the model, as a full disk
    is.) *)
Definition sharp_toFile (sharp : Sharp) (fmt : SharpFormat)
    (buffer : Buffer) (outputPath : string) : M unit :=
  match sharp fmt buffer with
  | inl e => throw e
  | inr encoded =>
      fun w => match disk_write outputPath encoded (disk w) with
               | inl e => (inl (toFile_error sharp outputPath e), w)
               | inr d => (inr tt, set_disk d w)
               end
  end.

(** ** HTTP values *)

Inductive JsonValue :=
| JBool (b : bool)
| JString (s : string)
| JStrings (l : list string).

Definition JsonObject := list (string * JsonValue).

(** What a response carries: the JSON a handler sent, or the HTML page
    Express's final handler makes of an error no handler caught. *)
Inductive Body :=
| Json (obj : JsonObject)
| ErrorPage.

Record Response := mkResponse { status : Z; body : Body }.

(** [res.json(obj)] *)
Definition res_json (obj : JsonObject) : Response := mkResponse 200 (Json obj).
(** [res.status(n).json(obj)] *)
Definition res_status_json (n : Z) (obj : JsonObject) : Response :=
  mkResponse n (Json obj).
(** The answer of Express's final handler to an error thrown in a route:
    the error has no status of its own, so the status is 500. *)
Definition res_uncaught : Response := mkResponse 500 ErrorPage.

(** One file part of a multipart request as multer hands it on; with
    memory storage the content is [buffer].  A part without a file name is
    no file to multer and is not listed. *)
Record UploadedFile := mkFile {
  fieldname : string;
  originalname : string;
  mimetype : string;
  buffer : Buffer
}.

Definition size (f : UploadedFile) : N := N.of_nat (length (buffer f)).

(** The body of a request as multer sees it: a multipart form, given by
    its file parts in order, or anything else (JSON, no body), which multer
    passes on untouched. *)
Inductive RequestBody :=
| multipart (parts : list UploadedFile)
| not_multipart.

(** The routes of the application with the data each one reads from the
    request.  The file name of a deletion is the route parameter as Express
    decodes it. *)
Inductive Route :=
| GET_images
| POST_upload_single (content : RequestBody)
| POST_upload_multiple (content : RequestBody)
| DELETE_images (filename : string).

Record Request := mkRequest {
  origin : option string;        (* the Origin header, if any *)
  route : Route
}.

(** What becomes of a request: it reached a route and was answered, or a
    middleware passed an error to Express before any route ran. *)
Inductive Outcome :=
| Responded (r : Response)
| NextError (e : Error).

(** * The server *)

Section Server.

Context (cfg : Config).
(** [path.resolve()]: the absolute path of the working directory. *)
Context (__dirname : string).
Context (sharp : Sharp).

(** ** CORS: the [origin] callback *)

(** [!origin] *)
Definition no_origin (o : option string) : bool :=
  match o with
  | None => true
  | Some s => String.eqb s ""
  end.

(** [callback(null, true)] is [inr true]; [callback(err)] is [inl err]. *)
Definition cors_origin (o : option string) : Error + bool :=
  if no_origin o || match o with
                    | Some s => includes (ALLOWED_ORIGINS cfg) s
                    | None => false
                    end
  then inr true
  else inl (new_Error "Not allowed by CORS").

(** ** multer *)

Definition MulterError (c msg : string) : Error := mkError (Some c) msg.

Definition fileFilter (file : UploadedFile) : Error + bool :=
  if includes (ALLOWED_TYPES cfg) (mimetype file) then inr true
  else inl (new_Error "Invalid file type (JPEG, PNG, WebP only).").

(** The intake of a middleware that accepts up to [filesLeft] parts named
    [name].  Parts are taken in order and the first error ends the
    request: an unexpected field name or one part too many, then the
    [fileFilter], which sees the part's headers before its content, then the
    [fileSize] limit while the content is buffered.  The routes pass the
    message of an error on, except for [LIMIT_FILE_SIZE]; the text of
    [LIMIT_UNEXPECTED_FILE] is that of multer 1.x and differs in later
    versions. *)
Fixpoint multer_intake (name : string) (filesLeft : Z)
    (parts : list UploadedFile) : Error + list UploadedFile :=
  match parts with
  | [] => inr []
  | file :: rest =>
      if negb (String.eqb (fieldname file) name) || (filesLeft <=? 0)%Z then
        inl (MulterError "LIMIT_UNEXPECTED_FILE" "Unexpected field")
      else
        match fileFilter file with
        | inl err => inl err
        | inr false => multer_intake name (filesLeft - 1) rest
        | inr true =>
            if (MAX_FILE_SIZE cfg <? size file)%N then
              inl (MulterError "LIMIT_FILE_SIZE" "File too large")
            else
              match multer_intake name (filesLeft - 1) rest with
              | inl err => inl err
              | inr files => inr (file :: files)
              end
        end
  end.

(** [upload.single(name)] on a multipart body: [req.file] is the accepted
    part, if any. *)
Definition upload_single (name : string) (parts : list UploadedFile)
  : Error + option UploadedFile :=
  match multer_intake name 1 parts with
  | inl err => inl err
  | inr files => inr (head files)
  end.

(** [upload.array(name, maxCount)] on a multipart body: [req.files] is the
    array of the accepted parts, empty when there is none. *)
Definition upload_array (name : string) (maxCount : Z) (parts : list UploadedFile)
  : Error + list UploadedFile :=
  multer_intake name maxCount parts.

(** ** IMAGE COMPRESS FUNCTION *)

Definition compressImage (buffer : Buffer) (filename : string) : M string :=
  let ext := toLowerCase (path_extname filename) in
  let outputPath := path_join [__dirname; UPLOADS_DIR cfg; filename] in
  (if includes [".jpg"; ".jpeg"] ext then
     sharp_toFile sharp (jpeg 80 true) buffer outputPath
   else if String.eqb ext ".png" then
     sharp_toFile sharp (png 9 true) buffer outputPath
   else if String.eqb ext ".webp" then
     sharp_toFile sharp (webp 80) buffer outputPath
   else
     fs_writeFileSync outputPath buffer) ;;
  ret (UPLOADS_URL cfg +:+ "/" +:+ filename).

(** ** ROUTES *)

Definition Handler := World → Response * World.

(** [try { body } catch (err) { res.status(500).json(...) }] *)
Definition try_catch_500 (body : M Response) : Handler :=
  fun w => match body w with
           | (inr r, w') => (r, w')
           | (inl err, w') =>
               (res_status_json 500
                  [("success", JBool false); ("message", JString (message err))], w')
           end.

(** List all uploaded images *)
Definition get_images : Handler :=
  fun w =>
    match disk_readdir (path_join [__dirname; UPLOADS_DIR cfg]) (disk w) with
    | inl err =>
        (res_status_json 500
           [("success", JBool false); ("message", JString (message err))], w)
    | inr files =>
        let images := map (fun file => UPLOADS_URL cfg +:+ "/" +:+ file) files in
        (res_json [("success", JBool true); ("images", JStrings images)], w)
    end.

(** Reading a property of [req.file] when multer left it undefined. *)
Definition property_of {A} (o : option A) (name : string) : M A :=
  match o with
  | Some a => ret a
  | None =>
      throw (new_Error ("Cannot read properties of undefined (reading '"
                        +:+ name +:+ "')"))
  end.

(** The [try] of the single route, run when multer reports no error;
    [req_file] is [req.file]. *)
Definition store_file (req_file : option UploadedFile) : Handler :=
  try_catch_500
    (let* now := Date_now in
     let* file := property_of req_file "originalname" in
     let filename := Number_toString now +:+ "-" +:+ originalname file in
     let* url := compressImage (buffer file) filename in
     ret (res_json [("success", JBool true); ("url", JString url)])).

(** Upload a single image: the route at a multipart request. *)
Definition post_upload_single (parts : list UploadedFile) : Handler :=
  fun w =>
    match upload_single "file" parts with
    | inl err =>
        (res_status_json 400
           [("success", JBool false);
            ("message", JString (if bool_decide (code err = Some "LIMIT_FILE_SIZE")
                                 then "File too large (max 2MB)"
                                 else message err))], w)
    | inr req_file => store_file req_file w
    end.

(** The single route at any request. *)
Definition post_upload_single_request (content : RequestBody) : Handler :=
  match content with
  | multipart parts => post_upload_single parts
  | not_multipart => store_file None
  end.

(** [for (... of req.files)] when multer left [req.files] undefined. *)
Definition iterable_of {A} (o : option (list A)) (name : string) : M (list A) :=
  match o with
  | Some l => ret l
  | None => throw (new_Error (name +:+ " is not iterable"))
  end.

(** The body of [for (const file of req.files)], with [urls] as built so
    far. *)
Fixpoint upload_each (files : list UploadedFile) (urls : list string)
  : M (list string) :=
  match files with
  | [] => ret urls
  | file :: rest =>
      let* now := Date_now in
      let filename := Number_toString now +:+ "-" +:+ originalname file in
      let* url := compressImage (buffer file) filename in
      upload_each rest (urls ++ [url])
  end.

(** The [try] of the multiple route, run when multer reports no error;
    [req_files] is [req.files]. *)
Definition store_files (req_files : option (list UploadedFile)) : Handler :=
  try_catch_500
    (let* files := iterable_of req_files "req.files" in
     let* urls := upload_each files [] in
     ret (res_json [("success", JBool true); ("urls", JStrings urls)])).

(** Upload multiple images: the route at a multipart request. *)
Definition post_upload_multiple (parts : list UploadedFile) : Handler :=
  fun w =>
    match upload_array "files" (MAX_FILES cfg) parts with
    | inl err =>
        (res_status_json 400
           [("success", JBool false);
            ("message", JString (if bool_decide (code err = Some "LIMIT_FILE_SIZE")
                                 then "Each file must be under 2MB"
                                 else message err))], w)
    | inr req_files => store_files (Some req_files) w
    end.

(** The multiple route at any request.  multer looks at a multipart body
    only: any other request goes on with [req.files] undefined. *)
Definition post_upload_multiple_request (content : RequestBody) : Handler :=
  match content with
  | multipart parts => post_upload_multiple parts
  | not_multipart => store_files None
  end.

(** Delete image by filename: [fs.unlink] once it has taken the path, and
    its callback. *)
Definition delete_image (filename : string) : Handler :=
  fun w =>
    let filePath := path_join [__dirname; UPLOADS_DIR cfg; filename] in
    match disk_unlink filePath (disk w) with
    | inl err =>
        (res_status_json 404
           [("success", JBool false);
            ("message", JString "File not found or already deleted")], w)
    | inr d =>
        (res_json [("success", JBool true);
                   ("message", JString "Deleted successfully")], set_disk d w)
    end.

(** The route [DELETE /images/:filename].  [fs.unlink] throws at the call,
    not through its callback, when the path holds a NUL byte; the handler
    has no [try], so what answers then is Express's final handler. *)
Definition delete_images_route (filename : string) : Handler :=
  fun w =>
    let filePath := path_join [__dirname; UPLOADS_DIR cfg; filename] in
    if has_nul filePath then (res_uncaught, w)
    else delete_image filename w.

Definition dispatch (r : Route) : Handler :=
  match r with
  | GET_images => get_images
  | POST_upload_single content => post_upload_single_request content
  | POST_upload_multiple content => post_upload_multiple_request content
  | DELETE_images filename => delete_images_route filename
  end.

(** The application: the CORS middleware runs first; when its callback
    reports an error the request goes to Express's error handling and no
    route is entered. *)
Definition app (req : Request) (w : World) : Outcome * World :=
  match cors_origin (origin req) with
  | inl err => (NextError err, w)
  | inr _ =>
      let (r, w') := dispatch (route req) w in
      (Responded r, w')
  end.

End Server.

(** ** A concrete deployment

    The server started in [/app] with an empty [uploads] directory, a clock
    that advances one millisecond per reading, and a stand-in encoder that
    rejects an empty buffer and otherwise tags the bytes with the format. *)
Module Scenario.

Definition app_dir : string := "/app".

Definition empty_storage : Disk :=
  <[ ["app"; "uploads"] := Directory ]> (<[ ["app"] := Directory ]> ∅).

Definition start : World :=
  mkWorld empty_storage (fun k => 1700000000000 + Z.of_nat k)%Z 0.

Definition tag (fmt : SharpFormat) : Byte.byte :=
  match fmt with
  | jpeg _ _ => Byte.x01
  | png _ _ => Byte.x02
  | webp _ => Byte.x03
  end.

Definition encoder : Sharp := {|
  sharp_pipeline fmt input :=
    match input with
    | [] => inl (new_Error "Input Buffer is empty")
    | _ => inr (tag fmt :: input)
    end;
  toFile_error path e := new_Error ("unable to open " +:+ path +:+ " for writing")
|}.

Definition pixels : Buffer := [Byte.x0a; Byte.x0b; Byte.x0c].

Definition cat_jpg : UploadedFile := mkFile "file" "cat.JPG" "image/jpeg" pixels.

(** The default configuration with [MAX_FILE_SIZE=2] in the environment. *)
Definition two_bytes : Config := {|
  PORT := PORT default_config;
  UPLOADS_DIR := UPLOADS_DIR default_config;
  UPLOADS_URL := UPLOADS_URL default_config;
  ALLOWED_ORIGINS := ALLOWED_ORIGINS default_config;
  MAX_FILES := MAX_FILES default_config;
  MAX_FILE_SIZE := 2;
  ALLOWED_TYPES := ALLOWED_TYPES default_config
|}.

(** Three bytes declared as a GIF, and as a PNG. *)
Definition anim_gif : UploadedFile := mkFile "file" "anim.gif" "image/gif" pixels.
Definition big_png : UploadedFile := mkFile "file" "big.png" "image/png" pixels.

(** Parts for the multiple route: two images and one with no content,
    which the encoder rejects. *)
Definition first_jpg : UploadedFile := mkFile "files" "a.jpg" "image/jpeg" pixels.
Definition empty_png : UploadedFile := mkFile "files" "b.png" "image/png" [].
Definition last_webp : UploadedFile := mkFile "files" "c.webp" "image/webp" pixels.
Definition large_png : UploadedFile := mkFile "files" "big.png" "image/png" pixels.

(** A file name with a NUL byte, as [DELETE /images/a%00b] gives it. *)
Definition nul_name : string := String "a" (String Ascii.zero (String "b" EmptyString)).

(** The storage after an earlier upload of [old.png]. *)
Definition one_stored : World :=
  mkWorld (<[ ["app"; "uploads"; "old.png"] := File pixels ]> empty_storage)
          (clock start) 0.

End Scenario.


(** ** Vocabulary for the further properties *)

(** The bytes [compressImage] hands to the disk for a file name: the
    output of the encoder its extension selects, or the buffer itself. *)
Definition transcoded (sharp : Sharp) (buffer : Buffer) (filename : string)
  : Error + Buffer :=
  let ext := toLowerCase (path_extname filename) in
  if includes [".jpg"; ".jpeg"] ext then sharp (jpeg 80 true) buffer
  else if String.eqb ext ".png" then sharp (png 9 true) buffer
  else if String.eqb ext ".webp" then sharp (webp 80) buffer
  else inr buffer.

(** [obj[key]] on a JSON object. *)
Fixpoint json_get (key : string) (obj : JsonObject) : option JsonValue :=
  match obj with
  | [] => None
  | (k, v) :: rest => if String.eqb k key then Some v else json_get key rest
  end.

Definition is_hyphen (c : ascii) : bool := Ascii.eqb c "-"%char.

(** ** The list variables of the ENV CONFIG block *)

Definition is_comma (c : ascii) : bool := Ascii.eqb c ","%char.

(** [(process.env.NAME || fallback).split(",")]: a variable that is unset
    or empty gives way to the fallback. *)
Definition env_list (value : option string) (fallback : string) : list string :=
  split_on ","%char
    (match value with
     | Some s => if String.eqb s "" then fallback else s
     | None => fallback
     end).

(** No name on the disk holds a NUL byte: what every real disk
    satisfies. *)
Definition names_ok (d : Disk) : bool :=
  forallb (fun entry => forallb (fun name => negb (has_nul name)) entry.1)
          (map_to_list d).

(** ** Starting up: [Ensure upload folder exists] *)

Definition EEXIST := fs_error "EEXIST" "file already exists".

(** The kernel's walk from the directory [from] along the segments of a
    path: [""] and ["."] stay, [".."] goes to the parent, a name goes to the
    entry of that name.  Each step starts in an existing directory. *)
Fixpoint walk (d : Disk) (from : list string) (segs : list string)
  : option (list string) :=
  match segs with
  | [] => Some from
  | s :: rest =>
      if is_directory d from then
        if String.eqb s "" || String.eqb s "." then walk d from rest
        else if String.eqb s ".." then walk d (removelast from) rest
        else walk d (from ++ [s]) rest
      else None
  end.

(** The walk of [mkdir -p]: as [walk], making the directories that are
    missing on the way; a regular file in the way is an error. *)
Fixpoint walk_making (path : string) (d : Disk) (from : list string)
    (segs : list string) : Error + Disk :=
  if is_directory d from then
    match segs with
    | [] => inr d
    | s :: rest =>
        if String.eqb s "" || String.eqb s "." then walk_making path d from rest
        else if String.eqb s ".." then walk_making path d (removelast from) rest
        else
          match d !! (from ++ [s]) with
          | Some (File _) =>
              inl (match rest with
                   | [] => EEXIST "mkdir" path
                   | _ => ENOTDIR "mkdir" path
                   end)
          | Some Directory => walk_making path d (from ++ [s]) rest
          | None =>
              walk_making path (<[from ++ [s] := Directory]> d) (from ++ [s]) rest
          end
    end
  else inl (ENOENT "mkdir" path).

Section Startup.

Context (cfg : Config).
Context (__dirname : string).

(** Where a path given to [fs] starts: at the root, or at the working
    directory, which is what [path.resolve()] returned. *)
Definition start_of (path : string) : list string :=
  if starts_with_slash path then []
  else match locate __dirname with
       | Some l => segments l
       | None => []
       end.

(** [fs.existsSync(path)] *)
Definition fs_existsSync (path : string) (d : Disk) : bool :=
  if String.eqb path "" then false
  else match walk d (start_of path) (split_on "/"%char path) with
       | Some p => is_directory d p || is_file d p
       | None => false
       end.

(** [fs.mkdirSync(path, { recursive: true })] *)
Definition fs_mkdirSync_recursive (path : string) (d : Disk) : Error + Disk :=
  if String.eqb path "" then inl (ENOENT "mkdir" path)
  else walk_making path d (start_of path) (split_on "/"%char path).

(** [if (!fs.existsSync(UPLOADS_DIR)) fs.mkdirSync(UPLOADS_DIR, { recursive: true })] *)
Definition ensure_uploads_dir (d : Disk) : Error + Disk :=
  if negb (fs_existsSync (UPLOADS_DIR cfg) d) then
    fs_mkdirSync_recursive (UPLOADS_DIR cfg) d
  else inr d.

End Startup.

(** ** Further deployments

    Variations of the concrete deployment: a clock read twice within one
    millisecond, the server's own source beside the storage directory, a
    machine on which only the working directory exists, and an absolute
    [UPLOADS_DIR]. *)
Module Cases.

Import Scenario.

Definition same_millisecond : World :=
  mkWorld empty_storage (fun _ => 1700000000000%Z) 0.

Definition cat_again : UploadedFile := mkFile "file" "cat.JPG" "image/jpeg" [Byte.x0d].

Definition with_source : World :=
  mkWorld (<[ ["app"; "server.js"] := File pixels ]> empty_storage) (clock start) 0.

(** A directory [album] inside the storage directory. *)
Definition with_album : World :=
  mkWorld (<[ ["app"; "uploads"; "album"] := Directory ]> empty_storage) (clock start) 0.

Definition only_app : Disk := <[ ["app"] := Directory ]> ∅.

(** The default configuration with [UPLOADS_DIR=/data/uploads] in the
    environment. *)
Definition absolute_dir : Config := {|
  PORT := PORT default_config;
  UPLOADS_DIR := "/data/uploads";
  UPLOADS_URL := UPLOADS_URL default_config;
  ALLOWED_ORIGINS := ALLOWED_ORIGINS default_config;
  MAX_FILES := MAX_FILES default_config;
  MAX_FILE_SIZE := MAX_FILE_SIZE default_config;
  ALLOWED_TYPES := ALLOWED_TYPES default_config
|}.

(** The default configuration with two origins in [ALLOWED_ORIGINS],
    written with a space after the comma. *)
Definition two_origins : Config := {|
  PORT := PORT default_config;
  UPLOADS_DIR := UPLOADS_DIR default_config;
  UPLOADS_URL := UPLOADS_URL default_config;
  ALLOWED_ORIGINS :=
    env_list (Some "https://soulcraftbd.com, https://admin.soulcraftbd.com")
             "https://soulcraftbd.com";
  MAX_FILES := MAX_FILES default_config;
  MAX_FILE_SIZE := MAX_FILE_SIZE default_config;
  ALLOWED_TYPES := ALLOWED_TYPES default_config
|}.

(** The disk after start-up, the working directory being [/app]. *)
Definition started (cfg : Config) (d : Disk) : Disk :=
  match ensure_uploads_dir cfg app_dir d with
  | inr d' => d'
  | inl _ => d
  end.

(** A part for the single route whose name is a dot and a word. *)
Definition dot_png : UploadedFile := mkFile "file" ".png" "image/png" pixels.

End Cases.
(** * Properties *)

Lemma pair_eq_intro {A B} (p : A * B) (a : A) : p.1 = a → p = (a, p.2).
Proof. destruct p. simpl. congruence. Qed.

(** ** Strings and paths *)

Lemma lower_ascii_slash c : is_slash (lower_ascii c) = is_slash c.
Proof. destruct c as [[] [] [] [] [] [] [] []]; reflexivity. Qed.

Lemma lower_ascii_dot c : is_dot (lower_ascii c) = is_dot c.
Proof. destruct c as [[] [] [] [] [] [] [] []]; reflexivity. Qed.

Lemma lower_ascii_idem c : lower_ascii (lower_ascii c) = lower_ascii c.
Proof. destruct c as [[] [] [] [] [] [] [] []]; reflexivity. Qed.

Section MapScan.
Variables (f : ascii → ascii) (p : ascii → bool).
Hypothesis p_f : ∀ c, p (f c) = p c.

Lemma drop_while_map l :
  drop_while p (List.map f l) = List.map f (drop_while p l).
Proof.
  induction l as [|c r IH]; simpl; [reflexivity|].
  rewrite p_f. destruct (p c); [exact IH | reflexivity].
Qed.

Lemma take_until_map l :
  take_until p (List.map f l) = List.map f (take_until p l).
Proof.
  induction l as [|c r IH]; simpl; [reflexivity|].
  rewrite p_f. destruct (p c); simpl; [reflexivity | by rewrite IH].
Qed.
End MapScan.

Lemma toLowerCase_chars s :
  list_ascii_of_string (toLowerCase s) = List.map lower_ascii (list_ascii_of_string s).
Proof. unfold toLowerCase. apply list_ascii_of_string_of_list_ascii. Qed.

Lemma rev_basename_lower s :
  rev_basename (toLowerCase s) = List.map lower_ascii (rev_basename s).
Proof.
  unfold rev_basename. rewrite toLowerCase_chars, <- map_rev.
  rewrite drop_while_map by apply lower_ascii_slash.
  apply take_until_map, lower_ascii_slash.
Qed.

(** Lower-casing a path lower-cases its extension and nothing else about
    it: the scan only looks for separators and dots. *)
Lemma path_extname_lower s :
  path_extname (toLowerCase s) = toLowerCase (path_extname s).
Proof.
  unfold path_extname. rewrite rev_basename_lower.
  set (rb := rev_basename s).
  rewrite (drop_while_map lower_ascii (fun c => negb (is_dot c)))
    by (intros c; by rewrite lower_ascii_dot).
  rewrite take_until_map by apply lower_ascii_dot.
  assert (Hext : string_of_list_ascii
            (rev (List.map lower_ascii (take_until is_dot rb) ++ ["."%char]))
          = toLowerCase (string_of_list_ascii (rev (take_until is_dot rb ++ ["."%char])))).
  { unfold toLowerCase. rewrite list_ascii_of_string_of_list_ascii.
    by rewrite List.map_rev, List.map_app. }
  destruct (drop_while (fun c => negb (is_dot c)) rb) as [|c0 [|c1 r]]; simpl;
    try reflexivity.
  destruct rb as [|d1 [|d2 [|d3 r']]]; simpl; try exact Hext.
  rewrite !lower_ascii_dot. destruct (is_dot d1 && is_dot d2); [reflexivity | exact Hext].
Qed.

(** The extension of some file names, as Node documents them. *)
Example path_extname_examples :
  List.map path_extname
    ["index.html"; "index.coffee.md"; "index."; "index"; ".index"; ".index.md";
     ".."; "dir.d/file"; "dir/photo.JPG/"; "1700000000000-cat.jpeg"]
  = [".html"; ".md"; "."; ""; ""; ".md"; ""; ""; ".JPG"; ".jpeg"].
Proof. reflexivity. Qed.

Example path_join_examples :
  List.map path_join
    [["/app"; "uploads"; "1700000000000-cat.jpg"]; ["/app"; "uploads"];
     ["/app"; "uploads"; "../server.js"]; ["/app"; "uploads/"; "a//b/./c/"]]
  = ["/app/uploads/1700000000000-cat.jpg"; "/app/uploads";
     "/app/server.js"; "/app/uploads/a/b/c/"].
Proof. reflexivity. Qed.

Example default_config_values :
  MAX_FILE_SIZE default_config = 2097152%N
  ∧ MAX_FILES default_config = 20%Z
  ∧ ALLOWED_TYPES default_config = ["image/jpeg"; "image/png"; "image/webp"]
  ∧ ALLOWED_ORIGINS default_config = ["https://soulcraftbd.com"].
Proof. repeat split; reflexivity. Qed.

Lemma equal_ignoring_case_spec a b :
  equal_ignoring_case a b = true ↔ toLowerCase a = toLowerCase b.
Proof.
  unfold toLowerCase. revert b.
  induction a as [|x a IH]; intros [|y b]; simpl;
    [done | split; discriminate | split; discriminate |].
  destruct (Ascii.eqb_spec (lower_ascii x) (lower_ascii y)) as [Hc|Hc]; simpl.
  - rewrite IH, Hc. split; [by intros -> | by intros [= ->]].
  - split; [discriminate | by intros [= ? _]].
Qed.

Lemma has_extension_lower filename ext :
  toLowerCase ext = ext →
  has_extension filename ext ↔ toLowerCase (path_extname filename) = ext.
Proof.
  intros Hext. unfold has_extension.
  rewrite equal_ignoring_case_spec. by rewrite Hext.
Qed.

Lemma toLowerCase_idem s : toLowerCase (toLowerCase s) = toLowerCase s.
Proof.
  rewrite <- (string_of_list_ascii_of_string (toLowerCase (toLowerCase s))).
  rewrite !toLowerCase_chars, List.map_map.
  rewrite (List.map_ext _ lower_ascii) by apply lower_ascii_idem. reflexivity.
Qed.

(** The case of the letters of a file name has no part in the choice of its
    encoder. *)
Lemma has_extension_lower_name filename ext :
  has_extension (toLowerCase filename) ext ↔ has_extension filename ext.
Proof.
  unfold has_extension.
  by rewrite !equal_ignoring_case_spec, path_extname_lower, toLowerCase_idem.
Qed.

(** ** Joining a name to a directory *)

Lemma append_cons c s t : String c s +:+ t = String c (s +:+ t).
Proof. reflexivity. Qed.

Lemma append_assoc (a b c : string) : (a +:+ b) +:+ c = a +:+ (b +:+ c).
Proof.
  induction a as [|x a IH]; [reflexivity|]. by rewrite !append_cons, IH.
Qed.

Lemma chars_append (a b : string) :
  list_ascii_of_string (a +:+ b) = list_ascii_of_string a ++ list_ascii_of_string b.
Proof.
  induction a as [|x a IH]; [reflexivity|]. rewrite append_cons. simpl. by rewrite IH.
Qed.

Lemma no_slash_append (a b : string) :
  no_slash (a +:+ b) = no_slash a && no_slash b.
Proof.
  unfold no_slash. rewrite chars_append, existsb_app. by rewrite negb_orb.
Qed.

Lemma nonempty_spec s : nonempty s = true ↔ s ≠ "".
Proof.
  unfold nonempty. destruct (String.eqb_spec s ""); simpl; split; congruence.
Qed.

Lemma split_on_nonnil sep s : split_on sep s ≠ [].
Proof.
  destruct s as [|c r]; simpl; [done|].
  destruct (Ascii.eqb c sep); [done|]. by destruct (split_on sep r).
Qed.

(** Splitting at a separator splits what is before it and what is after
    it. *)
Lemma split_on_app_sep s t :
  split_on "/"%char (s +:+ String "/"%char t)
  = split_on "/"%char s ++ split_on "/"%char t.
Proof.
  induction s as [|c r IH]; [reflexivity|].
  rewrite append_cons. simpl. destruct (Ascii.eqb c "/"); [by rewrite IH|].
  rewrite IH. pose proof (split_on_nonnil "/"%char r).
  by destruct (split_on "/"%char r).
Qed.

Lemma split_on_no_slash s : no_slash s = true → split_on "/"%char s = [s].
Proof.
  unfold no_slash. induction s as [|c r IH]; [reflexivity|]. simpl.
  unfold is_slash at 1. destruct (Ascii.eqb c "/"); [done|]. simpl.
  intros H. by rewrite IH.
Qed.

Lemma split_on_pieces s : Forall (fun x => no_slash x = true) (split_on "/"%char s).
Proof.
  induction s as [|c r IH]; simpl; [by repeat constructor|].
  destruct (Ascii.eqb_spec c "/") as [->|Hc]; [by constructor|].
  pose proof (split_on_nonnil "/"%char r).
  destruct (split_on "/"%char r) as [|h t]; [done|].
  inversion IH as [|? ? Hh Ht]; subst. constructor; [|done].
  unfold no_slash in *. simpl. unfold is_slash at 1.
  by destruct (Ascii.eqb_spec c "/").
Qed.

Lemma join_with_snoc sep (l : list string) x :
  l ≠ [] → join_with sep (l ++ [x]) = join_with sep l +:+ sep +:+ x.
Proof.
  induction l as [|a [|b r] IH]; [done|reflexivity|]. intros _.
  change (join_with sep ((a :: b :: r) ++ [x]))
    with (a +:+ sep +:+ join_with sep ((b :: r) ++ [x])).
  rewrite IH by done.
  change (join_with sep (a :: b :: r)) with (a +:+ sep +:+ join_with sep (b :: r)).
  by rewrite !append_assoc.
Qed.

(** Joining segments with the separator and splitting again gives the
    segments back. *)
Lemma split_on_join (l : list string) :
  l ≠ [] → Forall (fun x => no_slash x = true) l →
  split_on "/"%char (join_with "/" l) = l.
Proof.
  induction l as [|a [|b r] IH]; [done| |]; intros _ Hall.
  - inversion Hall; subst. by apply split_on_no_slash.
  - inversion Hall as [|? ? Ha Hrest]; subst.
    change (join_with "/" (a :: b :: r))
      with (a +:+ String "/"%char (join_with "/" (b :: r))).
    rewrite split_on_app_sep, IH by done. by rewrite split_on_no_slash.
Qed.

Lemma normalize_segments_kept b stack segs :
  Forall kept stack → Forall (fun x => no_slash x = true) segs →
  Forall kept (normalize_segments b stack segs).
Proof.
  intros Hst Hsegs. revert stack Hst.
  induction Hsegs as [|s rest Hs _ IH]; intros stack Hst; simpl.
  - rewrite Forall_forall in *. intros x Hx. apply Hst.
    apply list_elem_of_In. apply in_rev. by apply list_elem_of_In.
  - destruct (String.eqb_spec s "") as [->|Hne]; simpl; [by apply IH|].
    destruct (String.eqb s "."); [by apply IH|].
    destruct (String.eqb_spec s "..") as [->|_].
    + destruct stack as [|top below].
      * destruct b; apply IH; by repeat constructor.
      * destruct (String.eqb top ".."); apply IH.
        -- constructor; [by split | done].
        -- by inversion Hst.
    + apply IH. constructor; [|done]. split; [by apply nonempty_spec | done].
Qed.

Lemma normalize_segments_snoc b stack segs name :
  plain_name name = true →
  normalize_segments b stack (segs ++ [name])
  = normalize_segments b stack segs ++ [name].
Proof.
  unfold plain_name. rewrite !andb_true_iff, !negb_true_iff.
  intros [[[Hne _] Hdot] Hdots]. unfold nonempty in Hne.
  apply negb_true_iff in Hne.
  revert stack. induction segs as [|s rest IH]; intros stack; simpl.
  - by rewrite Hne, Hdot, Hdots.
  - destruct (String.eqb s "" || String.eqb s "."); [apply IH|].
    destruct (String.eqb s ".."); [|apply IH].
    destruct stack as [|top below]; [destruct b; apply IH|].
    destruct (String.eqb top ".."); apply IH.
Qed.

Lemma append_nil_r (s : string) : s +:+ "" = s.
Proof. induction s as [|c r IH]; [reflexivity|]. by rewrite append_cons, IH. Qed.

Lemma starts_with_slash_append (a b : string) :
  a ≠ "" → starts_with_slash (a +:+ b) = starts_with_slash a.
Proof. by destruct a. Qed.

Lemma ends_with_slash_append (a b : string) :
  b ≠ "" → ends_with_slash (a +:+ b) = ends_with_slash b.
Proof.
  intros Hb. unfold ends_with_slash. rewrite chars_append, rev_app_distr.
  destruct b as [|c r]; [done|]. simpl.
  destruct (rev (list_ascii_of_string r) ++ [c]) eqn:E; [|done].
  by apply app_eq_nil in E as [_ ?].
Qed.

Lemma ends_with_slash_no_slash (s : string) :
  no_slash s = true → ends_with_slash s = false.
Proof.
  unfold no_slash, ends_with_slash. intros H.
  destruct (rev (list_ascii_of_string s)) as [|c r] eqn:E; [done|].
  destruct (is_slash c) eqn:Hc; [|done].
  apply negb_true_iff in H. rewrite <- H. symmetry. apply existsb_exists.
  exists c. split; [|done]. apply in_rev. rewrite E. by left.
Qed.

Lemma join_kept (l : list string) :
  Forall kept l → l ≠ [] →
  join_with "/" l ≠ "" ∧ ends_with_slash (join_with "/" l) = false.
Proof.
  induction l as [|a [|b r] IH]; [done| |]; intros Hall _.
  - inversion Hall as [|? ? [Hne Hns] _]; subst. simpl.
    split; [by apply nonempty_spec | by apply ends_with_slash_no_slash].
  - inversion Hall as [|? ? [Hne Hns] Hrest]; subst.
    destruct (IH Hrest) as [Hj He]; [done|].
    change (join_with "/" (a :: b :: r))
      with (a +:+ String "/"%char (join_with "/" (b :: r))).
    split.
    + apply nonempty_spec in Hne. by destruct a.
    + rewrite ends_with_slash_append by done.
      change (String "/"%char (join_with "/" (b :: r)))
        with ("/" +:+ join_with "/" (b :: r)).
      by rewrite ends_with_slash_append.
Qed.

Lemma filter_nonempty_kept (l : list string) :
  Forall kept l → List.filter nonempty l = l.
Proof.
  induction 1 as [|x l [Hx _] _ IH]; [done|]. simpl. by rewrite Hx, IH.
Qed.

Lemma kept_no_slash (l : list string) :
  Forall kept l → Forall (fun x => no_slash x = true) l.
Proof. intros H. eapply Forall_impl; [exact H|]. by intros x [_ ?]. Qed.

(** The kernel finds in an absolute normalised path the segments it was
    built from. *)
Lemma locate_absolute (l : list string) (t : bool) :
  Forall kept l → l ≠ [] →
  locate ("/" +:+ (if t then join_with "/" l +:+ "/" else join_with "/" l))
  = Some {| segments := l; trailing := t |}.
Proof.
  intros Hall Hne. destruct (join_kept l Hall Hne) as [Hj He].
  unfold locate. simpl starts_with_slash. cbv iota. f_equal.
  destruct t.
  - f_equal.
    + change ("/" +:+ join_with "/" l +:+ "/")
        with (String "/"%char (join_with "/" l +:+ String "/"%char "")).
      simpl split_on. rewrite split_on_app_sep, split_on_join
        by (done || by apply kept_no_slash).
      simpl. rewrite List.filter_app. simpl. rewrite app_nil_r.
      by apply filter_nonempty_kept.
    + change ("/" +:+ join_with "/" l +:+ "/")
        with (("/" +:+ join_with "/" l) +:+ "/").
      by rewrite ends_with_slash_append.
  - f_equal.
    + change ("/" +:+ join_with "/" l) with (String "/"%char (join_with "/" l)).
      simpl split_on. rewrite split_on_join by (done || by apply kept_no_slash).
      simpl. by apply filter_nonempty_kept.
    + by rewrite ends_with_slash_append.
Qed.

(** [path.normalize] of an absolute path, as the kernel reads it. *)
Lemma locate_normalize (path : string) :
  starts_with_slash path = true →
  ∃ t, locate (path_normalize path)
       = Some {| segments := normalize_segments false [] (split_on "/"%char path);
                 trailing := t |}
       ∧ (normalize_segments false [] (split_on "/"%char path) ≠ [] →
          t = ends_with_slash path).
Proof.
  intros Habs. unfold path_normalize. rewrite Habs. simpl negb.
  destruct (String.eqb_spec path "") as [->|_]; [done|].
  set (segs := normalize_segments false [] (split_on "/"%char path)).
  assert (Hkept : Forall kept segs).
  { apply normalize_segments_kept; [constructor | apply split_on_pieces]. }
  destruct segs as [|s r] eqn:E.
  - exists true. by split.
  - destruct (join_kept (s :: r) Hkept) as [Hj _]; [done|].
    destruct (String.eqb_spec (join_with "/" (s :: r)) ""); [done|].
    exists (ends_with_slash path). split; [|done].
    by apply locate_absolute.
Qed.

(** Joining a plain name to an absolute directory path names the entry
    of that directory with that name. *)
Lemma path_join_child (dir : string) (rest : list string) (name : string) :
  starts_with_slash dir = true → plain_name name = true →
  ∃ l, locate (path_join (dir :: rest)) = Some l
       ∧ locate (path_join (dir :: rest ++ [name]))
         = Some {| segments := segments l ++ [name]; trailing := false |}.
Proof.
  intros Habs Hplain.
  assert (Hname : nonempty name = true ∧ no_slash name = true).
  { unfold plain_name in Hplain. rewrite !andb_true_iff in Hplain. tauto. }
  destruct Hname as [Hne Hns].
  assert (Hdir : nonempty dir = true) by (by destruct dir).
  unfold path_join.
  change (List.filter nonempty (dir :: rest ++ [name]))
    with (if nonempty dir then dir :: List.filter nonempty (rest ++ [name])
          else List.filter nonempty (rest ++ [name])).
  change (List.filter nonempty (dir :: rest))
    with (if nonempty dir then dir :: List.filter nonempty rest
          else List.filter nonempty rest).
  rewrite Hdir, List.filter_app. simpl (List.filter nonempty [name]). rewrite Hne.
  set (args := dir :: List.filter nonempty rest).
  change (dir :: List.filter nonempty rest ++ [name]) with (args ++ [name]).
  rewrite join_with_snoc by done.
  assert (Hjabs : join_with "/" args ≠ ""
                  ∧ starts_with_slash (join_with "/" args) = true).
  { subst args. destruct (List.filter nonempty rest) as [|b r].
    - simpl. split; [by apply nonempty_spec | done].
    - change (join_with "/" (dir :: b :: r))
        with (dir +:+ "/" +:+ join_with "/" (b :: r)).
      apply nonempty_spec in Hdir. split; [by destruct dir|].
      by rewrite starts_with_slash_append. }
  destruct Hjabs as [Hj Hjs].
  set (J := join_with "/" args) in *.
  destruct (String.eqb_spec J ""); [done|].
  destruct (String.eqb_spec (J +:+ "/" +:+ name) "") as [E|_];
    [by destruct J|].
  destruct (locate_normalize J Hjs) as (t & Hl & _).
  eexists. split; [exact Hl|]. simpl segments.
  destruct (locate_normalize (J +:+ "/" +:+ name)) as (t' & Hl' & Ht').
  { by rewrite starts_with_slash_append. }
  change (J +:+ "/" +:+ name) with (J +:+ String "/"%char name) in *.
  rewrite split_on_app_sep, (split_on_no_slash name) in Hl', Ht' by done.
  rewrite normalize_segments_snoc in Hl', Ht' by done.
  rewrite Hl'. f_equal. f_equal.
  rewrite Ht'; [|by destruct (normalize_segments false [] (split_on "/"%char J))].
  change (J +:+ String "/"%char name) with (J +:+ ("/" +:+ name)).
  rewrite ends_with_slash_append by done.
  rewrite ends_with_slash_append by (by apply nonempty_spec).
  by apply ends_with_slash_no_slash.
Qed.

(** ** Stored names *)

Lemma uint_digits_no_slash (d : Decimal.uint) :
  no_slash (NilEmpty.string_of_uint d) = true.
Proof. induction d; simpl; done. Qed.

Lemma uint_string_no_slash (d : Decimal.uint) :
  no_slash (NilZero.string_of_uint d) = true.
Proof. destruct d; try reflexivity; apply (uint_digits_no_slash (_ d)). Qed.

Lemma Number_toString_no_slash (n : Z) : no_slash (Number_toString n) = true.
Proof.
  unfold Number_toString, NilZero.string_of_int.
  destruct (Z.to_int n) as [d|d]; exact (uint_string_no_slash d).
Qed.

(** A time stamp, a hyphen and a name without separator make a plain
    name. *)
Lemma stored_name_plain (now : Z) (orig : string) :
  no_slash orig = true →
  plain_name (Number_toString now +:+ "-" +:+ orig) = true.
Proof.
  intros Horig. unfold plain_name.
  assert (Hin : In "-"%char
            (list_ascii_of_string (Number_toString now +:+ "-" +:+ orig))).
  { rewrite chars_append. apply in_or_app. right. by left. }
  rewrite !no_slash_append, Number_toString_no_slash, Horig.
  destruct (String.eqb_spec (Number_toString now +:+ "-" +:+ orig) "") as [E|_].
  { rewrite E in Hin. destruct Hin. }
  destruct (String.eqb_spec (Number_toString now +:+ "-" +:+ orig) ".") as [E|_].
  { rewrite E in Hin. simpl in Hin. by destruct Hin as [|[]]. }
  destruct (String.eqb_spec (Number_toString now +:+ "-" +:+ orig) "..") as [E|_].
  { rewrite E in Hin. simpl in Hin. by destruct Hin as [|[|[]]]. }
  unfold nonempty.
  destruct (String.eqb_spec (Number_toString now +:+ "-" +:+ orig) "") as [E|_];
    [|reflexivity].
  rewrite E in Hin. destruct Hin.
Qed.

(** ** Writing to the disk *)

Lemma disk_write_result path data d d' :
  disk_write path data d = inr d' →
  ∃ l, locate path = Some l ∧ trailing l = false
       ∧ d' = <[segments l := File data]> d.
Proof.
  unfold disk_write. destruct (locate path) as [l|]; [|discriminate].
  destruct (trailing l) eqn:Ht; [discriminate|].
  destruct (segments l) as [|s p] eqn:Hs; [discriminate|].
  destruct (parent_error d (s :: p) "open" path); [discriminate|].
  intros H. exists l. rewrite Hs. split; [done|]. split; [done|].
  destruct (d !! (s :: p)) as [[]|]; congruence.
Qed.

Section ServerFacts.
Context (cfg : Config) (dirname : string) (sharp : Sharp).

(** A write succeeds exactly when the path names a place for a regular
    file in an existing directory. *)
Lemma disk_write_spec (path : string) (data : Buffer) (d d' : Disk) :
  disk_write path data d = inr d'
  ↔ ∃ l, locate path = Some l ∧ trailing l = false ∧ segments l ≠ []
         ∧ is_directory d (removelast (segments l)) = true
         ∧ d !! segments l ≠ Some Directory
         ∧ d' = <[segments l := File data]> d.
Proof.
  unfold disk_write, parent_error. split.
  - destruct (locate path) as [l|]; [|discriminate].
    destruct (trailing l) eqn:Ht; [discriminate|].
    destruct (segments l) as [|s p] eqn:Hs; [discriminate|].
    destruct (is_directory d (removelast (s :: p))) eqn:Hdir;
      [|destruct (is_file d (removelast (s :: p))); discriminate].
    intros H. exists l. rewrite Hs. do 4 (split; [done|]).
    destruct (d !! (s :: p)) as [[]|]; split; congruence.
  - intros (l & Hl & Ht & Hne & Hd & Hnd & ->). rewrite Hl, Ht.
    destruct (segments l) as [|s p]; [done|]. rewrite Hd.
    by destruct (d !! (s :: p)) as [[]|].
Qed.

(** The branch taken for an extension. *)
Lemma compressImage_branch (buffer : Buffer) (filename : string) :
  let ext := toLowerCase (path_extname filename) in
  let outputPath := path_join [dirname; UPLOADS_DIR cfg; filename] in
  let url := UPLOADS_URL cfg +:+ "/" +:+ filename in
  (ext = ".jpg" ∨ ext = ".jpeg" →
     compressImage cfg dirname sharp buffer filename
     = (sharp_toFile sharp (jpeg 80 true) buffer outputPath ;; ret url))
  ∧ (ext = ".png" →
     compressImage cfg dirname sharp buffer filename
     = (sharp_toFile sharp (png 9 true) buffer outputPath ;; ret url))
  ∧ (ext = ".webp" →
     compressImage cfg dirname sharp buffer filename
     = (sharp_toFile sharp (webp 80) buffer outputPath ;; ret url))
  ∧ (ext ≠ ".jpg" → ext ≠ ".jpeg" → ext ≠ ".png" → ext ≠ ".webp" →
     compressImage cfg dirname sharp buffer filename
     = (fs_writeFileSync outputPath buffer ;; ret url)).
Proof.
  intros ext outputPath url. unfold compressImage.
  fold ext. fold outputPath. fold url.
  split; [|split; [|split]].
  - by intros [-> | ->].
  - by intros ->.
  - by intros ->.
  - intros H1 H2 H3 H4. unfold includes; simpl.
    destruct (String.eqb_spec ext ".jpg"); [done|].
    destruct (String.eqb_spec ext ".jpeg"); [done|].
    destruct (String.eqb_spec ext ".png"); [done|].
    by destruct (String.eqb_spec ext ".webp").
Qed.

(** C1: the transcode step looks at the extension of the stored file
    name without regard to letter case.  For [.jpg] and [.jpeg] it has sharp
    encode a JPEG of quality 80, for [.png] a PNG with compression level 9
    and adaptive filtering, for [.webp] a WebP of quality 80, and for any
    other extension it takes the buffer it was given.  Those bytes it
    writes to the output path: where that path names a place for a file in
    an existing directory the call returns the public URL and the file
    there holds exactly those bytes, and whenever the call returns, that is
    what it has done.  An input the encoder rejects makes the call throw the
    encoder's error. *)
Theorem compressImage_dispatch (buffer : Buffer) (filename : string) (w : World) :
  let outputPath := path_join [dirname; UPLOADS_DIR cfg; filename] in
  let url := UPLOADS_URL cfg +:+ "/" +:+ filename in
  let writes (data : Buffer) :=
    (∀ l, locate outputPath = Some l → trailing l = false → segments l ≠ [] →
          has_nul outputPath = false →
          is_directory (disk w) (removelast (segments l)) = true →
          disk w !! segments l ≠ Some Directory →
          compressImage cfg dirname sharp buffer filename w
          = (inr url, set_disk (<[segments l := File data]> (disk w)) w))
    ∧ (∀ u w', compressImage cfg dirname sharp buffer filename w = (inr u, w') →
         u = url
         ∧ ∃ l, locate outputPath = Some l
                ∧ w' = set_disk (<[segments l := File data]> (disk w)) w) in
  let encodes (fmt : SharpFormat) :=
    match sharp fmt buffer with
    | inr bytes => writes bytes
    | inl err => (compressImage cfg dirname sharp buffer filename w).1 = inl err
    end in
  (has_extension filename ".jpg" ∨ has_extension filename ".jpeg" →
     encodes (jpeg 80 true))
  ∧ (has_extension filename ".png" → encodes (png 9 true))
  ∧ (has_extension filename ".webp" → encodes (webp 80))
  ∧ (¬ has_extension filename ".jpg" → ¬ has_extension filename ".jpeg" →
     ¬ has_extension filename ".png" → ¬ has_extension filename ".webp" →
     writes buffer).
Proof.
  intros outputPath url writes encodes.
  rewrite !has_extension_lower by reflexivity.
  destruct (compressImage_branch buffer filename) as (Hjpeg & Hpng & Hwebp & Hother).
  fold outputPath url in Hjpeg, Hpng, Hwebp, Hother.
  assert (Hwritten : ∀ data d,
    disk_write outputPath data (disk w) = inr d →
    ∃ l, locate outputPath = Some l
         ∧ set_disk d w = set_disk (<[segments l := File data]> (disk w)) w).
  { intros data d Hw. apply disk_write_spec in Hw as (l & Hl & _ & _ & _ & _ & ->).
    eauto. }
  assert (Hcan : ∀ data l,
    locate outputPath = Some l → trailing l = false → segments l ≠ [] →
    is_directory (disk w) (removelast (segments l)) = true →
    disk w !! segments l ≠ Some Directory →
    disk_write outputPath data (disk w) = inr (<[segments l := File data]> (disk w))).
  { intros data l Hl Ht Hne Hd Hnd. apply disk_write_spec. exists l. eauto 10. }
  assert (Hsharp : ∀ fmt,
    compressImage cfg dirname sharp buffer filename
    = (sharp_toFile sharp fmt buffer outputPath ;; ret url) →
    encodes fmt).
  { intros fmt Heq. unfold encodes, writes. rewrite Heq.
    unfold bind, sharp_toFile, throw, ret.
    destruct (sharp fmt buffer) as [err|bytes]; [done|]. split.
    - intros l Hl Ht Hne _ Hd Hnd. by rewrite (Hcan bytes l).
    - intros u w'.
      destruct (disk_write outputPath bytes (disk w)) as [e|d] eqn:Hw; [discriminate|].
      intros [= <- <-]. split; [done|]. by apply Hwritten. }
  split; [|split; [|split]].
  - intros H. by apply Hsharp, Hjpeg.
  - intros H. by apply Hsharp, Hpng.
  - intros H. by apply Hsharp, Hwebp.
  - intros H1 H2 H3 H4. unfold writes. rewrite (Hother H1 H2 H3 H4).
    unfold bind, fs_writeFileSync, on_disk, ret. split.
    + intros l Hl Ht Hne _ Hd Hnd. by rewrite (Hcan buffer l).
    + intros u w'.
      destruct (disk_write outputPath buffer (disk w)) as [e|d] eqn:Hw; [discriminate|].
      intros [= <- <-]. split; [done|]. by apply Hwritten.
Qed.

(** ** What a transcode leaves behind *)

Lemma write_effect path data w res w' :
  on_disk (disk_write path data) w = (res, w') →
  match res with
  | inl _ => w' = w
  | inr _ => ∃ l, locate path = Some l
                  ∧ w' = set_disk (<[segments l := File data]> (disk w)) w
  end.
Proof.
  unfold on_disk. destruct (disk_write path data (disk w)) as [e|d] eqn:Hw.
  - by intros [= <- <-].
  - intros [= <- <-]. apply disk_write_result in Hw as (l & Hl & _ & ->). eauto.
Qed.

Lemma sharp_toFile_effect fmt buffer path w res w' :
  sharp_toFile sharp fmt buffer path w = (res, w') →
  match res with
  | inl _ => w' = w
  | inr _ => ∃ l encoded, sharp fmt buffer = inr encoded ∧ locate path = Some l
                  ∧ w' = set_disk (<[segments l := File encoded]> (disk w)) w
  end.
Proof.
  unfold sharp_toFile. destruct (sharp fmt buffer) as [e|encoded].
  - by intros [= <- <-].
  - destruct (disk_write path encoded (disk w)) as [e|d] eqn:Hw.
    + by intros [= <- <-].
    + intros [= <- <-]. apply disk_write_result in Hw as (l & Hl & _ & ->). eauto.
Qed.

(** A transcode either fails and leaves the world as it found it, or
    returns the public URL and has put one file at the output path. *)
Lemma compressImage_effect buffer filename w res w' :
  compressImage cfg dirname sharp buffer filename w = (res, w') →
  match res with
  | inl _ => w' = w
  | inr url =>
      url = UPLOADS_URL cfg +:+ "/" +:+ filename
      ∧ ∃ l data, locate (path_join [dirname; UPLOADS_DIR cfg; filename]) = Some l
                  ∧ w' = set_disk (<[segments l := File data]> (disk w)) w
  end.
Proof.
  unfold compressImage, bind, ret, fs_writeFileSync.
  set (outputPath := path_join _).
  set (ext := toLowerCase _).
  destruct (includes [".jpg"; ".jpeg"] ext);
    [|destruct (String.eqb ext ".png"); [|destruct (String.eqb ext ".webp")]].
  1-3: match goal with
       | |- context [sharp_toFile ?s ?f ?b ?p ?w0] =>
           destruct (sharp_toFile s f b p w0) as [[e|[]] w1] eqn:H;
           apply sharp_toFile_effect in H; intros [= <- <-];
           [done | destruct H as (l & enc & _ & Hl & ->); eauto]
       end.
  destruct (on_disk (disk_write outputPath buffer) w) as [[e|[]] w1] eqn:H;
    apply write_effect in H; intros [= <- <-];
    [done | destruct H as (l & Hl & ->); eauto].
Qed.

(** The [try] of the multiple route when multer left an array. *)
Lemma store_files_Some (files : list UploadedFile) (w : World) :
  store_files cfg dirname sharp (Some files) w
  = try_catch_500
      (let* urls := upload_each cfg dirname sharp files [] in
       ret (res_json [("success", JBool true); ("urls", JStrings urls)])) w.
Proof. reflexivity. Qed.

(** ** The upload intake *)

(** A part the intake lets through. *)
Lemma multer_intake_accepts name (filesLeft : Z) parts files :
  multer_intake cfg name filesLeft parts = inr files →
  files = parts
  ∧ (Z.of_nat (length parts) ≤ Z.max filesLeft 0)%Z
  ∧ Forall (fun file => fieldname file = name
                        ∧ includes (ALLOWED_TYPES cfg) (mimetype file) = true
                        ∧ (size file ≤ MAX_FILE_SIZE cfg)%N) parts.
Proof.
  revert filesLeft files.
  induction parts as [|file rest IH]; intros filesLeft files; simpl.
  - intros [= <-]. split; [done|]. split; [lia | constructor].
  - destruct (String.eqb_spec (fieldname file) name) as [Hn|]; [|discriminate].
    destruct (Z.leb_spec filesLeft 0); [discriminate|]. simpl.
    unfold fileFilter.
    destruct (includes (ALLOWED_TYPES cfg) (mimetype file)) eqn:Ht; [|discriminate].
    destruct (N.ltb_spec (MAX_FILE_SIZE cfg) (size file)); [discriminate|].
    destruct (multer_intake cfg name (filesLeft - 1) rest) as [e|fs] eqn:Hrest;
      [discriminate|].
    intros [= <-]. destruct (IH _ _ Hrest) as (-> & Hlen & Hall).
    split; [done|]. split; [simpl length; lia|]. by constructor.
Qed.

(** Every error of the intake is one of three; only the size limit has
    the code [LIMIT_FILE_SIZE]. *)
Lemma multer_intake_errors name (filesLeft : Z) parts err :
  multer_intake cfg name filesLeft parts = inl err →
  err = MulterError "LIMIT_UNEXPECTED_FILE" "Unexpected field"
  ∨ err = new_Error "Invalid file type (JPEG, PNG, WebP only)."
  ∨ err = MulterError "LIMIT_FILE_SIZE" "File too large".
Proof.
  revert filesLeft.
  induction parts as [|file rest IH]; intros filesLeft; simpl; [discriminate|].
  destruct (negb (String.eqb (fieldname file) name) || (filesLeft <=? 0)%Z);
    [intros [= <-]; auto|].
  unfold fileFilter.
  destruct (includes (ALLOWED_TYPES cfg) (mimetype file)); [|intros [= <-]; auto].
  destruct (MAX_FILE_SIZE cfg <? size file)%N; [intros [= <-]; auto|].
  destruct (multer_intake cfg name (filesLeft - 1) rest) as [e|fs] eqn:Hrest;
    [|discriminate].
  intros [= <-]. eauto.
Qed.

(** A request with a part that is too large, or of a type that is not
    allowed, never gets through. *)
Lemma multer_intake_rejects name (filesLeft : Z) parts file :
  file ∈ parts →
  (MAX_FILE_SIZE cfg < size file)%N
  ∨ includes (ALLOWED_TYPES cfg) (mimetype file) = false →
  ∃ err, multer_intake cfg name filesLeft parts = inl err.
Proof.
  intros Hin Hbad.
  destruct (multer_intake cfg name filesLeft parts) as [err|files] eqn:H; [eauto|].
  apply multer_intake_accepts in H as (_ & _ & Hall).
  rewrite Forall_forall in Hall. destruct (Hall _ Hin) as (_ & Ht & Hs).
  destruct Hbad as [Hbig|Hty]; [lia | congruence].
Qed.

(** The intake stops at the first part it rejects: parts it accepted
    before do not change the error. *)
Lemma multer_intake_first_rejected name (filesLeft : Z) accepted file rest :
  Forall (fun f => fieldname f = name
                   ∧ includes (ALLOWED_TYPES cfg) (mimetype f) = true
                   ∧ (size f ≤ MAX_FILE_SIZE cfg)%N) accepted →
  (Z.of_nat (length accepted) < filesLeft)%Z →
  fieldname file = name →
  includes (ALLOWED_TYPES cfg) (mimetype file) = true →
  (MAX_FILE_SIZE cfg < size file)%N →
  multer_intake cfg name filesLeft (accepted ++ file :: rest)
  = inl (MulterError "LIMIT_FILE_SIZE" "File too large").
Proof.
  intros Hacc. revert filesLeft.
  induction Hacc as [|f fs (Hn & Ht & Hs) _ IH]; intros filesLeft Hlen Hname Hty Hbig;
    simpl in *.
  - rewrite Hname, String.eqb_refl. destruct (Z.leb_spec filesLeft 0); [lia|]. simpl.
    unfold fileFilter. rewrite Hty.
    destruct (N.ltb_spec (MAX_FILE_SIZE cfg) (size file)); [done | lia].
  - rewrite Hn, String.eqb_refl. destruct (Z.leb_spec filesLeft 0); [lia|]. simpl.
    unfold fileFilter. rewrite Ht.
    destruct (N.ltb_spec (MAX_FILE_SIZE cfg) (size f)); [lia|].
    rewrite IH; [done | lia | done..].
Qed.

(** The answer of either upload route when the intake reports [err]. *)
Lemma post_upload_single_rejected parts w err :
  upload_single cfg "file" parts = inl err →
  post_upload_single cfg dirname sharp parts w
  = (res_status_json 400
       [("success", JBool false);
        ("message", JString (if bool_decide (code err = Some "LIMIT_FILE_SIZE")
                             then "File too large (max 2MB)" else message err))], w).
Proof. intros H. unfold post_upload_single. by rewrite H. Qed.

Lemma post_upload_multiple_rejected parts w err :
  upload_array cfg "files" (MAX_FILES cfg) parts = inl err →
  post_upload_multiple cfg dirname sharp parts w
  = (res_status_json 400
       [("success", JBool false);
        ("message", JString (if bool_decide (code err = Some "LIMIT_FILE_SIZE")
                             then "Each file must be under 2MB" else message err))], w).
Proof. intros H. unfold post_upload_multiple. by rewrite H. Qed.

Lemma upload_single_error name parts :
  (∃ err, multer_intake cfg name 1 parts = inl err) →
  ∃ err, upload_single cfg name parts = inl err.
Proof. intros [err H]. exists err. unfold upload_single. by rewrite H. Qed.

(** C4: an upload with a file part whose declared content type is not in
    the allow-list is answered with HTTP 400 on either route, and the world
    (the disk with it) is then exactly as before the request; more
    generally, whenever the intake rejects a request the handler returns
    the world untouched, the intake being a function of the request
    alone. *)
Theorem disallowed_type_rejected (parts : list UploadedFile) (w : World) :
  (∀ file, file ∈ parts →
     includes (ALLOWED_TYPES cfg) (mimetype file) = false →
     (∃ msg, post_upload_single cfg dirname sharp parts w
             = (res_status_json 400
                  [("success", JBool false); ("message", JString msg)], w))
     ∧ (∃ msg, post_upload_multiple cfg dirname sharp parts w
               = (res_status_json 400
                    [("success", JBool false); ("message", JString msg)], w)))
  ∧ (∀ err, upload_single cfg "file" parts = inl err →
       (post_upload_single cfg dirname sharp parts w).2 = w)
  ∧ (∀ err, upload_array cfg "files" (MAX_FILES cfg) parts = inl err →
       (post_upload_multiple cfg dirname sharp parts w).2 = w).
Proof.
  split; [|split].
  - intros file Hin Hty. split.
    + destruct (upload_single_error "file" parts) as [err H].
      { eapply multer_intake_rejects; eauto. }
      rewrite (post_upload_single_rejected _ _ _ H). eauto.
    + destruct (multer_intake_rejects "files" (MAX_FILES cfg) parts file Hin)
        as [err H]; [auto|].
      rewrite (post_upload_multiple_rejected _ _ _ H). eauto.
  - intros err H. by rewrite (post_upload_single_rejected _ _ _ H).
  - intros err H. by rewrite (post_upload_multiple_rejected _ _ _ H).
Qed.

(** C3, as amended: an upload with a file part larger than the configured
    maximum is answered with HTTP 400 on either route and nothing is
    stored.  When the first part the intake rejects has the expected field
    name, is within the count and has an allowed content type, and is
    rejected for its size, the message is the route's size message, which
    the route gives for no other rejection. *)
Theorem oversized_part_rejected :
  (∀ parts file w, file ∈ parts → (MAX_FILE_SIZE cfg < size file)%N →
     (∃ msg, post_upload_single cfg dirname sharp parts w
             = (res_status_json 400
                  [("success", JBool false); ("message", JString msg)], w))
     ∧ (∃ msg, post_upload_multiple cfg dirname sharp parts w
               = (res_status_json 400
                    [("success", JBool false); ("message", JString msg)], w)))
  ∧ (∀ file rest w,
       fieldname file = "file" →
       includes (ALLOWED_TYPES cfg) (mimetype file) = true →
       (MAX_FILE_SIZE cfg < size file)%N →
       post_upload_single cfg dirname sharp (file :: rest) w
       = (res_status_json 400
            [("success", JBool false);
             ("message", JString "File too large (max 2MB)")], w))
  ∧ (∀ accepted file rest w,
       Forall (fun f => fieldname f = "files"
                        ∧ includes (ALLOWED_TYPES cfg) (mimetype f) = true
                        ∧ (size f ≤ MAX_FILE_SIZE cfg)%N) accepted →
       (Z.of_nat (length accepted) < MAX_FILES cfg)%Z →
       fieldname file = "files" →
       includes (ALLOWED_TYPES cfg) (mimetype file) = true →
       (MAX_FILE_SIZE cfg < size file)%N →
       post_upload_multiple cfg dirname sharp (accepted ++ file :: rest) w
       = (res_status_json 400
            [("success", JBool false);
             ("message", JString "Each file must be under 2MB")], w))
  ∧ (∀ parts w,
       (post_upload_single cfg dirname sharp parts w).1
       = res_status_json 400
           [("success", JBool false);
            ("message", JString "File too large (max 2MB)")]
       ↔ upload_single cfg "file" parts
         = inl (MulterError "LIMIT_FILE_SIZE" "File too large"))
  ∧ (∀ parts w,
       (post_upload_multiple cfg dirname sharp parts w).1
       = res_status_json 400
           [("success", JBool false);
            ("message", JString "Each file must be under 2MB")]
       ↔ upload_array cfg "files" (MAX_FILES cfg) parts
         = inl (MulterError "LIMIT_FILE_SIZE" "File too large")).
Proof.
  split; [|split; [|split; [|split]]].
  - intros parts file w Hin Hbig. split.
    + destruct (upload_single_error "file" parts) as [err H].
      { eapply multer_intake_rejects; eauto. }
      rewrite (post_upload_single_rejected _ _ _ H). eauto.
    + destruct (multer_intake_rejects "files" (MAX_FILES cfg) parts file Hin)
        as [err H]; [auto|].
      rewrite (post_upload_multiple_rejected _ _ _ H). eauto.
  - intros file rest w Hn Hty Hbig.
    rewrite (post_upload_single_rejected _ _ (MulterError "LIMIT_FILE_SIZE" "File too large"));
      [done|].
    unfold upload_single.
    pose proof (multer_intake_first_rejected "file" 1 [] file rest
                  (Forall_nil_2 _) ltac:(simpl; lia) Hn Hty Hbig) as H.
    change ([] ++ file :: rest) with (file :: rest) in H. by rewrite H.
  - intros accepted file rest w Hacc Hlen Hn Hty Hbig.
    rewrite (post_upload_multiple_rejected _ _ (MulterError "LIMIT_FILE_SIZE" "File too large"));
      [done|].
    by apply multer_intake_first_rejected.
  - intros parts w. split.
    + unfold post_upload_single, upload_single.
      destruct (multer_intake cfg "file" 1 parts) as [err|files] eqn:H.
      * apply multer_intake_errors in H as [-> | [-> | ->]]; simpl; by intros [=].
      * rewrite ?store_files_Some; unfold store_file, try_catch_500.
        match goal with |- context [bind ?m ?k w] => destruct (bind m k w) as [[e|r] w'] eqn:Hb end;
          simpl; [by intros [=]|].
        unfold bind, Date_now in Hb.
        destruct (property_of (head files) "originalname" _) as [[e|f] w1]; [done|].
        destruct (compressImage _ _ _ _ _ _) as [[e|u] w2]; [done|].
        inversion Hb; subst. by intros [=].
    + intros H. by rewrite (post_upload_single_rejected _ _ _ H).
  - intros parts w. split.
    + unfold post_upload_multiple, upload_array.
      destruct (multer_intake cfg "files" (MAX_FILES cfg) parts) as [err|files] eqn:H.
      * apply multer_intake_errors in H as [-> | [-> | ->]]; simpl; by intros [=].
      * rewrite ?store_files_Some; unfold store_file, try_catch_500, bind.
        destruct (upload_each _ _ _ _ _ _) as [[e|urls] w']; simpl; by intros [=].
    + intros H. by rewrite (post_upload_multiple_rejected _ _ _ H).
Qed.


(** C10, as amended: a multipart request to the multiple route that
    gets through the intake with no file part is answered with
    [success: true] and an empty [urls] array, and the world is left as it
    was.  A request that is not multipart gets through multer as well, but
    with no array of files at all: the loop over it throws, the [catch]
    answers HTTP 500 with [success: false], and the world is left as it
    was. *)
Theorem multiple_upload_without_files (w : World) :
  (∀ parts, upload_array cfg "files" (MAX_FILES cfg) parts = inr [] →
     post_upload_multiple_request cfg dirname sharp (multipart parts) w
     = (res_json [("success", JBool true); ("urls", JStrings [])], w))
  ∧ post_upload_multiple_request cfg dirname sharp (multipart []) w
    = (res_json [("success", JBool true); ("urls", JStrings [])], w)
  ∧ post_upload_multiple_request cfg dirname sharp not_multipart w
    = (res_status_json 500
         [("success", JBool false); ("message", JString "req.files is not iterable")],
       w).
Proof.
  split; [|split; reflexivity].
  intros parts H. simpl. unfold post_upload_multiple. by rewrite H.
Qed.

(** ** The storage directory *)

Lemma child_name_spec (dir p : list string) (name : string) :
  child_name dir p = Some name ↔ p = dir ++ [name].
Proof.
  unfold child_name. split.
  - destruct (last p) as [n|] eqn:Hl; [|discriminate].
    apply last_Some in Hl as [p' ->]. rewrite removelast_last.
    case_decide; [|discriminate]. by intros [= <-]; subst.
  - intros ->. rewrite last_snoc, removelast_last. by rewrite decide_True.
Qed.

Lemma NoDup_omap_inj {A B} (f : A → option B) (l : list A) :
  (∀ x y z, x ∈ l → y ∈ l → f x = Some z → f y = Some z → x = y) →
  NoDup l → NoDup (omap f l).
Proof.
  intros Hinj Hnd. induction Hnd as [|x l Hx _ IH]; simpl; [constructor|].
  assert (Hl : NoDup (omap f l)).
  { apply IH. intros a b z Ha Hb. apply Hinj; by right. }
  destruct (f x) as [z|] eqn:Hfx; [|exact Hl].
  constructor; [|exact Hl].
  rewrite list_elem_of_omap. intros (y & Hy & Hfy).
  rewrite (Hinj x y z) in Hx; [done | by left | by right | done..].
Qed.

(** The entries of a directory are the names under which the disk holds
    something in it, each once. *)
Lemma entries_spec (dir : list string) (d : Disk) (name : string) :
  name ∈ entries dir d ↔ is_Some (d !! (dir ++ [name])).
Proof.
  unfold entries. rewrite list_elem_of_omap. split.
  - intros ([p n] & Hin & Hc). apply elem_of_map_to_list in Hin.
    apply child_name_spec in Hc. simpl in Hc. subst p. eauto.
  - intros [n Hn]. exists (dir ++ [name], n). split.
    + by apply elem_of_map_to_list.
    + by apply child_name_spec.
Qed.

Lemma entries_NoDup (dir : list string) (d : Disk) : NoDup (entries dir d).
Proof.
  unfold entries. apply NoDup_omap_inj; [|apply NoDup_map_to_list].
  intros [p1 n1] [p2 n2] name Hin1 Hin2 H1 H2.
  apply child_name_spec in H1, H2. simpl in *. subst.
  apply elem_of_map_to_list in Hin1, Hin2. congruence.
Qed.

Lemma includes_elem_of (arr : list string) (x : string) :
  includes arr x = true ↔ x ∈ arr.
Proof.
  unfold includes. rewrite existsb_exists. split.
  - intros (y & Hin & Heq). apply String.eqb_eq in Heq. subst.
    by apply list_elem_of_In.
  - intros Hin. exists x. split; [by apply list_elem_of_In | apply String.eqb_refl].
Qed.

(** C6: when the storage directory can be read, the listing answers with
    success and the public URL (base URL, a slash, the name) of exactly the
    names present in the directory, each once; when it cannot, the answer
    is HTTP 500 with [success: false] and the message of the error.  The
    handler changes nothing. *)
Theorem listing_reflects_directory (w : World) :
  let storage := path_join [dirname; UPLOADS_DIR cfg] in
  (∀ l, locate storage = Some l → is_directory (disk w) (segments l) = true →
     ∃ names,
       get_images cfg dirname w
       = (res_json
            [("success", JBool true);
             ("images", JStrings (List.map (fun name => UPLOADS_URL cfg +:+ "/" +:+ name)
                                           names))], w)
       ∧ NoDup names
       ∧ ∀ name, name ∈ names ↔ is_Some (disk w !! (segments l ++ [name])))
  ∧ (∀ err, disk_readdir storage (disk w) = inl err →
       get_images cfg dirname w
       = (res_status_json 500
            [("success", JBool false); ("message", JString (message err))], w)).
Proof.
  intros storage. split.
  - intros l Hl Hdir. exists (entries (segments l) (disk w)).
    unfold get_images, disk_readdir. fold storage. rewrite Hl, Hdir.
    split; [done|]. split; [apply entries_NoDup | apply entries_spec].
  - intros err H. unfold get_images. fold storage. by rewrite H.
Qed.

(** C7: the deletion route does not turn every failure into a 404.  When
    the path made of the requested name holds a NUL byte, [fs.unlink]
    throws where it is called instead of reporting to its callback; nothing
    in the handler catches that, so the request is answered by Express's
    final handler: status 500 and no JSON body, not the 404 with
    [success: false] the handler gives for every error it is told of.  The
    disk is not touched. *)
Theorem delete_nul_path_uncaught (filename : string) (w : World) :
  has_nul (path_join [dirname; UPLOADS_DIR cfg; filename]) = true →
  dispatch cfg dirname sharp (DELETE_images filename) w = (res_uncaught, w)
  ∧ status (dispatch cfg dirname sharp (DELETE_images filename) w).1 = 500%Z
  ∧ (dispatch cfg dirname sharp (DELETE_images filename) w).1
    ≠ res_status_json 404
        [("success", JBool false);
         ("message", JString "File not found or already deleted")]
  ∧ ∀ obj, body (dispatch cfg dirname sharp (DELETE_images filename) w).1 ≠ Json obj.
Proof.
  intros Hnul. simpl. unfold delete_images_route. rewrite Hnul. simpl.
  split; [done|]. split; [done|]. split; [discriminate|]. intros obj. discriminate.
Qed.

(** C8, as amended: the origin callback lets a request through exactly
    when its origin is absent, is the empty string, or is in the
    allow-list.  A request let through goes on to its route; any other is
    handed to Express as the error [Not allowed by CORS] with the world
    untouched and no route entered. *)
Theorem cors_gate (req : Request) (w : World) :
  (cors_origin cfg (origin req) = inr true
   ↔ origin req = None ∨ origin req = Some ""
     ∨ ∃ s, origin req = Some s ∧ s ∈ ALLOWED_ORIGINS cfg)
  ∧ (cors_origin cfg (origin req) = inr true →
       app cfg dirname sharp req w
       = (Responded (dispatch cfg dirname sharp (route req) w).1,
          (dispatch cfg dirname sharp (route req) w).2))
  ∧ (cors_origin cfg (origin req) ≠ inr true →
       app cfg dirname sharp req w = (NextError (new_Error "Not allowed by CORS"), w)).
Proof.
  unfold app, cors_origin. destruct (origin req) as [s|]; simpl.
  - destruct (String.eqb_spec s "") as [->|Hne]; simpl.
    + split; [|split]; [|by destruct (dispatch _ _ _ _ _)|done].
      split; auto.
    + destruct (includes (ALLOWED_ORIGINS cfg) s) eqn:Hin.
      * split; [|split]; [|by destruct (dispatch _ _ _ _ _)|done].
        split; [|done]. intros _. right; right. exists s.
        split; [done | by apply includes_elem_of].
      * split; [|split]; [|done..].
        split; [done|]. intros [?|[[= ?]|(s' & [= <-] & Hs)]]; [done..|].
        apply includes_elem_of in Hs. congruence.
  - split; [|split]; [|by destruct (dispatch _ _ _ _ _)|done].
    split; auto.
Qed.

(** ** The upload routes *)

Local Abbreviation stored_name now file :=
  (Number_toString now +:+ "-" +:+ originalname file).
Local Abbreviation output_path filename :=
  (path_join [dirname; UPLOADS_DIR cfg; filename]).
Local Abbreviation public_url filename := (UPLOADS_URL cfg +:+ "/" +:+ filename).

Lemma is_file_insert (d : Disk) (p q : list string) (data : Buffer) :
  is_file d p = true → is_file (<[q := File data]> d) p = true.
Proof.
  unfold is_file. destruct (decide (q = p)) as [->|Hne].
  - by rewrite lookup_insert_eq.
  - by rewrite lookup_insert_ne.
Qed.

Lemma is_directory_insert_file (d : Disk) (p q : list string) (data : Buffer) :
  is_directory d p = true → d !! q ≠ Some Directory →
  is_directory (<[q := File data]> d) p = true.
Proof.
  unfold is_directory. destruct p as [|s p]; [done|].
  destruct (decide (q = s :: p)) as [->|Hne].
  - intros H Hq. by destruct (d !! (s :: p)) as [[]|].
  - by rewrite lookup_insert_ne.
Qed.

(** [compressImage] by cases: the bytes to store come from the encoder
    the extension selects or are the buffer itself; an encoder error is
    thrown as it is; otherwise the bytes are written and the URL returned,
    or the write fails and an error is thrown. *)
Lemma compressImage_cases (buffer : Buffer) (filename : string) (w : World) :
  match transcoded sharp buffer filename with
  | inl err => compressImage cfg dirname sharp buffer filename w = (inl err, w)
  | inr data =>
      match disk_write (output_path filename) data (disk w) with
      | inl _ => ∃ err, compressImage cfg dirname sharp buffer filename w = (inl err, w)
      | inr d =>
          compressImage cfg dirname sharp buffer filename w
          = (inr (public_url filename), set_disk d w)
      end
  end.
Proof.
  unfold compressImage, transcoded, bind, ret, fs_writeFileSync, sharp_toFile,
    on_disk, throw.
  set (outputPath := path_join _).
  set (ext := toLowerCase _).
  destruct (includes [".jpg"; ".jpeg"] ext);
    [|destruct (String.eqb ext ".png"); [|destruct (String.eqb ext ".webp")]].
  1-3: match goal with
       | |- context [sharp_pipeline sharp ?f ?b] =>
           destruct (sharp_pipeline sharp f b) as [e|encoded]; [done|]
       end.
  all: match goal with
       | |- context [disk_write ?p ?data ?d] =>
           destruct (disk_write p data d); eauto
       end.
Qed.

(** A transcode reads no clock and removes no file. *)
Lemma compressImage_frame buffer filename w res w' :
  compressImage cfg dirname sharp buffer filename w = (res, w') →
  clock w' = clock w ∧ ticks w' = ticks w
  ∧ ∀ p, is_file (disk w) p = true → is_file (disk w') p = true.
Proof.
  intros H. apply compressImage_effect in H. destruct res as [e|url].
  - by subst.
  - destruct H as (_ & l & data & _ & ->). simpl.
    split; [done|]. split; [done|]. intros p. apply is_file_insert.
Qed.

Lemma compressImage_stored buffer filename w url w' :
  compressImage cfg dirname sharp buffer filename w = (inr url, w') →
  url = public_url filename
  ∧ ∃ l, locate (output_path filename) = Some l
         ∧ is_file (disk w') (segments l) = true.
Proof.
  intros H. apply compressImage_effect in H as (-> & l & data & Hl & ->).
  split; [done|]. exists l. split; [done|].
  unfold is_file. simpl. by rewrite lookup_insert_eq.
Qed.

(** A plain name joined to the storage directory is the entry of that
    name in it. *)
Lemma output_path_entry (name : string) (l : Location) :
  starts_with_slash dirname = true → plain_name name = true →
  locate (output_path name) = Some l →
  ∃ s, locate (path_join [dirname; UPLOADS_DIR cfg]) = Some s
       ∧ segments l = segments s ++ [name].
Proof.
  intros Habs Hplain Hl.
  destruct (path_join_child dirname [UPLOADS_DIR cfg] name Habs Hplain)
    as (s & Hs & Hchild).
  pose proof (eq_trans (eq_sym Hl) Hchild) as [= ->]. eauto.
Qed.

(** One turn of the loop. *)
Lemma upload_each_cons file rest urls w :
  upload_each cfg dirname sharp (file :: rest) urls w
  = match compressImage cfg dirname sharp (buffer file)
            (stored_name (clock w (ticks w)) file)
            {| disk := disk w; clock := clock w; ticks := S (ticks w) |} with
    | (inl err, w') => (inl err, w')
    | (inr url, w') => upload_each cfg dirname sharp rest (urls ++ [url]) w'
    end.
Proof. reflexivity. Qed.

Lemma upload_each_frame files urls w res w' :
  upload_each cfg dirname sharp files urls w = (res, w') →
  clock w' = clock w
  ∧ ∀ p, is_file (disk w) p = true → is_file (disk w') p = true.
Proof.
  revert urls w. induction files as [|file rest IH]; intros urls w.
  - by intros [= <- <-].
  - rewrite upload_each_cons.
    destruct (compressImage _ _ _ _ _ _) as [[e|url] w1] eqn:Hc;
      apply compressImage_frame in Hc as (Hclock & _ & Hfiles); simpl in *.
    + intros [= <- <-]. auto.
    + intros H. apply IH in H as (Hclock' & Hfiles'). split; [congruence | auto].
Qed.

(** A loop that runs to its end returns the URLs it was given followed by
    one per file, each built from the clock reading of its turn, and every
    file is on disk under its stored name. *)
Lemma upload_each_success files urls w out w' :
  upload_each cfg dirname sharp files urls w = (inr out, w') →
  ∃ new, out = urls ++ new ∧ length new = length files
    ∧ ∀ i file, files !! i = Some file →
        let filename := stored_name (clock w (ticks w + i)) file in
        new !! i = Some (public_url filename)
        ∧ ∃ l, locate (output_path filename) = Some l
               ∧ is_file (disk w') (segments l) = true.
Proof.
  revert urls w. induction files as [|file rest IH]; intros urls w.
  - intros [= <- <-]. exists []. rewrite app_nil_r. by split.
  - rewrite upload_each_cons.
    destruct (compressImage _ _ _ _ _ _) as [[e|url] w1] eqn:Hc; [discriminate|].
    intros Hrest.
    pose proof (compressImage_frame _ _ _ _ _ Hc) as (Hclock & Hticks & _).
    apply compressImage_stored in Hc as (-> & l0 & Hl0 & Hf0).
    pose proof (upload_each_frame _ _ _ _ _ Hrest) as (_ & Hkeep).
    apply IH in Hrest as (new & -> & Hlen & Hnew). simpl in Hclock, Hticks.
    eexists (_ :: new). split; [by rewrite <- app_assoc|].
    split; [simpl; by rewrite Hlen|].
    intros [|i] f Hf; simpl in Hf.
    + injection Hf as <-. rewrite Nat.add_0_r. simpl. eauto.
    + destruct (Hnew i f Hf) as (Hu & l & Hl & Hfile).
      rewrite Hclock, Hticks in Hu, Hl.
      replace (ticks w + S i) with (S (ticks w) + i) by lia. simpl. eauto.
Qed.

(** The loop over a list that starts with [done] is the loop over [done]
    followed, if that ran to its end, by the loop over what remains. *)
Lemma upload_each_app done rest urls w :
  upload_each cfg dirname sharp (done ++ rest) urls w
  = match upload_each cfg dirname sharp done urls w with
    | (inl err, w') => (inl err, w')
    | (inr urls', w') => upload_each cfg dirname sharp rest urls' w'
    end.
Proof.
  revert urls w. induction done as [|file done' IH]; intros urls w; [done|].
  rewrite <- app_comm_cons, !upload_each_cons.
  destruct (compressImage _ _ _ _ _ _) as [[e|url] w1]; [done | apply IH].
Qed.

(** Whether a turn fails, and how, does not depend on the URLs gathered
    before it nor on the files after it. *)
Lemma upload_each_fails_at file rest urls urls' w err w' :
  upload_each cfg dirname sharp [file] urls w = (inl err, w') →
  upload_each cfg dirname sharp (file :: rest) urls' w = (inl err, w')
  ∧ disk w' = disk w.
Proof.
  rewrite !upload_each_cons.
  destruct (compressImage _ _ _ _ _ _) as [[e|url] w1] eqn:Hc; [|discriminate].
  intros [= <- <-]. split; [done|].
  apply compressImage_effect in Hc. by subst.
Qed.

(** A transcode whose bytes are there and whose place in the storage
    directory is free of a directory stores them and returns the URL. *)
Lemma compressImage_runs (buffer : Buffer) (name : string) (data : Buffer)
    (w : World) (s : Location) :
  starts_with_slash dirname = true → plain_name name = true →
  locate (path_join [dirname; UPLOADS_DIR cfg]) = Some s →
  is_directory (disk w) (segments s) = true →
  transcoded sharp buffer name = inr data →
  disk w !! (segments s ++ [name]) ≠ Some Directory →
  compressImage cfg dirname sharp buffer name w
  = (inr (public_url name),
     set_disk (<[segments s ++ [name] := File data]> (disk w)) w).
Proof.
  intros Habs Hplain Hs Hdir Ht Hnd.
  destruct (path_join_child dirname [UPLOADS_DIR cfg] name Habs Hplain)
    as (s' & Hs' & Hl).
  rewrite Hs in Hs'. injection Hs' as <-.
  change (dirname :: [UPLOADS_DIR cfg] ++ [name])
    with [dirname; UPLOADS_DIR cfg; name] in Hl.
  pose proof (compressImage_cases buffer name w) as C. rewrite Ht in C.
  assert (Hw : disk_write (output_path name) data (disk w)
               = inr (<[segments s ++ [name] := File data]> (disk w))).
  { apply disk_write_spec. eexists. split; [exact Hl|]. simpl.
    split; [done|]. split; [by destruct (segments s)|].
    by rewrite removelast_last. }
  by rewrite Hw in C.
Qed.

(** A loop in which every turn finds its bytes and a free place runs to
    its end and returns one URL per file, in order. *)
Lemma upload_each_runs (files : list UploadedFile) (urls : list string)
    (w : World) (s : Location) :
  starts_with_slash dirname = true →
  locate (path_join [dirname; UPLOADS_DIR cfg]) = Some s →
  is_directory (disk w) (segments s) = true →
  (∀ i file, files !! i = Some file →
     let filename := stored_name (clock w (ticks w + i)) file in
     no_slash (originalname file) = true
     ∧ (∃ data, transcoded sharp (buffer file) filename = inr data)
     ∧ disk w !! (segments s ++ [filename]) ≠ Some Directory) →
  ∃ w', upload_each cfg dirname sharp files urls w
        = (inr (urls ++ imap (fun i file =>
                                public_url (stored_name (clock w (ticks w + i)) file))
                             files), w').
Proof.
  intros Habs Hs. revert urls w.
  induction files as [|file rest IH]; intros urls w Hdir Hall.
  - exists w. simpl. by rewrite app_nil_r.
  - destruct (Hall 0 file eq_refl) as (Horig & [data Ht] & Hnd).
    rewrite Nat.add_0_r in Ht, Hnd.
    rewrite upload_each_cons.
    rewrite (compressImage_runs _ _ data
               {| disk := disk w; clock := clock w; ticks := S (ticks w) |} s
               Habs (stored_name_plain _ _ Horig) Hs Hdir Ht Hnd).
    set (w1 := set_disk _ _).
    destruct (IH (urls ++ [public_url (stored_name (clock w (ticks w)) file)]) w1)
      as [w' Hrest].
    + by apply is_directory_insert_file.
    + intros i f Hf. destruct (Hall (S i) f Hf) as (Ho & Hd & Hn).
      assert (E : ticks w1 + i = ticks w + S i) by (subst w1; simpl; lia).
      change (clock w1) with (clock w). rewrite E.
      split; [done|]. split; [done|].
      subst w1. simpl.
      match goal with
      | |- <[?k := _]> _ !! ?k' ≠ _ =>
          destruct (decide (k = k')) as [->|Hne];
          [by rewrite lookup_insert_eq | by rewrite lookup_insert_ne]
      end.
    + exists w'. rewrite Hrest, imap_cons, Nat.add_0_r, <- app_assoc.
      do 3 f_equal. simpl. f_equal.
      apply imap_ext. intros i f _. simpl.
      by replace (ticks w + S i) with (S (ticks w + i)) by lia.
Qed.

(** The single route once the intake has accepted [file]: one reading of
    the clock, one transcode, and the answer made of its result. *)
Lemma post_upload_single_run (parts : list UploadedFile) (file : UploadedFile)
    (w : World) :
  upload_single cfg "file" parts = inr (Some file) →
  post_upload_single cfg dirname sharp parts w
  = match compressImage cfg dirname sharp (buffer file)
            (stored_name (clock w (ticks w)) file)
            {| disk := disk w; clock := clock w; ticks := S (ticks w) |} with
    | (inl err, w') =>
        (res_status_json 500
           [("success", JBool false); ("message", JString (message err))], w')
    | (inr url, w') =>
        (res_json [("success", JBool true); ("url", JString url)], w')
    end.
Proof.
  intros H. unfold post_upload_single. rewrite H.
  unfold store_file, try_catch_500, bind, Date_now, property_of. unfold ret at 1.
  by destruct (compressImage _ _ _ _ _ _) as [[e|url] w'].
Qed.

(** The multiple route once the intake has accepted the parts. *)
Lemma post_upload_multiple_run (parts : list UploadedFile) (w : World) :
  upload_array cfg "files" (MAX_FILES cfg) parts = inr parts →
  post_upload_multiple cfg dirname sharp parts w
  = match upload_each cfg dirname sharp parts [] w with
    | (inl err, w') =>
        (res_status_json 500
           [("success", JBool false); ("message", JString (message err))], w')
    | (inr urls, w') =>
        (res_json [("success", JBool true); ("urls", JStrings urls)], w')
    end.
Proof.
  intros H. unfold post_upload_multiple. rewrite H, store_files_Some.
  unfold try_catch_500, bind.
  by destruct (upload_each _ _ _ _ _ _) as [[e|urls] w'].
Qed.

(** C2: on either upload route a file is stored under the reading of the
    millisecond clock taken for it, a hyphen, and the original name as the
    client sent it, and the client is given the public base URL, a slash,
    and that stored name.  On the multiple route the clock is read once per
    file, in order.  The original name is used as it is: nothing is removed
    from it or escaped.  When it has no separator (and the working
    directory is given by its absolute path) the file is the entry of the
    storage directory with the stored name.  Both ways round: an upload
    answered with 200 has done this, and an upload that got through the
    intake, whose files the encoder takes and whose stored names are free
    in the storage directory, does it and is answered with 200. *)
Theorem upload_naming_policy :
  (∀ parts w r w',
     post_upload_single cfg dirname sharp parts w = (r, w') → status r = 200%Z →
     ∃ file, parts = [file]
       ∧ let filename := stored_name (clock w (ticks w)) file in
         r = res_json [("success", JBool true);
                       ("url", JString (public_url filename))]
         ∧ ∃ l, locate (output_path filename) = Some l
                ∧ is_file (disk w') (segments l) = true
                ∧ (starts_with_slash dirname = true →
                   no_slash (originalname file) = true →
                   ∃ s, locate (path_join [dirname; UPLOADS_DIR cfg]) = Some s
                        ∧ segments l = segments s ++ [filename]))
  ∧ (∀ parts w r w',
       post_upload_multiple cfg dirname sharp parts w = (r, w') → status r = 200%Z →
       ∃ urls, r = res_json [("success", JBool true); ("urls", JStrings urls)]
         ∧ length urls = length parts
         ∧ ∀ i file, parts !! i = Some file →
             let filename := stored_name (clock w (ticks w + i)) file in
             urls !! i = Some (public_url filename)
             ∧ ∃ l, locate (output_path filename) = Some l
                    ∧ is_file (disk w') (segments l) = true
                    ∧ (starts_with_slash dirname = true →
                       no_slash (originalname file) = true →
                       ∃ s, locate (path_join [dirname; UPLOADS_DIR cfg]) = Some s
                            ∧ segments l = segments s ++ [filename]))
  ∧ (∀ parts file data w s,
       starts_with_slash dirname = true →
       locate (path_join [dirname; UPLOADS_DIR cfg]) = Some s →
       is_directory (disk w) (segments s) = true →
       upload_single cfg "file" parts = inr (Some file) →
       let filename := stored_name (clock w (ticks w)) file in
       no_slash (originalname file) = true →
       has_nul (output_path filename) = false →
       transcoded sharp (buffer file) filename = inr data →
       disk w !! (segments s ++ [filename]) ≠ Some Directory →
       ∃ w', post_upload_single cfg dirname sharp parts w
             = (res_json [("success", JBool true);
                          ("url", JString (public_url filename))], w')
             ∧ disk w' = <[segments s ++ [filename] := File data]> (disk w))
  ∧ (∀ parts w s,
       starts_with_slash dirname = true →
       locate (path_join [dirname; UPLOADS_DIR cfg]) = Some s →
       is_directory (disk w) (segments s) = true →
       upload_array cfg "files" (MAX_FILES cfg) parts = inr parts →
       (∀ i file, parts !! i = Some file →
          let filename := stored_name (clock w (ticks w + i)) file in
          no_slash (originalname file) = true
          ∧ has_nul (output_path filename) = false
          ∧ (∃ data, transcoded sharp (buffer file) filename = inr data)
          ∧ disk w !! (segments s ++ [filename]) ≠ Some Directory) →
       ∃ w', post_upload_multiple cfg dirname sharp parts w
             = (res_json
                  [("success", JBool true);
                   ("urls",
                    JStrings (imap (fun i file =>
                                      public_url (stored_name (clock w (ticks w + i))
                                                              file)) parts))], w')
             ∧ ∀ i file, parts !! i = Some file →
                 is_file (disk w')
                   (segments s ++ [stored_name (clock w (ticks w + i)) file]) = true).
Proof.
  split; [|split; [|split]].
  - intros parts w r w'. unfold post_upload_single, upload_single.
    destruct (multer_intake cfg "file" 1 parts) as [err|files] eqn:Hin.
    { by intros [= <- <-]. }
    apply multer_intake_accepts in Hin as (-> & Hlen & _).
    unfold store_file, try_catch_500, bind, Date_now.
    destruct parts as [|file [|file' rest]]; simpl in *; [by intros [= <- <-]| |lia].
    unfold ret at 1.
    destruct (compressImage _ _ _ _ _ _) as [[e|url] w1] eqn:Hc.
    { by intros [= <- <-]. }
    intros [= <- <-] _. exists file. split; [done|].
    apply compressImage_stored in Hc as (-> & l & Hl & Hf).
    split; [done|]. exists l. split; [done|]. split; [done|].
    intros Habs Horig. by apply (output_path_entry _ _ Habs (stored_name_plain _ _ Horig)).
  - intros parts w r w'. unfold post_upload_multiple, upload_array.
    destruct (multer_intake cfg "files" (MAX_FILES cfg) parts) as [err|files] eqn:Hin.
    { by intros [= <- <-]. }
    apply multer_intake_accepts in Hin as (-> & _ & _).
    rewrite store_files_Some. unfold try_catch_500, bind.
    destruct (upload_each _ _ _ _ _ _) as [[e|urls] w1] eqn:He.
    { by intros [= <- <-]. }
    intros [= <- <-] _. apply upload_each_success in He as (new & -> & Hlen & Hnew).
    exists new. split; [done|]. split; [done|].
    intros i file Hi. destruct (Hnew i file Hi) as (Hu & l & Hl & Hf).
    split; [done|]. exists l. split; [done|]. split; [done|].
    intros Habs Horig. by apply (output_path_entry _ _ Habs (stored_name_plain _ _ Horig)).
  - intros parts file data w s Habs Hs Hdir Hin filename Horig _ Ht Hnd.
    rewrite (post_upload_single_run parts file w Hin).
    rewrite (compressImage_runs _ _ data
               {| disk := disk w; clock := clock w; ticks := S (ticks w) |} s
               Habs (stored_name_plain _ _ Horig) Hs Hdir Ht Hnd).
    eauto.
  - intros parts w s Habs Hs Hdir Hin Hall.
    rewrite (post_upload_multiple_run parts w Hin).
    destruct (upload_each_runs parts [] w s Habs Hs Hdir) as [w' He].
    { intros i file Hi. destruct (Hall i file Hi) as (? & _ & ? & ?). auto. }
    rewrite He. exists w'. split; [done|].
    intros i file Hi. apply upload_each_success in He as (new & _ & _ & Hnew).
    destruct (Hnew i file Hi) as (_ & l & Hl & Hf).
    destruct (Hall i file Hi) as (Horig & _).
    destruct (output_path_entry _ _ Habs (stored_name_plain _ _ Horig) Hl)
      as (s' & Hs' & Hseg).
    rewrite Hs in Hs'. injection Hs' as <-. by rewrite <- Hseg.
Qed.

(** C5: when a file of a batch fails to transcode or to be written, after
    the files before it were stored, the answer to the whole batch is that
    file's error (HTTP 500, [success: false], its message) whatever
    follows it in the batch, no URL is returned, and the files stored
    before it are still on disk: the disk is as the last successful turn
    left it. *)
Theorem batch_aborts_at_first_failure
    (stored : list UploadedFile) (file : UploadedFile) (rest : list UploadedFile)
    (w w1 w2 : World) (urls : list string) (err : Error) :
  upload_array cfg "files" (MAX_FILES cfg) (stored ++ file :: rest)
  = inr (stored ++ file :: rest) →
  upload_each cfg dirname sharp stored [] w = (inr urls, w1) →
  upload_each cfg dirname sharp [file] [] w1 = (inl err, w2) →
  post_upload_multiple cfg dirname sharp (stored ++ file :: rest) w
  = (res_status_json 500
       [("success", JBool false); ("message", JString (message err))], w2)
  ∧ disk w2 = disk w1
  ∧ ∀ i f, stored !! i = Some f →
      ∃ l, locate (output_path (stored_name (clock w (ticks w + i)) f)) = Some l
           ∧ is_file (disk w2) (segments l) = true.
Proof.
  intros Hin Hstored Hfail.
  destruct (upload_each_fails_at file rest [] urls w1 err w2 Hfail) as (Hf & Hdisk).
  split; [|split; [done|]].
  - unfold post_upload_multiple. rewrite Hin.
    rewrite ?store_files_Some; unfold store_file, try_catch_500, bind. by rewrite upload_each_app, Hstored, Hf.
  - intros i f Hi. apply upload_each_success in Hstored as (new & _ & _ & Hnew).
    destruct (Hnew i f Hi) as (_ & l & Hl & Hfile). rewrite Hdisk. eauto.
Qed.

(** * Further properties of the routes *)

(** ** How the routes compose *)

(** A write that succeeds found the parent directory in place and no
    directory at the path. *)
Lemma disk_write_inv (path : string) (data : Buffer) (d d' : Disk) :
  disk_write path data d = inr d' →
  ∃ l, locate path = Some l ∧ trailing l = false
       ∧ is_directory d (removelast (segments l)) = true
       ∧ d !! segments l ≠ Some Directory
       ∧ d' = <[segments l := File data]> d.
Proof.
  unfold disk_write. destruct (locate path) as [l|]; [|discriminate].
  destruct (trailing l) eqn:Ht; [discriminate|].
  destruct (segments l) as [|s p] eqn:Hs; [discriminate|].
  unfold parent_error.
  destruct (is_directory d (removelast (s :: p))) eqn:Hdir;
    [|destruct (is_file d (removelast (s :: p))); discriminate].
  intros H. exists l. rewrite Hs. split; [done|]. split; [done|]. split; [done|].
  destruct (d !! (s :: p)) as [[]|]; split; congruence.
Qed.

Lemma on_disk_write_success (path : string) (data : Buffer) (w w1 : World) :
  on_disk (disk_write path data) w = (inr tt, w1) →
  ∃ l, locate path = Some l ∧ trailing l = false
       ∧ is_directory (disk w) (removelast (segments l)) = true
       ∧ disk w !! segments l ≠ Some Directory
       ∧ w1 = set_disk (<[segments l := File data]> (disk w)) w.
Proof.
  unfold on_disk. destruct (disk_write path data (disk w)) as [e|d] eqn:Hw;
    [discriminate|].
  intros [= <-]. apply disk_write_inv in Hw as (l & Hl & Ht & Hd & Hn & ->).
  eauto 10.
Qed.

(** What a successful transcode found and what it left. *)
Lemma compressImage_written buffer filename w url w' :
  compressImage cfg dirname sharp buffer filename w = (inr url, w') →
  url = public_url filename
  ∧ ∃ l data, locate (output_path filename) = Some l ∧ trailing l = false
      ∧ is_directory (disk w) (removelast (segments l)) = true
      ∧ disk w !! segments l ≠ Some Directory
      ∧ w' = set_disk (<[segments l := File data]> (disk w)) w.
Proof.
  pose proof (compressImage_cases buffer filename w) as H.
  destruct (transcoded sharp buffer filename) as [err|data]; [by rewrite H|].
  destruct (disk_write (output_path filename) data (disk w)) as [e|d] eqn:Hw.
  { destruct H as [err ->]. discriminate. }
  rewrite H. intros [= <- <-]. split; [done|].
  apply disk_write_inv in Hw as (l & Hl & Ht & Hd & Hn & ->). eauto 10.
Qed.

Lemma is_directory_delete_file (d : Disk) (p q : list string) :
  is_directory d p = true → is_file d q = true →
  is_directory (delete q d) p = true.
Proof.
  unfold is_directory, is_file. destruct p as [|s p]; [done|].
  destruct (decide (q = s :: p)) as [->|Hne].
  - by destruct (d !! (s :: p)) as [[]|].
  - by rewrite lookup_delete_ne.
Qed.

(** The listing of a storage directory that can be read. *)
Lemma get_images_ok (w : World) (s : Location) :
  locate (path_join [dirname; UPLOADS_DIR cfg]) = Some s →
  is_directory (disk w) (segments s) = true →
  get_images cfg dirname w
  = (res_json
       [("success", JBool true);
        ("images", JStrings (List.map (fun name => public_url name)
                                      (entries (segments s) (disk w))))], w).
Proof.
  intros Hs Hdir. unfold get_images, disk_readdir. by rewrite Hs, Hdir.
Qed.

Lemma public_url_inj (a b : string) : public_url a = public_url b → a = b.
Proof.
  intros H. apply String.app_inj in H. by apply (String.app_inj "/") in H.
Qed.

(** A successful removal found a regular file and took it away. *)
Lemma disk_unlink_inv (path : string) (d d' : Disk) :
  disk_unlink path d = inr d' →
  ∃ l, locate path = Some l ∧ trailing l = false
       ∧ is_file d (segments l) = true ∧ d' = delete (segments l) d.
Proof.
  unfold disk_unlink, is_file. destruct (locate path) as [l|]; [|discriminate].
  destruct (d !! segments l) as [[content|]|] eqn:Hd.
  - destruct (trailing l) eqn:Ht; [discriminate|]. intros [= <-].
    exists l. by rewrite Hd.
  - discriminate.
  - by destruct (is_directory d (segments l)).
Qed.

Lemma delete_image_success filename w r w' :
  delete_image cfg dirname filename w = (r, w') → status r = 200%Z →
  ∃ l, locate (output_path filename) = Some l ∧ trailing l = false
       ∧ is_file (disk w) (segments l) = true
       ∧ w' = set_disk (delete (segments l) (disk w)) w.
Proof.
  unfold delete_image.
  destruct (disk_unlink _ (disk w)) as [e|d] eqn:Hu; [by intros [= <- <-]|].
  intros [= <- <-] _. apply disk_unlink_inv in Hu as (l & Hl & Ht & Hf & ->). eauto.
Qed.

(** X1: a single upload that succeeds is visible at once: the listing
    that follows succeeds and contains the URL the upload returned (the
    working directory given by its absolute path, the original name without
    separator). *)
Theorem uploaded_file_is_listed (parts : list UploadedFile) (w w' : World) (r : Response) :
  starts_with_slash dirname = true →
  Forall (fun file => no_slash (originalname file) = true) parts →
  post_upload_single cfg dirname sharp parts w = (r, w') →
  status r = 200%Z →
  ∃ url images,
    r = res_json [("success", JBool true); ("url", JString url)]
    ∧ get_images cfg dirname w'
      = (res_json [("success", JBool true); ("images", JStrings images)], w')
    ∧ url ∈ images.
Proof.
  intros Habs Hnames. unfold post_upload_single, upload_single.
  destruct (multer_intake cfg "file" 1 parts) as [err|files] eqn:Hin.
  { by intros [= <- <-]. }
  apply multer_intake_accepts in Hin as (-> & Hlen & _).
  rewrite ?store_files_Some; unfold store_file, try_catch_500, bind, Date_now.
  destruct parts as [|file [|file' rest]]; simpl in *; [by intros [= <- <-]| |lia].
  unfold ret at 1.
  destruct (compressImage _ _ _ _ _ _) as [[e|url] w1] eqn:Hc.
  { by intros [= <- <-]. }
  intros [= <- <-] _.
  apply compressImage_written in Hc
    as (-> & l & data & Hl & _ & Hdir & Hnd & ->). simpl in Hdir, Hnd.
  inversion Hnames as [|? ? Horig _]; subst.
  destruct (output_path_entry _ _ Habs (stored_name_plain (clock w (ticks w)) _ Horig) Hl)
    as (s & Hs & Hseg).
  rewrite Hseg in *. rewrite removelast_last in Hdir.
  eexists _, _. split; [done|]. split.
  - apply (get_images_ok _ s Hs). simpl. by apply is_directory_insert_file.
  - apply list_elem_of_In, (in_map (fun name => public_url name)).
    apply list_elem_of_In, entries_spec. simpl. by rewrite lookup_insert_eq.
Qed.

(** X2: a deletion that succeeds is visible at once: where the listing
    succeeded before, the listing that follows succeeds and shows exactly
    the names it showed before except the deleted one, whose URL is gone
    (the working directory given by its absolute path, the name plain). *)
Theorem deleted_file_is_unlisted (filename : string) (w w' : World) (r : Response)
    (s : Location) :
  starts_with_slash dirname = true →
  plain_name filename = true →
  locate (path_join [dirname; UPLOADS_DIR cfg]) = Some s →
  is_directory (disk w) (segments s) = true →
  delete_image cfg dirname filename w = (r, w') →
  status r = 200%Z →
  ∃ names,
    get_images cfg dirname w'
    = (res_json [("success", JBool true);
                 ("images", JStrings (List.map (fun name => public_url name) names))], w')
    ∧ (∀ name, name ∈ names
               ↔ name ≠ filename ∧ is_Some (disk w !! (segments s ++ [name])))
    ∧ public_url filename ∉ List.map (fun name => public_url name) names.
Proof.
  intros Habs Hplain Hs Hdir Hdel Hstatus.
  apply delete_image_success in Hdel as (l & Hl & _ & Hf & ->); [|done].
  destruct (output_path_entry _ _ Habs Hplain Hl) as (s' & Hs' & Hseg).
  rewrite Hs in Hs'. injection Hs' as <-. rewrite Hseg in *.
  assert (Hnames : ∀ name,
    name ∈ entries (segments s) (delete (segments s ++ [filename]) (disk w))
    ↔ name ≠ filename ∧ is_Some (disk w !! (segments s ++ [name]))).
  { intros name. rewrite entries_spec.
    destruct (decide (name = filename)) as [->|Hne].
    - rewrite lookup_delete_eq. split; [by intros [? [=]] | by intros [? _]].
    - rewrite lookup_delete_ne; [tauto|]. intros E. by apply app_inj_tail in E as [_ ?]. }
  exists (entries (segments s) (delete (segments s ++ [filename]) (disk w))).
  split; [|split; [exact Hnames|]].
  - rewrite (get_images_ok (set_disk (delete (segments s ++ [filename]) (disk w)) w)
               s Hs); [reflexivity|].
    simpl. by apply is_directory_delete_file.
  - intros Hin. apply list_elem_of_In, in_map_iff in Hin as (name & Hu & Hin).
    apply public_url_inj in Hu as ->. apply list_elem_of_In, Hnames in Hin.
    by destruct Hin.
Qed.

(** X3: deleting is not repeatable: after a deletion that succeeded, the
    same request is answered with HTTP 404 and changes nothing. *)
Theorem delete_twice_not_found (filename : string) (w w' : World) (r : Response) :
  delete_image cfg dirname filename w = (r, w') →
  status r = 200%Z →
  delete_image cfg dirname filename w'
  = (res_status_json 404
       [("success", JBool false);
        ("message", JString "File not found or already deleted")], w').
Proof.
  intros Hdel Hstatus.
  apply delete_image_success in Hdel as (l & Hl & _ & _ & ->); [|done].
  unfold delete_image, disk_unlink. rewrite Hl. simpl.
  rewrite lookup_delete_eq. by destruct (is_directory _ _).
Qed.

(** A single upload answered with 200 is one accepted part, one reading of
    the clock and one successful transcode. *)
Lemma post_upload_single_success (parts : list UploadedFile) (w w' : World)
    (r : Response) :
  post_upload_single cfg dirname sharp parts w = (r, w') → status r = 200%Z →
  ∃ file, parts = [file]
    ∧ upload_single cfg "file" [file] = inr (Some file)
    ∧ compressImage cfg dirname sharp (buffer file)
        (stored_name (clock w (ticks w)) file)
        {| disk := disk w; clock := clock w; ticks := S (ticks w) |}
      = (inr (public_url (stored_name (clock w (ticks w)) file)), w')
    ∧ r = res_json [("success", JBool true);
                    ("url", JString (public_url (stored_name (clock w (ticks w)) file)))].
Proof.
  intros H Hstatus. unfold post_upload_single in H.
  destruct (upload_single cfg "file" parts) as [err|req_file] eqn:Hup.
  { injection H as <- <-. discriminate. }
  assert (Hparts : ∃ file, parts = [file] ∧ req_file = Some file).
  { unfold upload_single in Hup.
    destruct (multer_intake cfg "file" 1 parts) as [err|files] eqn:Hin; [done|].
    injection Hup as <-.
    apply multer_intake_accepts in Hin as (-> & Hlen & _).
    destruct parts as [|file [|file' rest]]; simpl in *; [|eauto|lia].
    rewrite ?store_files_Some; unfold store_file, try_catch_500, bind, Date_now in H. simpl in H.
    injection H as <- <-. discriminate. }
  destruct Hparts as (file & -> & ->). exists file. do 2 (split; [done|]).
  rewrite ?store_files_Some; unfold store_file, try_catch_500, bind, Date_now in H. simpl in H. unfold ret at 1 in H.
  destruct (compressImage _ _ _ _ _ _) as [[e|url] w1] eqn:Hc.
  { injection H as <- <-. discriminate. }
  injection H as <- <-.
  by pose proof (compressImage_written _ _ _ _ _ Hc) as (-> & _).
Qed.

(** X4: stored names are not reserved.  Take two single uploads of the
    same original name, each of which succeeds when made alone.  Made one
    after the other with the same value read off the clock, the second
    succeeds too, with the URL of the first, and leaves the disk as if only
    the second had been made: under the stored name is the second file's
    content, the first's is gone. *)
Theorem same_name_upload_overwrites (f1 f2 : UploadedFile) (w w1 : World)
    (r1 : Response) :
  originalname f1 = originalname f2 →
  clock w (S (ticks w)) = clock w (ticks w) →
  post_upload_single cfg dirname sharp [f1] w = (r1, w1) → status r1 = 200%Z →
  status (post_upload_single cfg dirname sharp [f2] w).1 = 200%Z →
  (post_upload_single cfg dirname sharp [f2] w1).1 = r1
  ∧ disk (post_upload_single cfg dirname sharp [f2] w1).2
    = disk (post_upload_single cfg dirname sharp [f2] w).2
  ∧ ∃ l data,
      locate (output_path (stored_name (clock w (ticks w)) f1)) = Some l
      ∧ transcoded sharp (buffer f2) (stored_name (clock w (ticks w)) f1) = inr data
      ∧ disk (post_upload_single cfg dirname sharp [f2] w1).2 !! segments l
        = Some (File data).
Proof.
  intros Hname Hclock H1 Hs1 Hs2.
  apply post_upload_single_success in H1 as (f & [= <-] & _ & Hc1 & ->); [|done].
  destruct (post_upload_single_success [f2] w _ _ (surjective_pairing _) Hs2)
    as (f & [= <-] & Hin2 & Hc2 & Hr2).
  rewrite <- Hname in Hc2.
  set (name := stored_name (clock w (ticks w)) f1) in *.
  set (wt := {| disk := disk w; clock := clock w; ticks := S (ticks w) |}) in *.
  pose proof (compressImage_cases (buffer f1) name wt) as C1.
  destruct (transcoded sharp (buffer f1) name) as [e|data1];
    [rewrite C1 in Hc1; discriminate|].
  destruct (disk_write (output_path name) data1 (disk wt)) as [e|d1] eqn:Hw1;
    [destruct C1 as [err C1]; rewrite C1 in Hc1; discriminate|].
  rewrite C1 in Hc1. injection Hc1 as <-.
  pose proof (compressImage_cases (buffer f2) name wt) as C2.
  destruct (transcoded sharp (buffer f2) name) as [e|data2] eqn:Ht2;
    [rewrite C2 in Hc2; discriminate|].
  destruct (disk_write (output_path name) data2 (disk wt)) as [e|d2] eqn:Hw2;
    [destruct C2 as [err C2]; rewrite C2 in Hc2; discriminate|].
  rewrite C2 in Hc2. apply (f_equal snd) in Hc2. simpl in Hc2.
  apply disk_write_spec in Hw1 as (l & Hl & Ht & Hne & Hd & Hnd & ->).
  apply disk_write_spec in Hw2 as (l' & Hl' & _ & _ & _ & _ & ->).
  rewrite Hl in Hl'. injection Hl' as <-. simpl in Hd, Hnd.
  rewrite (post_upload_single_run [f2] f2 _ Hin2). simpl.
  rewrite Hclock, <- Hname. fold name.
  set (wt' := {| disk := <[segments l := File data1]> (disk w); clock := clock w;
                 ticks := S (S (ticks w)) |}).
  pose proof (compressImage_cases (buffer f2) name wt') as C3.
  rewrite Ht2 in C3.
  assert (Hw3 : disk_write (output_path name) data2 (disk wt')
                = inr (<[segments l := File data2]> (disk wt'))).
  { apply disk_write_spec. exists l. simpl. do 3 (split; [done|]). split; [|split].
    - by apply is_directory_insert_file.
    - by rewrite lookup_insert_eq.
    - done. }
  rewrite Hw3 in C3. rewrite C3. simpl. split; [done|]. split.
  - rewrite <- Hc2. simpl. by rewrite insert_insert_eq.
  - exists l, data2. split; [done|]. split; [done|]. by rewrite lookup_insert_eq.
Qed.

(** ** Names and paths *)

(** In an absolute path a [..] segment drops the segment before it. *)
Lemma normalize_segments_dotdot (stack segs : list string) :
  Forall (fun s => s ≠ "..") stack →
  normalize_segments false stack (segs ++ [".."])
  = removelast (normalize_segments false stack segs).
Proof.
  revert stack. induction segs as [|s rest IH]; intros stack Hst.
  - destruct stack as [|top below]; [reflexivity|].
    inversion Hst as [|? ? Htop _]; subst. simpl.
    destruct (String.eqb_spec top ".."); [done|].
    by rewrite removelast_last.
  - simpl. destruct (String.eqb s "" || String.eqb s "."); [by apply IH|].
    destruct (String.eqb_spec s "..") as [->|Hs].
    + destruct stack as [|top below]; [by apply IH|].
      inversion Hst as [|? ? Htop Hbelow]; subst.
      destruct (String.eqb_spec top ".."); [done | by apply IH].
    + apply IH. by constructor.
Qed.

(** The segments the kernel finds in the join of an absolute directory
    path with further arguments the last of which is not empty. *)
Lemma path_join_segments (dir : string) (rest : list string) (final : string) :
  starts_with_slash dir = true → nonempty final = true →
  let joined := join_with "/" (dir :: List.filter nonempty rest) in
  ∃ t t',
    locate (path_join (dir :: rest))
    = Some {| segments := normalize_segments false [] (split_on "/"%char joined);
              trailing := t |}
    ∧ locate (path_join (dir :: rest ++ [final]))
      = Some {| segments := normalize_segments false []
                              (split_on "/"%char joined ++ split_on "/"%char final);
                trailing := t' |}
    ∧ (normalize_segments false []
         (split_on "/"%char joined ++ split_on "/"%char final) ≠ [] →
       t' = ends_with_slash final).
Proof.
  intros Habs Hne joined.
  assert (Hdir : nonempty dir = true) by (by destruct dir).
  unfold path_join.
  change (List.filter nonempty (dir :: rest ++ [final]))
    with (if nonempty dir then dir :: List.filter nonempty (rest ++ [final])
          else List.filter nonempty (rest ++ [final])).
  change (List.filter nonempty (dir :: rest))
    with (if nonempty dir then dir :: List.filter nonempty rest
          else List.filter nonempty rest).
  rewrite Hdir, List.filter_app. simpl (List.filter nonempty [final]). rewrite Hne.
  change (dir :: List.filter nonempty rest ++ [final])
    with ((dir :: List.filter nonempty rest) ++ [final]).
  rewrite join_with_snoc by done. fold joined.
  assert (Hj : joined ≠ "" ∧ starts_with_slash joined = true).
  { subst joined. destruct (List.filter nonempty rest) as [|b r].
    - simpl. split; [by apply nonempty_spec | done].
    - change (join_with "/" (dir :: b :: r))
        with (dir +:+ "/" +:+ join_with "/" (b :: r)).
      apply nonempty_spec in Hdir. split; [by destruct dir|].
      by rewrite starts_with_slash_append. }
  destruct Hj as [Hj Hjs].
  destruct (String.eqb_spec joined ""); [done|].
  destruct (String.eqb_spec (joined +:+ "/" +:+ final) "") as [E|_];
    [by destruct joined|].
  destruct (locate_normalize joined Hjs) as (t & Hl & _).
  destruct (locate_normalize (joined +:+ "/" +:+ final)) as (t' & Hl' & Ht').
  { by rewrite starts_with_slash_append. }
  change (joined +:+ "/" +:+ final) with (joined +:+ String "/"%char final) in *.
  rewrite split_on_app_sep in Hl', Ht'.
  exists t, t'. split; [done|]. split; [done|].
  intros Hnil. rewrite (Ht' Hnil).
  change (joined +:+ String "/"%char final) with (joined +:+ ("/" +:+ final)).
  rewrite ends_with_slash_append by done.
  by rewrite ends_with_slash_append by (by apply nonempty_spec).
Qed.

(** [../name] joined to a directory names the entry [name] of the
    directory above it. *)
Lemma path_join_sibling (dir : string) (rest : list string) (name : string) :
  starts_with_slash dir = true → plain_name name = true →
  ∃ l, locate (path_join (dir :: rest)) = Some l
       ∧ locate (path_join (dir :: rest ++ ["../" +:+ name]))
         = Some {| segments := removelast (segments l) ++ [name];
                   trailing := false |}.
Proof.
  intros Habs Hplain.
  assert (Hname : nonempty name = true ∧ no_slash name = true).
  { unfold plain_name in Hplain. rewrite !andb_true_iff in Hplain. tauto. }
  destruct Hname as [Hne Hns].
  destruct (path_join_segments dir rest ("../" +:+ name) Habs eq_refl)
    as (t & t' & Hl & Hl' & Ht').
  change ("../" +:+ name) with (".." +:+ String "/"%char name) in Hl', Ht'.
  rewrite split_on_app_sep, (split_on_no_slash name) in Hl', Ht' by done.
  change (split_on "/"%char "..") with [".."] in Hl', Ht'.
  rewrite (app_assoc _ [".."] [name]) in Hl', Ht'.
  rewrite normalize_segments_snoc in Hl', Ht' by done.
  rewrite normalize_segments_dotdot in Hl', Ht' by constructor.
  eexists. split; [exact Hl|]. simpl segments.
  change ("../" +:+ name) with (".." +:+ String "/"%char name).
  rewrite Hl'. f_equal. f_equal.
  rewrite Ht'; [|by destruct (removelast _)].
  change (".." +:+ String "/"%char name) with ("../" +:+ name).
  rewrite ends_with_slash_append by (by apply nonempty_spec).
  by apply ends_with_slash_no_slash.
Qed.

(** X5: the file name of a deletion is not confined to the storage
    directory.  A request for [../name] removes the regular file [name] of
    the directory above the storage directory, which is no entry of the
    storage directory, and is answered with success. *)
Theorem delete_reaches_outside_storage (name : string) (w : World) (s : Location) :
  starts_with_slash dirname = true →
  plain_name name = true →
  locate (path_join [dirname; UPLOADS_DIR cfg]) = Some s →
  segments s ≠ [] →
  is_file (disk w) (removelast (segments s) ++ [name]) = true →
  delete_image cfg dirname ("../" +:+ name) w
  = (res_json [("success", JBool true); ("message", JString "Deleted successfully")],
     set_disk (delete (removelast (segments s) ++ [name]) (disk w)) w)
  ∧ ∀ entry, removelast (segments s) ++ [name] ≠ segments s ++ [entry].
Proof.
  intros Habs Hplain Hs Hne Hfile.
  destruct (path_join_sibling dirname [UPLOADS_DIR cfg] name Habs Hplain)
    as (s' & Hs' & Hl).
  rewrite Hs in Hs'. injection Hs' as <-. split.
  - unfold delete_image, disk_unlink.
    change [dirname; UPLOADS_DIR cfg; "../" +:+ name]
      with (dirname :: [UPLOADS_DIR cfg] ++ ["../" +:+ name]).
    rewrite Hl. simpl. unfold is_file in Hfile.
    by destruct (disk w !! (removelast (segments s) ++ [name])) as [[]|].
  - intros entry E. apply (f_equal length) in E.
    rewrite !length_app in E. simpl in E.
    destruct (segments s) as [|x r] using rev_ind; [done|].
    rewrite removelast_last, length_app in E. simpl in E. lia.
Qed.

Lemma Number_toString_inj (a b : Z) :
  Number_toString a = Number_toString b → a = b.
Proof.
  unfold Number_toString. intros H. apply DecimalZ.to_int_inj.
  assert (Hnil : ∀ z, Z.to_int z ≠ Decimal.Pos Decimal.Nil
                      ∧ Z.to_int z ≠ Decimal.Neg Decimal.Nil).
  { intros [|p|p]; simpl; split; try discriminate;
      intros [= E]; by apply DecimalPos.Unsigned.to_uint_nonnil in E. }
  destruct (Hnil a) as [Ha1 Ha2]. destruct (Hnil b) as [Hb1 Hb2].
  pose proof (NilZero.isi _ Ha1 Ha2) as Ea.
  pose proof (NilZero.isi _ Hb1 Hb2) as Eb.
  rewrite H in Ea. congruence.
Qed.

Lemma uint_digits_no_hyphen (d : Decimal.uint) :
  existsb is_hyphen (list_ascii_of_string (NilEmpty.string_of_uint d)) = false.
Proof. induction d; simpl; done. Qed.

Lemma uint_string_digits (d : Decimal.uint) :
  existsb is_hyphen (list_ascii_of_string (NilZero.string_of_uint d)) = false
  ∧ NilZero.string_of_uint d ≠ "".
Proof.
  destruct d; (split; [try reflexivity; apply (uint_digits_no_hyphen (_ d)) | done]).
Qed.

(** Two strings without hyphen, each followed by a hyphen and a rest, give
    the same string only when they and the rests are the same. *)
Lemma hyphen_split (a b x y : string) :
  existsb is_hyphen (list_ascii_of_string a) = false →
  existsb is_hyphen (list_ascii_of_string b) = false →
  a +:+ String "-"%char x = b +:+ String "-"%char y → a = b ∧ x = y.
Proof.
  revert b. induction a as [|c a IH]; intros [|c' b] Ha Hb H;
    rewrite ?append_cons, ?append_nil in H; simpl in Ha, Hb.
  - by injection H as ->.
  - injection H as <- _. done.
  - injection H as -> _. done.
  - injection H as <- E. apply orb_false_iff in Ha as [_ Ha], Hb as [_ Hb].
    by destruct (IH b Ha Hb E) as [-> ->].
Qed.

(** X6: the stored name determines the clock reading and the original
    name it was made from: two uploads get the same stored name only if
    they read the same time and have the same original name. *)
Theorem stored_name_inj (t1 t2 : Z) (f1 f2 : UploadedFile) :
  stored_name t1 f1 = stored_name t2 f2 → t1 = t2 ∧ originalname f1 = originalname f2.
Proof.
  intros H.
  assert (Hdigits : ∀ t, ∃ sign digits,
    Number_toString t = sign +:+ digits
    ∧ (sign = "" ∨ sign = "-")
    ∧ existsb is_hyphen (list_ascii_of_string digits) = false
    ∧ digits ≠ "").
  { intros t. unfold Number_toString, NilZero.string_of_int.
    destruct (Z.to_int t) as [d|d]; destruct (uint_string_digits d) as [Hd Hne].
    - exists "", (NilZero.string_of_uint d). auto.
    - exists "-", (NilZero.string_of_uint d). auto. }
  destruct (Hdigits t1) as (s1 & d1 & E1 & Hs1 & Hd1 & Hn1).
  destruct (Hdigits t2) as (s2 & d2 & E2 & Hs2 & Hd2 & Hn2).
  assert (Hd : Number_toString t1 = Number_toString t2
               ∧ originalname f1 = originalname f2).
  { rewrite E1, E2 in H |- *.
    destruct Hs1 as [-> | ->], Hs2 as [-> | ->];
      rewrite ?append_cons, ?append_nil in H |- *.
    - by destruct (hyphen_split _ _ _ _ Hd1 Hd2 H) as [-> ->].
    - destruct d1 as [|c d1]; [done|]. rewrite append_cons in H.
      injection H as -> _. by simpl in Hd1.
    - destruct d2 as [|c d2]; [done|]. rewrite append_cons in H.
      injection H as <- _. by simpl in Hd2.
    - injection H as H.
      by destruct (hyphen_split _ _ _ _ Hd1 Hd2 H) as [-> ->]. }
  destruct Hd as [Ht Ho]. split; [by apply Number_toString_inj | done].
Qed.

(** ** The answers of the routes *)

(** The answers of the two [try] blocks. *)
Lemma store_file_shape (req_file : option UploadedFile) (w : World) :
  let r := (store_file cfg dirname sharp req_file w).1 in
  (status r = 200%Z
   ∧ ∃ obj, body r = Json obj ∧ json_get "success" obj = Some (JBool true))
  ∨ (status r = 500%Z
     ∧ ∃ msg, body r = Json [("success", JBool false); ("message", JString msg)]).
Proof.
  unfold store_file, try_catch_500.
  match goal with |- context [bind ?m ?k w] => destruct (bind m k w) as [[e|r] w'] eqn:Hb end;
    simpl; [eauto 10|].
  unfold bind, Date_now in Hb.
  destruct (property_of req_file "originalname" _) as [[e|f] w1]; [done|].
  destruct (compressImage _ _ _ _ _ _) as [[e|u] w2]; [done|].
  injection Hb as <- _. simpl. eauto 10.
Qed.

Lemma store_files_shape (req_files : option (list UploadedFile)) (w : World) :
  let r := (store_files cfg dirname sharp req_files w).1 in
  (status r = 200%Z
   ∧ ∃ obj, body r = Json obj ∧ json_get "success" obj = Some (JBool true))
  ∨ (status r = 500%Z
     ∧ ∃ msg, body r = Json [("success", JBool false); ("message", JString msg)]).
Proof.
  destruct req_files as [files|]; [|simpl; eauto 10].
  rewrite store_files_Some. unfold try_catch_500, bind.
  destruct (upload_each _ _ _ _ _ _) as [[e|urls] w']; simpl; eauto 10.
Qed.

(** X7: what each route can answer.  The listing answers 200 or 500, an
    upload route 200, 400 or 500, a deletion 200 or 404; with 200 goes a
    JSON body that says [success: true], with any other status the body
    [{success: false, message}].  The one exception is a deletion whose
    path holds a NUL byte: no handler answers it, Express's final handler
    does, with status 500 and no JSON. *)
Theorem response_shape (route : Route) (w : World) :
  let r := (dispatch cfg dirname sharp route w).1 in
  let ok :=
    status r = 200%Z
    ∧ ∃ obj, body r = Json obj ∧ json_get "success" obj = Some (JBool true) in
  let failed (n : Z) :=
    status r = n
    ∧ ∃ msg, body r = Json [("success", JBool false); ("message", JString msg)] in
  match route with
  | GET_images => ok ∨ failed 500%Z
  | POST_upload_single _ | POST_upload_multiple _ =>
      ok ∨ failed 400%Z ∨ failed 500%Z
  | DELETE_images filename =>
      if has_nul (path_join [dirname; UPLOADS_DIR cfg; filename])
      then r = res_uncaught
      else ok ∨ failed 404%Z
  end.
Proof.
  destruct route as [|[parts|]|[parts|]|filename]; simpl.
  - unfold get_images. destruct (disk_readdir _ _) as [e|files]; simpl; eauto 10.
  - unfold post_upload_single.
    destruct (upload_single cfg "file" parts) as [e|req_file]; simpl; [eauto 10|].
    destruct (store_file_shape req_file w) as [H|H]; auto.
  - destruct (store_file_shape None w) as [H|H]; auto.
  - unfold post_upload_multiple.
    destruct (upload_array cfg "files" (MAX_FILES cfg) parts) as [e|files]; simpl;
      [eauto 10|].
    destruct (store_files_shape (Some files) w) as [H|H]; auto.
  - destruct (store_files_shape None w) as [H|H]; auto.
  - unfold delete_images_route.
    destruct (has_nul _); [done|].
    unfold delete_image. destruct (disk_unlink _ _) as [e|d]; simpl; eauto 10.
Qed.

(** ** More on the upload intake *)

(** Parts that pass every check, no more than the count allows, are all
    accepted. *)
Lemma multer_intake_complete name (filesLeft : Z) parts :
  Forall (fun file => fieldname file = name
                      ∧ includes (ALLOWED_TYPES cfg) (mimetype file) = true
                      ∧ (size file ≤ MAX_FILE_SIZE cfg)%N) parts →
  (Z.of_nat (length parts) ≤ Z.max filesLeft 0)%Z →
  multer_intake cfg name filesLeft parts = inr parts.
Proof.
  intros Hall. revert filesLeft.
  induction Hall as [|f fs (Hn & Ht & Hs) _ IH]; intros filesLeft Hlen; [done|].
  simpl in *. rewrite Hn, String.eqb_refl.
  destruct (Z.leb_spec filesLeft 0); [lia|]. simpl.
  unfold fileFilter. rewrite Ht.
  destruct (N.ltb_spec (MAX_FILE_SIZE cfg) (size f)); [lia|].
  rewrite IH; [done | lia].
Qed.

(** One part too many is an unexpected file. *)
Lemma multer_intake_overflow name (filesLeft : Z) parts :
  Forall (fun file => fieldname file = name
                      ∧ includes (ALLOWED_TYPES cfg) (mimetype file) = true
                      ∧ (size file ≤ MAX_FILE_SIZE cfg)%N) parts →
  (Z.max filesLeft 0 < Z.of_nat (length parts))%Z →
  ∃ err, multer_intake cfg name filesLeft parts = inl err
         ∧ code err = Some "LIMIT_UNEXPECTED_FILE".
Proof.
  intros Hall. revert filesLeft.
  induction Hall as [|f fs (Hn & Ht & Hs) _ IH]; intros filesLeft Hlen;
    simpl in *; [lia|].
  rewrite Hn, String.eqb_refl.
  destruct (Z.leb_spec filesLeft 0); [by eexists|]. simpl.
  unfold fileFilter. rewrite Ht.
  destruct (N.ltb_spec (MAX_FILE_SIZE cfg) (size f)); [lia|].
  destruct (IH (filesLeft - 1)%Z) as (err & -> & Hcode); [lia|]. eauto.
Qed.

(** X8: the multiple route takes at most [MAX_FILES] parts and the single
    route at most one.  A request with more is answered with HTTP 400 and
    nothing is stored; when every part would pass on its own, the error is
    multer's [LIMIT_UNEXPECTED_FILE], whose message the answer carries. *)
Theorem too_many_files_rejected (parts : list UploadedFile) (w : World) :
  ((Z.max (MAX_FILES cfg) 0 < Z.of_nat (length parts))%Z →
     (∃ msg, post_upload_multiple cfg dirname sharp parts w
             = (res_status_json 400
                  [("success", JBool false); ("message", JString msg)], w))
     ∧ (Forall (fun file => fieldname file = "files"
                            ∧ includes (ALLOWED_TYPES cfg) (mimetype file) = true
                            ∧ (size file ≤ MAX_FILE_SIZE cfg)%N) parts →
        ∃ err, upload_array cfg "files" (MAX_FILES cfg) parts = inl err
          ∧ code err = Some "LIMIT_UNEXPECTED_FILE"
          ∧ post_upload_multiple cfg dirname sharp parts w
            = (res_status_json 400
                 [("success", JBool false); ("message", JString (message err))], w)))
  ∧ (1 < length parts →
     (∃ msg, post_upload_single cfg dirname sharp parts w
             = (res_status_json 400
                  [("success", JBool false); ("message", JString msg)], w))
     ∧ (Forall (fun file => fieldname file = "file"
                            ∧ includes (ALLOWED_TYPES cfg) (mimetype file) = true
                            ∧ (size file ≤ MAX_FILE_SIZE cfg)%N) parts →
        ∃ err, upload_single cfg "file" parts = inl err
          ∧ code err = Some "LIMIT_UNEXPECTED_FILE"
          ∧ post_upload_single cfg dirname sharp parts w
            = (res_status_json 400
                 [("success", JBool false); ("message", JString (message err))], w))).
Proof.
  split.
  - intros Hlen. split.
    + destruct (upload_array cfg "files" (MAX_FILES cfg) parts) as [err|files] eqn:H.
      * rewrite (post_upload_multiple_rejected _ _ _ H). eauto.
      * apply multer_intake_accepts in H as (_ & Hle & _). lia.
    + intros Hall.
      destruct (multer_intake_overflow "files" _ _ Hall Hlen) as (err & H & Hcode).
      exists err. split; [done|]. split; [done|].
      rewrite (post_upload_multiple_rejected _ _ _ H).
      rewrite bool_decide_eq_false_2; [done|]. by rewrite Hcode.
  - intros Hlen. split.
    + destruct (upload_single cfg "file" parts) as [err|file] eqn:H.
      * rewrite (post_upload_single_rejected _ _ _ H). eauto.
      * unfold upload_single in H.
        destruct (multer_intake cfg "file" 1 parts) as [e|files] eqn:Hin; [done|].
        apply multer_intake_accepts in Hin as (_ & Hle & _). lia.
    + intros Hall.
      destruct (multer_intake_overflow "file" 1 parts Hall) as (err & H & Hcode); [lia|].
      assert (Hup : upload_single cfg "file" parts = inl err).
      { unfold upload_single. by rewrite H. }
      exists err. split; [done|]. split; [done|].
      rewrite (post_upload_single_rejected _ _ _ Hup).
      rewrite bool_decide_eq_false_2; [done|]. by rewrite Hcode.
Qed.

(** X9: each route takes only parts under its own field name, [file] on
    the single and [files] on the multiple route.  A request with a part
    under another name is answered with HTTP 400 and nothing is stored; so
    no request with a file part is accepted by both routes. *)
Theorem wrong_field_name_rejected (parts : list UploadedFile) (w : World) :
  (∀ file, file ∈ parts → fieldname file ≠ "file" →
     ∃ msg, post_upload_single cfg dirname sharp parts w
            = (res_status_json 400
                 [("success", JBool false); ("message", JString msg)], w))
  ∧ (∀ file, file ∈ parts → fieldname file ≠ "files" →
       ∃ msg, post_upload_multiple cfg dirname sharp parts w
              = (res_status_json 400
                   [("success", JBool false); ("message", JString msg)], w))
  ∧ (parts ≠ [] →
     status (post_upload_single cfg dirname sharp parts w).1 = 400%Z
     ∨ status (post_upload_multiple cfg dirname sharp parts w).1 = 400%Z).
Proof.
  assert (Hsingle : ∀ file, file ∈ parts → fieldname file ≠ "file" →
    ∃ msg, post_upload_single cfg dirname sharp parts w
           = (res_status_json 400
                [("success", JBool false); ("message", JString msg)], w)).
  { intros file Hin Hname.
    destruct (upload_single cfg "file" parts) as [err|req_file] eqn:H.
    - rewrite (post_upload_single_rejected _ _ _ H). eauto.
    - unfold upload_single in H.
      destruct (multer_intake cfg "file" 1 parts) as [e|files] eqn:Hi; [done|].
      apply multer_intake_accepts in Hi as (_ & _ & Hall).
      rewrite Forall_forall in Hall. by destruct (Hall _ Hin) as (? & _). }
  assert (Hmultiple : ∀ file, file ∈ parts → fieldname file ≠ "files" →
    ∃ msg, post_upload_multiple cfg dirname sharp parts w
           = (res_status_json 400
                [("success", JBool false); ("message", JString msg)], w)).
  { intros file Hin Hname.
    destruct (upload_array cfg "files" (MAX_FILES cfg) parts) as [err|files] eqn:H.
    - rewrite (post_upload_multiple_rejected _ _ _ H). eauto.
    - apply multer_intake_accepts in H as (_ & _ & Hall).
      rewrite Forall_forall in Hall. by destruct (Hall _ Hin) as (? & _). }
  split; [exact Hsingle|]. split; [exact Hmultiple|].
  intros Hne. destruct parts as [|file rest]; [done|].
  destruct (String.eqb_spec (fieldname file) "file") as [E|E].
  - right. destruct (Hmultiple file) as [msg ->]; [by left | by rewrite E | done].
  - left. destruct (Hsingle file) as [msg ->]; [by left | done | done].
Qed.

(** ** Batches *)

(** The URLs gathered before a loop starts are passed through. *)
Lemma upload_each_urls files urls w :
  upload_each cfg dirname sharp files urls w
  = match upload_each cfg dirname sharp files [] w with
    | (inl err, w') => (inl err, w')
    | (inr new, w') => (inr (urls ++ new), w')
    end.
Proof.
  revert urls w. induction files as [|file rest IH]; intros urls w.
  - simpl. unfold ret. by rewrite app_nil_r.
  - rewrite !upload_each_cons.
    destruct (compressImage _ _ _ _ _ _) as [[e|url] w1]; [done|].
    rewrite (IH (urls ++ [url])), (IH ([] ++ [url])).
    destruct (upload_each cfg dirname sharp rest [] w1) as [[e|new] w2]; [done|].
    by rewrite <- app_assoc.
Qed.

(** X10: a batch that succeeds is the same as its two halves uploaded
    one after the other: both succeed, the second starting from the world
    the first left, they leave the world the batch leaves, and the URLs of
    the batch are theirs in order. *)
Theorem batch_splits (first second : list UploadedFile) (w w' : World) (r : Response) :
  post_upload_multiple cfg dirname sharp (first ++ second) w = (r, w') →
  status r = 200%Z →
  ∃ urls1 urls2 w1,
    post_upload_multiple cfg dirname sharp first w
    = (res_json [("success", JBool true); ("urls", JStrings urls1)], w1)
    ∧ post_upload_multiple cfg dirname sharp second w1
      = (res_json [("success", JBool true); ("urls", JStrings urls2)], w')
    ∧ r = res_json [("success", JBool true); ("urls", JStrings (urls1 ++ urls2))].
Proof.
  unfold post_upload_multiple, upload_array.
  destruct (multer_intake cfg "files" (MAX_FILES cfg) (first ++ second))
    as [err|files] eqn:Hin.
  { by intros [= <- <-]. }
  apply multer_intake_accepts in Hin as (-> & Hlen & Hall).
  apply Forall_app in Hall as [Hall1 Hall2].
  rewrite length_app, Nat2Z.inj_add in Hlen.
  rewrite (multer_intake_complete _ _ _ Hall1), (multer_intake_complete _ _ _ Hall2)
    by lia.
  rewrite ?store_files_Some; unfold store_file, try_catch_500, bind. rewrite upload_each_app.
  destruct (upload_each cfg dirname sharp first [] w) as [[e|urls1] w1].
  { by intros [= <- <-]. }
  rewrite upload_each_urls.
  destruct (upload_each cfg dirname sharp second [] w1) as [[e|urls2] w2] eqn:He2.
  { by intros [= <- <-]. }
  intros [= <- <-] _. exists urls1, urls2, w1.
  rewrite store_files_Some. unfold try_catch_500, bind. by rewrite He2.
Qed.

(** ** What an upload may touch *)

(** A transcode changes the disk at its output path or not at all. *)
Lemma compressImage_frame_at buffer filename w res w' (p : list string) :
  compressImage cfg dirname sharp buffer filename w = (res, w') →
  disk w' !! p ≠ disk w !! p →
  ∃ l, locate (output_path filename) = Some l ∧ p = segments l
       ∧ is_file (disk w') p = true.
Proof.
  intros H Hp. apply compressImage_effect in H. destruct res as [e|url].
  - by subst.
  - destruct H as (_ & l & data & Hl & ->). simpl in *.
    exists l. destruct (decide (segments l = p)) as [<-|Hne].
    + unfold is_file. by rewrite lookup_insert_eq.
    + by rewrite lookup_insert_ne in Hp.
Qed.

Lemma upload_each_frame_at files urls w res w' (p : list string) :
  upload_each cfg dirname sharp files urls w = (res, w') →
  disk w' !! p ≠ disk w !! p →
  ∃ i file l, files !! i = Some file
    ∧ locate (output_path (stored_name (clock w (ticks w + i)) file)) = Some l
    ∧ p = segments l ∧ is_file (disk w') p = true.
Proof.
  revert urls w. induction files as [|file rest IH]; intros urls w.
  - by intros [= <- <-].
  - rewrite upload_each_cons.
    destruct (compressImage _ _ _ _ _ _) as [[e|url] w1] eqn:Hc.
    + intros [= <- <-] Hp.
      destruct (compressImage_frame_at _ _ _ _ _ p Hc Hp) as (l & Hl & -> & Hf).
      exists 0, file, l. by rewrite Nat.add_0_r.
    + intros Hrest Hp.
      pose proof (compressImage_frame _ _ _ _ _ Hc) as (Hclock & Hticks & _).
      pose proof (upload_each_frame _ _ _ _ _ Hrest) as (_ & Hkeep).
      simpl in Hclock, Hticks.
      pose proof (compressImage_stored _ _ _ _ _ Hc) as (_ & l0 & Hl0 & Hf0).
      apply compressImage_effect in Hc as (_ & l & data & Hl & ->).
      rewrite Hl0 in Hl. injection Hl as <-. simpl in *.
      destruct (decide (segments l0 = p)) as [<-|Hne].
      * exists 0, file, l0. rewrite Nat.add_0_r. auto.
      * rewrite <- (lookup_insert_ne (disk w) (segments l0) p (File data)) in Hp
          by done.
        destruct (IH _ _ Hrest Hp) as (i & f & l & Hi & Hl & -> & Hf).
        exists (S i), f, l. simpl in Hl.
        replace (ticks w + S i) with (S (ticks w) + i) by lia. auto.
Qed.

(** X11: an upload changes the disk only where it stores its own files.
    Every path whose content differs after a request to an upload route is
    the output path of a part of that request under its stored name, and
    holds a regular file. *)
Theorem upload_touches_only_its_files (parts : list UploadedFile) (w w' : World)
    (r : Response) (p : list string) :
  (post_upload_single cfg dirname sharp parts w = (r, w') →
   disk w' !! p ≠ disk w !! p →
   ∃ file l, parts = [file]
       ∧ locate (output_path (stored_name (clock w (ticks w)) file)) = Some l
       ∧ p = segments l ∧ is_file (disk w') p = true)
  ∧ (post_upload_multiple cfg dirname sharp parts w = (r, w') →
     disk w' !! p ≠ disk w !! p →
     ∃ i file l, parts !! i = Some file
       ∧ locate (output_path (stored_name (clock w (ticks w + i)) file)) = Some l
       ∧ p = segments l ∧ is_file (disk w') p = true).
Proof.
  split.
  - unfold post_upload_single, upload_single.
    destruct (multer_intake cfg "file" 1 parts) as [err|files] eqn:Hin.
    { by intros [= <- <-]. }
    apply multer_intake_accepts in Hin as (-> & Hlen & _).
    rewrite ?store_files_Some; unfold store_file, try_catch_500, bind, Date_now.
    destruct parts as [|file [|file' rest]]; simpl in *; [by intros [= <- <-]| |lia].
    unfold ret at 1.
    destruct (compressImage _ _ _ _ _ _) as [[e|url] w1] eqn:Hc; intros [= <- <-] Hp;
      destruct (compressImage_frame_at _ _ _ _ _ p Hc Hp) as (l & Hl & -> & Hf);
      by exists file, l.
  - unfold post_upload_multiple, upload_array.
    destruct (multer_intake cfg "files" (MAX_FILES cfg) parts) as [err|files] eqn:Hin.
    { by intros [= <- <-]. }
    apply multer_intake_accepts in Hin as (-> & _ & _).
    rewrite ?store_files_Some; unfold store_file, try_catch_500, bind.
    destruct (upload_each _ _ _ _ _ _) as [[e|urls] w1] eqn:He; intros [= <- <-] Hp;
      by apply (upload_each_frame_at _ _ _ _ _ p He).
Qed.

(** ** Starting up *)

Lemma normalize_segments_app b (stack first second : list string) :
  normalize_segments b stack (first ++ second)
  = normalize_segments b (rev (normalize_segments b stack first)) second.
Proof.
  revert stack. induction first as [|s rest IH]; intros stack; simpl.
  - by rewrite rev_involutive.
  - destruct (String.eqb s "" || String.eqb s "."); [apply IH|].
    destruct (String.eqb s ".."); [|apply IH].
    destruct stack as [|top below]; [destruct b; apply IH|].
    destruct (String.eqb top ".."); apply IH.
Qed.

(** A path without [.] and [..] segments is normalised by dropping its
    empty segments. *)
Lemma normalize_segments_plain b (stack segs : list string) :
  Forall (fun s => s ≠ "." ∧ s ≠ "..") segs →
  normalize_segments b stack segs = rev stack ++ List.filter nonempty segs.
Proof.
  intros Hsegs. revert stack.
  induction Hsegs as [|s rest [Hdot Hdots] _ IH]; intros stack; simpl.
  - by rewrite app_nil_r.
  - unfold nonempty at 1.
    destruct (String.eqb_spec s "") as [->|_]; simpl; [apply IH|].
    destruct (String.eqb_spec s "."); [done|].
    destruct (String.eqb_spec s ".."); [done|].
    rewrite IH. simpl. by rewrite <- app_assoc.
Qed.

(** Where the kernel's walk ends is where the lexical normalisation
    ends. *)
Lemma walk_normalize (d : Disk) (stack segs : list string) (p : list string) :
  Forall (fun s => s ≠ "..") stack →
  walk d (rev stack) segs = Some p →
  p = normalize_segments false stack segs.
Proof.
  revert stack. induction segs as [|s rest IH]; intros stack Hst; simpl.
  - by intros [= <-].
  - destruct (is_directory d (rev stack)); [|discriminate].
    destruct (String.eqb s "" || String.eqb s "."); [by apply IH|].
    destruct (String.eqb_spec s "..") as [->|Hs].
    + destruct stack as [|top below]; [exact (IH [] Hst)|].
      inversion Hst as [|? ? Htop Hbelow]; subst.
      destruct (String.eqb_spec top ".."); [done|].
      simpl. rewrite removelast_last. by apply IH.
    + change (rev stack ++ [s]) with (rev (s :: stack)). apply IH. by constructor.
Qed.

(** [mkdir -p] ends in a directory, the one the lexical normalisation
    names, and leaves what was on the disk as it was. *)
Lemma walk_making_normalize (path : string) (d d' : Disk) (stack segs : list string) :
  Forall (fun s => s ≠ "..") stack →
  walk_making path d (rev stack) segs = inr d' →
  is_directory d' (normalize_segments false stack segs) = true
  ∧ ∀ p x, d !! p = Some x → d' !! p = Some x.
Proof.
  revert d stack. induction segs as [|s rest IH]; intros d stack Hst; simpl.
  - destruct (is_directory d (rev stack)) eqn:Hdir; [|discriminate].
    by intros [= <-].
  - destruct (is_directory d (rev stack)) eqn:Hdir; [|discriminate].
    destruct (String.eqb s "" || String.eqb s "."); [by apply IH|].
    destruct (String.eqb_spec s "..") as [->|Hs].
    + destruct stack as [|top below]; [exact (IH d [] Hst)|].
      inversion Hst as [|? ? Htop Hbelow]; subst.
      destruct (String.eqb_spec top ".."); [done|].
      simpl. rewrite removelast_last. by apply IH.
    + change (rev stack ++ [s]) with (rev (s :: stack)).
      destruct (d !! rev (s :: stack)) as [[content|]|] eqn:Hd; [discriminate| |].
      * apply IH. by constructor.
      * intros H. apply IH in H as [Hdir' Hkeep]; [|by constructor].
        split; [done|]. intros p x Hp. apply Hkeep.
        rewrite lookup_insert_ne; [done|]. intros <-. congruence.
Qed.

(** X12: with a relative [UPLOADS_DIR], a start-up that does not throw
    leaves the directory the routes use in place: it is a directory
    afterwards, or it was a regular file already, which the check for
    existence lets pass.  Nothing that was on the disk is changed.  Unless
    that path was a regular file, every listing after start-up succeeds. *)
Theorem startup_prepares_storage (d d' : Disk) :
  starts_with_slash dirname = true →
  Forall (fun s => s ≠ "." ∧ s ≠ "..") (split_on "/"%char dirname) →
  UPLOADS_DIR cfg ≠ "" →
  starts_with_slash (UPLOADS_DIR cfg) = false →
  ensure_uploads_dir cfg dirname d = inr d' →
  ∃ s, locate (path_join [dirname; UPLOADS_DIR cfg]) = Some s
    ∧ (∀ p x, d !! p = Some x → d' !! p = Some x)
    ∧ (is_directory d' (segments s) = true
       ∨ (d' = d ∧ is_file d (segments s) = true))
    ∧ (is_file d (segments s) = false →
       ∀ w, disk w = d' →
         ∃ images,
           get_images cfg dirname w
           = (res_json [("success", JBool true); ("images", JStrings images)], w)).
Proof.
  intros Habs Hplain Hne Hrel Hstart.
  destruct (path_join_segments dirname [] (UPLOADS_DIR cfg) Habs)
    as (_ & t & _ & Hl & _); [by apply nonempty_spec|].
  change (join_with "/" (dirname :: List.filter nonempty [])) with dirname in Hl.
  change (dirname :: [] ++ [UPLOADS_DIR cfg]) with [dirname; UPLOADS_DIR cfg] in Hl.
  set (cwd := List.filter nonempty (split_on "/"%char dirname)).
  rewrite normalize_segments_app, (normalize_segments_plain _ _ _ Hplain) in Hl.
  change (rev [] ++ List.filter nonempty (split_on "/"%char dirname)) with cwd in Hl.
  assert (Hstart_of : start_of dirname (UPLOADS_DIR cfg) = rev (rev cwd)).
  { unfold start_of, locate. by rewrite Hrel, Habs, rev_involutive. }
  assert (Hcwd : Forall (fun s => s ≠ "..") (rev cwd)).
  { rewrite Forall_forall in Hplain |- *. intros x Hx.
    apply list_elem_of_In, in_rev, List.filter_In in Hx as [Hx _].
    apply list_elem_of_In in Hx. by destruct (Hplain x Hx). }
  set (L := normalize_segments false (rev cwd) (split_on "/"%char (UPLOADS_DIR cfg)))
    in *.
  assert (Hstate : (∀ p x, d !! p = Some x → d' !! p = Some x)
                   ∧ (is_directory d' L = true ∨ (d' = d ∧ is_file d L = true))).
  { unfold ensure_uploads_dir, fs_existsSync, fs_mkdirSync_recursive in Hstart.
    destruct (String.eqb_spec (UPLOADS_DIR cfg) ""); [done|].
    rewrite Hstart_of in Hstart.
    destruct (walk d (rev (rev cwd)) (split_on "/"%char (UPLOADS_DIR cfg)))
      as [p|] eqn:Hwalk.
    - apply walk_normalize in Hwalk; [|done]. fold L in Hwalk. subst p.
      destruct (is_directory d L) eqn:Hdir; simpl in Hstart.
      + injection Hstart as <-. auto.
      + destruct (is_file d L) eqn:Hfile; simpl in Hstart.
        * injection Hstart as <-. auto.
        * apply walk_making_normalize in Hstart as [Hdir' Hkeep]; auto.
    - simpl in Hstart.
      apply walk_making_normalize in Hstart as [Hdir' Hkeep]; auto. }
  destruct Hstate as [Hkeep Hcase].
  eexists. split; [exact Hl|]. simpl segments. split; [exact Hkeep|].
  split; [exact Hcase|].
  intros Hnofile w <-. destruct Hcase as [Hdir | [_ Hfile]]; [|congruence].
  eexists. by apply (get_images_ok w _ Hl).
Qed.

(** [mkdir -p] along plain segments changes the disk only at the
    directories on its way. *)
Lemma walk_making_frame (path : string) (d d' : Disk) (from segs : list string)
    (p : list string) :
  Forall (fun s => s ≠ "." ∧ s ≠ "..") segs →
  walk_making path d from segs = inr d' →
  (∀ k, p ≠ from ++ take k (List.filter nonempty segs)) →
  d' !! p = d !! p.
Proof.
  intros Hsegs. revert d from.
  induction Hsegs as [|s rest [Hdot Hdots] _ IH]; intros d from; simpl.
  - destruct (is_directory d from); [|discriminate]. by intros [= <-].
  - destruct (is_directory d from); [|discriminate].
    unfold nonempty at 1.
    destruct (String.eqb_spec s "") as [->|Hs]; simpl; [by apply IH|].
    destruct (String.eqb_spec s "."); [done|].
    destruct (String.eqb_spec s ".."); [done|].
    intros H Hp.
    assert (Hp' : ∀ k, p ≠ (from ++ [s]) ++ take k (List.filter nonempty rest)).
    { intros k. rewrite <- app_assoc. exact (Hp (S k)). }
    assert (Hnew : p ≠ from ++ [s]).
    { exact (Hp 1). }
    destruct (d !! (from ++ [s])) as [[content|]|]; [discriminate| |].
    + by apply (IH d (from ++ [s])).
    + rewrite (IH _ (from ++ [s]) H Hp'). by rewrite lookup_insert_ne.
Qed.

(** X13: an absolute [UPLOADS_DIR] is read in two ways.  Start-up takes
    it as it is, the routes join it to the working directory.  So, the
    working directory not being the root, start-up does not make the
    directory the routes use: if it was not there before, it is not there
    after, and every listing is answered with HTTP 500. *)
Theorem absolute_uploads_dir_is_missed (d d' : Disk) :
  starts_with_slash dirname = true →
  Forall (fun s => s ≠ "." ∧ s ≠ "..") (split_on "/"%char dirname) →
  List.filter nonempty (split_on "/"%char dirname) ≠ [] →
  starts_with_slash (UPLOADS_DIR cfg) = true →
  Forall (fun s => s ≠ "." ∧ s ≠ "..") (split_on "/"%char (UPLOADS_DIR cfg)) →
  ensure_uploads_dir cfg dirname d = inr d' →
  ∃ s, locate (path_join [dirname; UPLOADS_DIR cfg]) = Some s
    ∧ segments s = List.filter nonempty (split_on "/"%char dirname)
                   ++ List.filter nonempty (split_on "/"%char (UPLOADS_DIR cfg))
    ∧ (is_directory d (segments s) = false →
       is_directory d' (segments s) = false
       ∧ ∀ w, disk w = d' → status (get_images cfg dirname w).1 = 500%Z).
Proof.
  intros Habs Hplain Hcwd Huabs Huplain Hstart.
  destruct (path_join_segments dirname [] (UPLOADS_DIR cfg) Habs)
    as (_ & t & _ & Hl & _); [by destruct (UPLOADS_DIR cfg)|].
  change (join_with "/" (dirname :: List.filter nonempty [])) with dirname in Hl.
  change (dirname :: [] ++ [UPLOADS_DIR cfg]) with [dirname; UPLOADS_DIR cfg] in Hl.
  rewrite normalize_segments_plain in Hl by (by apply Forall_app).
  rewrite List.filter_app in Hl.
  change (rev [] ++ ?l) with l in Hl.
  set (cwd := List.filter nonempty (split_on "/"%char dirname)) in *.
  set (up := List.filter nonempty (split_on "/"%char (UPLOADS_DIR cfg))) in *.
  eexists. split; [exact Hl|]. simpl segments. split; [done|].
  intros Hmissing.
  assert (Hsame : d' !! (cwd ++ up) = d !! (cwd ++ up)).
  { unfold ensure_uploads_dir, fs_mkdirSync_recursive in Hstart.
    destruct (negb (fs_existsSync dirname (UPLOADS_DIR cfg) d)); [|by injection Hstart as <-].
    destruct (String.eqb (UPLOADS_DIR cfg) ""); [done|].
    apply (walk_making_frame _ _ _ _ _ (cwd ++ up) Huplain Hstart).
    intros k E. apply (f_equal length) in E.
    unfold start_of in E. rewrite Huabs in E. fold up in E.
    rewrite length_app in E. simpl in E. rewrite length_take in E.
    destruct cwd; [done|]. simpl in E. lia. }
  assert (Hdir' : is_directory d' (cwd ++ up) = false).
  { unfold is_directory in Hmissing |- *. rewrite Hsame.
    by destruct (cwd ++ up). }
  split; [done|]. intros w <-.
  unfold get_images, disk_readdir. rewrite Hl. simpl segments. rewrite Hdir'.
  by destruct (is_file (disk w) (cwd ++ up)).
Qed.

(** ** The extension of a stored name *)

Lemma existsb_rev {A} (P : A → bool) (l : list A) :
  existsb P (rev l) = existsb P l.
Proof.
  induction l as [|c r IH]; [done|]. simpl.
  rewrite existsb_app, IH. simpl. by rewrite orb_false_r, orb_comm.
Qed.

Lemma scan_none (P : ascii → bool) (l : list ascii) :
  existsb P l = false → drop_while P l = l ∧ take_until P l = l.
Proof.
  induction l as [|c r IH]; [done|]. simpl.
  destruct (P c); [done|]. simpl. intros H. destruct (IH H) as [_ ->]. done.
Qed.

Lemma drop_while_no_dot (l : list ascii) :
  existsb is_dot l = false → drop_while (fun c => negb (is_dot c)) l = [].
Proof.
  induction l as [|c r IH]; [done|]. simpl.
  destruct (is_dot c); [done|]. exact IH.
Qed.

Lemma scan_to_dot (l q : list ascii) :
  existsb is_dot l = true →
  take_until is_dot (l ++ q) = take_until is_dot l
  ∧ ∃ rest, drop_while (fun c => negb (is_dot c)) (l ++ q) = "."%char :: rest ++ q
            ∧ drop_while (fun c => negb (is_dot c)) l = "."%char :: rest.
Proof.
  induction l as [|c r IH]; [done|]. simpl.
  destruct (is_dot c) eqn:Hc; simpl.
  - intros _. split; [done|]. exists r.
    unfold is_dot in Hc. apply Ascii.eqb_eq in Hc. by subst.
  - intros H. destruct (IH H) as (-> & rest & -> & ->). eauto.
Qed.

(** The extension of a name behind a prefix without dot or separator:
    what follows the last dot of the name, that dot included. *)
Lemma path_extname_prefixed (prefix name : string) :
  prefix ≠ "" →
  existsb is_dot (list_ascii_of_string prefix) = false →
  no_slash prefix = true → no_slash name = true →
  path_extname (prefix +:+ name)
  = if existsb is_dot (list_ascii_of_string name)
    then string_of_list_ascii
           (rev (take_until is_dot (rev (list_ascii_of_string name)) ++ ["."%char]))
    else "".
Proof.
  intros Hne Hnodot Hps Hns. unfold path_extname, rev_basename.
  rewrite chars_append, rev_app_distr.
  set (r := rev (list_ascii_of_string name)).
  set (q := rev (list_ascii_of_string prefix)).
  assert (Hq : q ≠ []).
  { subst q. destruct prefix as [|c s]; [done|]. simpl.
    intros E. by apply app_eq_nil in E as [_ ?]. }
  assert (Hqdot : existsb is_dot q = false).
  { subst q. rewrite <- Hnodot. apply existsb_rev. }
  assert (Hslash : existsb is_slash (r ++ q) = false).
  { subst r q. rewrite existsb_app, !existsb_rev. unfold no_slash in *.
    apply negb_true_iff in Hps, Hns. by rewrite Hps, Hns. }
  destruct (scan_none is_slash _ Hslash) as [-> _].
  destruct (scan_none is_slash _ Hslash) as [_ ->].
  assert (Hr : existsb is_dot (list_ascii_of_string name) = existsb is_dot r).
  { subst r. symmetry. apply existsb_rev. }
  rewrite Hr. destruct (existsb is_dot r) eqn:Hdot.
  - destruct (scan_to_dot r q Hdot) as (-> & rest & -> & Hrest).
    destruct (rest ++ q) as [|c0 tl] eqn:Etl.
    { by apply app_eq_nil in Etl as [_ ?]. }
    destruct r as [|d1 [|d2 r']]; [done| |].
    + destruct q as [|d2 [|d3 q']]; [done| |done].
      simpl in Hqdot. apply orb_false_iff in Hqdot as [Hd2 _].
      simpl. by rewrite Hd2, andb_false_r.
    + by destruct r', q.
  - rewrite drop_while_no_dot; [done|]. by rewrite existsb_app, Hdot, Hqdot.
Qed.

Lemma scan_past (a b : list ascii) :
  existsb is_dot a = false →
  drop_while (fun c => negb (is_dot c)) (a ++ b)
  = drop_while (fun c => negb (is_dot c)) b
  ∧ take_until is_dot (a ++ "."%char :: b) = a.
Proof.
  induction a as [|c r IH]; [done|]. simpl.
  destruct (is_dot c); [done|]. simpl. intros H.
  destruct (IH H) as [-> ->]. done.
Qed.

(** The extension of a name without separator, when it has one. *)
Lemma path_extname_plain (name : string) :
  no_slash name = true → path_extname name ≠ "" →
  existsb is_dot (list_ascii_of_string name) = true
  ∧ path_extname name
    = string_of_list_ascii
        (rev (take_until is_dot (rev (list_ascii_of_string name)) ++ ["."%char])).
Proof.
  intros Hns. unfold path_extname, rev_basename.
  set (r := rev (list_ascii_of_string name)).
  assert (Hslash : existsb is_slash r = false).
  { subst r. rewrite existsb_rev. unfold no_slash in Hns.
    by apply negb_true_iff in Hns. }
  destruct (scan_none is_slash _ Hslash) as [-> _].
  destruct (scan_none is_slash _ Hslash) as [_ ->].
  rewrite <- (existsb_rev is_dot (list_ascii_of_string name)). fold r.
  destruct (existsb is_dot r) eqn:Hdot.
  - destruct (drop_while (fun c => negb (is_dot c)) r) as [|c0 [|c1 tl]]; [done..|].
    destruct r as [|d1 [|d2 [|d3 r']]]; try done.
    by destruct (is_dot d1 && is_dot d2).
  - by rewrite drop_while_no_dot.
Qed.

Lemma uint_digits_no_dot (d : Decimal.uint) :
  existsb is_dot (list_ascii_of_string (NilEmpty.string_of_uint d)) = false.
Proof. induction d; simpl; done. Qed.

Lemma Number_toString_no_dot (n : Z) :
  existsb is_dot (list_ascii_of_string (Number_toString n)) = false.
Proof.
  assert (Huint : ∀ d, existsb is_dot
            (list_ascii_of_string (NilZero.string_of_uint d)) = false).
  { intros d. destruct d; try reflexivity; apply (uint_digits_no_dot (_ d)). }
  unfold Number_toString, NilZero.string_of_int.
  destruct (Z.to_int n) as [d|d]; [apply Huint|].
  change (existsb is_dot ("-"%char :: list_ascii_of_string (NilZero.string_of_uint d))
          = false).
  simpl. apply Huint.
Qed.

(** X14: the encoder of an upload is chosen by the original name alone.
    For an original name without separator, the extension of the stored
    name, and so the bytes written for a buffer, do not depend on the time
    stamp; the extension is that of the original name where that has one;
    and a name that is a dot followed by a word, which has no extension of
    its own, is stored under a name whose extension is that dot and word. *)
Theorem stored_extension (t : Z) (file : UploadedFile) :
  no_slash (originalname file) = true →
  (∀ t', path_extname (stored_name t' file) = path_extname (stored_name t file)
         ∧ ∀ data, transcoded sharp data (stored_name t' file)
                   = transcoded sharp data (stored_name t file))
  ∧ (path_extname (originalname file) ≠ "" →
     path_extname (stored_name t file) = path_extname (originalname file))
  ∧ (∀ word, originalname file = "." +:+ word → word ≠ "" →
       existsb is_dot (list_ascii_of_string word) = false →
       path_extname (originalname file) = ""
       ∧ path_extname (stored_name t file) = "." +:+ word).
Proof.
  intros Hns.
  assert (Hstored : ∀ t0, path_extname (stored_name t0 file)
    = if existsb is_dot (list_ascii_of_string (originalname file))
      then string_of_list_ascii
             (rev (take_until is_dot (rev (list_ascii_of_string (originalname file)))
                   ++ ["."%char]))
      else "").
  { intros t0. rewrite <- append_assoc. apply path_extname_prefixed; [| | |done].
    - destruct (Number_toString t0); done.
    - by rewrite chars_append, existsb_app, Number_toString_no_dot.
    - by rewrite no_slash_append, Number_toString_no_slash. }
  split; [|split].
  - intros t'. split; [by rewrite !Hstored|].
    intros data. unfold transcoded. by rewrite !Hstored.
  - intros Hext. destruct (path_extname_plain _ Hns Hext) as [Hdot ->].
    by rewrite Hstored, Hdot.
  - intros word Horig Hword Hnodot. rewrite Hstored, Horig.
    change (list_ascii_of_string ("." +:+ word))
      with ("."%char :: list_ascii_of_string word).
    split.
    + unfold path_extname, rev_basename.
      change (list_ascii_of_string ("." +:+ word))
        with ("."%char :: list_ascii_of_string word).
      simpl rev.
      assert (Hslash : existsb is_slash (rev (list_ascii_of_string word) ++ ["."%char])
                       = false).
      { rewrite Horig in Hns. unfold no_slash in Hns. apply negb_true_iff in Hns.
        change (list_ascii_of_string ("." +:+ word))
          with ("."%char :: list_ascii_of_string word) in Hns.
        simpl in Hns. by rewrite existsb_app, existsb_rev, Hns. }
      destruct (scan_none is_slash _ Hslash) as [-> _].
      destruct (scan_none is_slash _ Hslash) as [_ ->].
      destruct (scan_past (rev (list_ascii_of_string word)) ["."%char]) as [-> _];
        [by rewrite existsb_rev|]. done.
    + simpl existsb. simpl rev.
      destruct (scan_past (rev (list_ascii_of_string word)) []) as [_ ->];
        [by rewrite existsb_rev|].
      rewrite rev_app_distr, rev_involutive. simpl.
      by rewrite string_of_list_ascii_of_string.
Qed.

(** ** The allow-lists read from the environment *)

Lemma split_on_app_comma s t :
  split_on ","%char (s +:+ String ","%char t)
  = split_on ","%char s ++ split_on ","%char t.
Proof.
  induction s as [|c r IH]; [reflexivity|].
  rewrite append_cons. simpl. destruct (Ascii.eqb c ","); [by rewrite IH|].
  rewrite IH. pose proof (split_on_nonnil ","%char r).
  by destruct (split_on ","%char r).
Qed.

Lemma split_on_no_comma s :
  existsb is_comma (list_ascii_of_string s) = false → split_on ","%char s = [s].
Proof.
  induction s as [|c r IH]; [reflexivity|]. simpl.
  unfold is_comma at 1. destruct (Ascii.eqb c ","); [done|]. simpl.
  intros H. by rewrite IH.
Qed.

Lemma split_on_join_comma (l : list string) :
  l ≠ [] → Forall (fun x => existsb is_comma (list_ascii_of_string x) = false) l →
  split_on ","%char (join_with "," l) = l.
Proof.
  induction l as [|a [|b r] IH]; [done| |]; intros _ Hall.
  - inversion Hall; subst. by apply split_on_no_comma.
  - inversion Hall as [|? ? Ha Hrest]; subst.
    change (join_with "," (a :: b :: r))
      with (a +:+ String ","%char (join_with "," (b :: r))).
    rewrite split_on_app_comma, IH by done. by rewrite split_on_no_comma.
Qed.

(** X15: a list variable of the environment is read back as it was
    written.  Entries without comma, joined by commas into a value that is
    not empty, are the list the server uses, entry for entry and untrimmed:
    as [ALLOWED_ORIGINS], a present origin is let through exactly when it is
    empty or one of the entries; as [ALLOWED_TYPES], a part passes the file
    filter exactly when its declared type is one of the entries. *)
Theorem list_variable_round_trip (entries : list string) (fallback : string) :
  join_with "," entries ≠ "" →
  Forall (fun e => existsb is_comma (list_ascii_of_string e) = false) entries →
  env_list (Some (join_with "," entries)) fallback = entries
  ∧ (ALLOWED_ORIGINS cfg = env_list (Some (join_with "," entries)) fallback →
     ∀ o, cors_origin cfg (Some o) = inr true ↔ o = "" ∨ o ∈ entries)
  ∧ (ALLOWED_TYPES cfg = env_list (Some (join_with "," entries)) fallback →
     ∀ file, fileFilter cfg file = inr true ↔ mimetype file ∈ entries).
Proof.
  intros Hvalue Hentries.
  assert (Hlist : env_list (Some (join_with "," entries)) fallback = entries).
  { unfold env_list. destruct (String.eqb_spec (join_with "," entries) ""); [done|].
    apply split_on_join_comma; [|done]. by intros ->. }
  split; [exact Hlist|]. rewrite Hlist. split.
  - intros Hcfg o. unfold cors_origin, no_origin. rewrite Hcfg.
    destruct (String.eqb_spec o "") as [->|Ho]; simpl; [by split; auto|].
    destruct (includes entries o) eqn:Hin.
    + apply includes_elem_of in Hin. by split; auto.
    + split; [done|]. intros [?|Ho']; [done|].
      apply includes_elem_of in Ho'. congruence.
  - intros Hcfg file. unfold fileFilter. rewrite Hcfg.
    destruct (includes entries (mimetype file)) eqn:Hin.
    + by apply includes_elem_of in Hin.
    + split; [done|]. intros Hty. apply includes_elem_of in Hty. congruence.
Qed.

(** ** Taking an upload back *)


(** ** Directories inside the storage directory *)

(** X17: the listing does not tell files from directories.  A directory
    inside the storage directory is listed with a URL like an image, and
    its deletion is answered with HTTP 404 and changes nothing (the working
    directory given by its absolute path, the name plain). *)
Theorem subdirectory_listed_not_deleted (name : string) (w : World) (s : Location) :
  starts_with_slash dirname = true →
  plain_name name = true →
  locate (path_join [dirname; UPLOADS_DIR cfg]) = Some s →
  is_directory (disk w) (segments s) = true →
  disk w !! (segments s ++ [name]) = Some Directory →
  (∃ images,
     get_images cfg dirname w
     = (res_json [("success", JBool true); ("images", JStrings images)], w)
     ∧ public_url name ∈ images)
  ∧ delete_image cfg dirname name w
    = (res_status_json 404
         [("success", JBool false);
          ("message", JString "File not found or already deleted")], w).
Proof.
  intros Habs Hplain Hs Hdir Hsub. split.
  - eexists. split; [by apply (get_images_ok w s)|].
    apply list_elem_of_In, (in_map (fun name => public_url name)).
    apply list_elem_of_In, entries_spec. by rewrite Hsub.
  - destruct (path_join_child dirname [UPLOADS_DIR cfg] name Habs Hplain)
      as (s' & Hs' & Hl).
    rewrite Hs in Hs'. injection Hs' as <-.
    change (dirname :: [UPLOADS_DIR cfg] ++ [name])
      with [dirname; UPLOADS_DIR cfg; name] in Hl.
    unfold delete_image, disk_unlink. rewrite Hl. simpl.
    by rewrite Hsub.
Qed.

(** ** Deleting by a name the file system takes *)

(** Where the path holds no NUL byte the route is [fs.unlink] and its
    callback. *)
Lemma delete_images_route_taken (filename : string) (w : World) :
  has_nul (output_path filename) = false →
  dispatch cfg dirname sharp (DELETE_images filename) w
  = delete_image cfg dirname filename w.
Proof. intros H. simpl. unfold delete_images_route. by rewrite H. Qed.

(** X18: for a name whose path holds no NUL byte, the deletion route
    answers every failure of [unlink] (nothing there, a directory, any
    other error) with HTTP 404 and [success: false] and leaves the world as
    it was, and removes an existing regular file, that file only, and
    answers with success. *)
Theorem delete_route_outcome (filename : string) (w : World) :
  let filePath := path_join [dirname; UPLOADS_DIR cfg; filename] in
  let not_found :=
    res_status_json 404
      [("success", JBool false);
       ("message", JString "File not found or already deleted")] in
  has_nul filePath = false →
  (∀ err, disk_unlink filePath (disk w) = inl err →
     dispatch cfg dirname sharp (DELETE_images filename) w = (not_found, w))
  ∧ (∀ l, locate filePath = Some l → is_file (disk w) (segments l) = false →
       dispatch cfg dirname sharp (DELETE_images filename) w = (not_found, w))
  ∧ (∀ l, locate filePath = Some l → trailing l = false →
       is_file (disk w) (segments l) = true →
       dispatch cfg dirname sharp (DELETE_images filename) w
       = (res_json [("success", JBool true);
                    ("message", JString "Deleted successfully")],
          set_disk (delete (segments l) (disk w)) w)).
Proof.
  intros filePath not_found Hnul. simpl.
  unfold delete_images_route, delete_image. fold filePath. rewrite Hnul.
  split; [|split].
  - intros err H. by rewrite H.
  - intros l Hl Hf. unfold disk_unlink, is_file in *. rewrite Hl.
    destruct (disk w !! segments l) as [[]|]; [done..|].
    by destruct (is_directory _ _).
  - intros l Hl Ht Hf. unfold disk_unlink, is_file in *. rewrite Hl, Ht.
    by destruct (disk w !! segments l) as [[]|].
Qed.

(** A NUL byte in a string is in one of the pieces between its
    separators. *)
Lemma split_on_nul (s : string) :
  has_nul s = true →
  Exists (fun piece => has_nul piece = true) (split_on "/"%char s).
Proof.
  unfold has_nul. induction s as [|c r IH]; [done|]. simpl.
  intros H. apply orb_true_iff in H.
  destruct (Ascii.eqb_spec c "/") as [->|Hc].
  - destruct H as [H|H]; [done|]. right. by apply IH.
  - pose proof (split_on_nonnil "/"%char r) as Hne.
    destruct (split_on "/"%char r) as [|h t]; [done|].
    destruct H as [H|H].
    + left. simpl. by rewrite H.
    + apply IH in H. inversion H as [? ? Hh|? ? Ht]; subst.
      * left. simpl. by rewrite Hh, orb_true_r.
      * by right.
Qed.

Lemma has_nul_segments (path : string) (l : Location) :
  locate path = Some l → has_nul path = true →
  Exists (fun name => has_nul name = true) (segments l).
Proof.
  unfold locate. destruct (starts_with_slash path); [|discriminate].
  intros [= <-] H. simpl. apply split_on_nul in H.
  apply Exists_exists in H as (piece & Hin & Hp).
  apply Exists_exists. exists piece. split; [|done].
  apply list_elem_of_In, List.filter_In. split; [by apply list_elem_of_In|].
  by destruct piece.
Qed.

(** X19: the answer of Express's final handler arises only for names
    under which nothing exists.  On a disk none of whose names holds a NUL
    byte, a deletion whose path leads to a file or a directory is answered
    by the handler itself, what [fs.unlink] and its callback make of it. *)
Theorem uncaught_only_for_missing_names (filename : string) (w : World)
    (l : Location) :
  names_ok (disk w) = true →
  locate (output_path filename) = Some l →
  is_Some (disk w !! segments l) →
  has_nul (output_path filename) = false
  ∧ dispatch cfg dirname sharp (DELETE_images filename) w
    = delete_image cfg dirname filename w
  ∧ (dispatch cfg dirname sharp (DELETE_images filename) w).1 ≠ res_uncaught.
Proof.
  intros Hok Hl [node Hnode].
  assert (Hnul : has_nul (output_path filename) = false).
  { destruct (has_nul (output_path filename)) eqn:E; [|done]. exfalso.
    apply (has_nul_segments _ l Hl), Exists_exists in E as (name & Hin & Hname).
    unfold names_ok in Hok. rewrite forallb_forall in Hok.
    assert (Hentry : In (segments l, node) (map_to_list (disk w))).
    { by apply list_elem_of_In, elem_of_map_to_list. }
    apply Hok in Hentry. simpl in Hentry. rewrite forallb_forall in Hentry.
    apply list_elem_of_In, Hentry in Hin. by rewrite Hname in Hin. }
  split; [done|]. rewrite (delete_images_route_taken _ _ Hnul). split; [done|].
  unfold delete_image. by destruct (disk_unlink _ _).
Qed.

End ServerFacts.

(** * The theorems at work on the concrete deployment *)

Import Scenario.

Lemma compressImage_dispatch_witness :
  (has_extension "1700000000000-cat.JPG" ".jpg"
   ∧ compressImage default_config app_dir encoder pixels "1700000000000-cat.JPG" start
     = (inr (UPLOADS_URL default_config +:+ "/" +:+ "1700000000000-cat.JPG"),
        set_disk (<[ ["app"; "uploads"; "1700000000000-cat.JPG"]
                     := File (Byte.x01 :: pixels) ]> (disk start)) start))
  ∧ (¬ has_extension "1700000000000-notes.TXT" ".jpg"
     ∧ ¬ has_extension "1700000000000-notes.TXT" ".jpeg"
     ∧ ¬ has_extension "1700000000000-notes.TXT" ".png"
     ∧ ¬ has_extension "1700000000000-notes.TXT" ".webp"
     ∧ compressImage default_config app_dir encoder pixels "1700000000000-notes.TXT" start
       = (inr (UPLOADS_URL default_config +:+ "/" +:+ "1700000000000-notes.TXT"),
          set_disk (<[ ["app"; "uploads"; "1700000000000-notes.TXT"]
                       := File pixels ]> (disk start)) start)).
Proof.
  assert (Hjpg : has_extension "1700000000000-cat.JPG" ".jpg") by reflexivity.
  assert (H1 : ¬ has_extension "1700000000000-notes.TXT" ".jpg") by (vm_compute; discriminate).
  assert (H2 : ¬ has_extension "1700000000000-notes.TXT" ".jpeg") by (vm_compute; discriminate).
  assert (H3 : ¬ has_extension "1700000000000-notes.TXT" ".png") by (vm_compute; discriminate).
  assert (H4 : ¬ has_extension "1700000000000-notes.TXT" ".webp") by (vm_compute; discriminate).
  split.
  - split; [exact Hjpg|].
    destruct (proj1 (compressImage_dispatch default_config app_dir encoder pixels
                       "1700000000000-cat.JPG" start) (or_introl Hjpg)) as [Hwrites _].
    apply (Hwrites (mkLocation ["app"; "uploads"; "1700000000000-cat.JPG"] false)).
    + vm_compute. reflexivity.
    + reflexivity.
    + discriminate.
    + vm_compute. reflexivity.
    + vm_compute. reflexivity.
    + vm_compute. discriminate.
  - repeat (split; [assumption|]).
    destruct (proj2 (proj2 (proj2
                (compressImage_dispatch default_config app_dir encoder pixels
                   "1700000000000-notes.TXT" start))) H1 H2 H3 H4) as [Hwrites _].
    apply (Hwrites (mkLocation ["app"; "uploads"; "1700000000000-notes.TXT"] false)).
    + vm_compute. reflexivity.
    + reflexivity.
    + discriminate.
    + vm_compute. reflexivity.
    + vm_compute. reflexivity.
    + vm_compute. discriminate.
Defined.

Lemma upload_naming_policy_witness :
  (status (post_upload_single default_config app_dir encoder [cat_jpg] start).1 = 200%Z
   ∧ (post_upload_single default_config app_dir encoder [cat_jpg] start).1
     = res_json
         [("success", JBool true);
          ("url", JString "https://cdn.soulcraftbd.com/uploads/1700000000000-cat.JPG")]
   ∧ is_file (disk (post_upload_single default_config app_dir encoder [cat_jpg] start).2)
       ["app"; "uploads"; "1700000000000-cat.JPG"] = true)
  ∧ ∃ w',
      post_upload_multiple default_config app_dir encoder [first_jpg; last_webp] start
      = (res_json
           [("success", JBool true);
            ("urls",
             JStrings ["https://cdn.soulcraftbd.com/uploads/1700000000000-a.jpg";
                       "https://cdn.soulcraftbd.com/uploads/1700000000001-c.webp"])],
         w')
      ∧ is_file (disk w') ["app"; "uploads"; "1700000000000-a.jpg"] = true
      ∧ is_file (disk w') ["app"; "uploads"; "1700000000001-c.webp"] = true.
Proof.
  split.
  - assert (Hstatus :
      status (post_upload_single default_config app_dir encoder [cat_jpg] start).1 = 200%Z)
      by (vm_compute; reflexivity).
    destruct (proj1 (upload_naming_policy default_config app_dir encoder)
                [cat_jpg] start _ _ (surjective_pairing _) Hstatus)
      as (file & Hparts & Hr & l & Hl & Hfile).
    injection Hparts as <-.
    split; [exact Hstatus|]. split; [exact Hr|].
    vm_compute in Hl. injection Hl as <-. exact (proj1 Hfile).
  - destruct (proj2 (proj2 (proj2 (upload_naming_policy default_config app_dir encoder)))
                [first_jpg; last_webp] start (mkLocation ["app"; "uploads"] false))
      as (w' & Hanswer & Hfiles).
    + reflexivity.
    + vm_compute. reflexivity.
    + vm_compute. reflexivity.
    + vm_compute. reflexivity.
    + intros [|[|i]] file Hi; [injection Hi as <- | injection Hi as <- | discriminate].
      * split; [reflexivity|]. split; [vm_compute; reflexivity|].
        split; [eexists; vm_compute; reflexivity | vm_compute; discriminate].
      * split; [reflexivity|]. split; [vm_compute; reflexivity|].
        split; [eexists; vm_compute; reflexivity | vm_compute; discriminate].
    + assert (Hurls :
        imap (fun i file =>
                UPLOADS_URL default_config +:+ "/"
                +:+ (Number_toString (clock start (ticks start + i)) +:+ "-"
                     +:+ originalname file)) [first_jpg; last_webp]
        = ["https://cdn.soulcraftbd.com/uploads/1700000000000-a.jpg";
           "https://cdn.soulcraftbd.com/uploads/1700000000001-c.webp"])
        by (vm_compute; reflexivity).
      rewrite Hurls in Hanswer.
      exists w'. split; [exact Hanswer|]. split.
      * exact (Hfiles 0 first_jpg eq_refl).
      * exact (Hfiles 1 last_webp eq_refl).
Defined.

Lemma oversized_part_rejected_witness :
  (MAX_FILE_SIZE two_bytes < size big_png)%N
  ∧ post_upload_single two_bytes app_dir encoder [big_png] start
    = (res_status_json 400
         [("success", JBool false); ("message", JString "File too large (max 2MB)")],
       start)
  ∧ post_upload_multiple two_bytes app_dir encoder ([] ++ large_png :: [last_webp]) start
    = (res_status_json 400
         [("success", JBool false); ("message", JString "Each file must be under 2MB")],
       start).
Proof.
  assert (Hbig : (MAX_FILE_SIZE two_bytes < size big_png)%N) by (vm_compute; reflexivity).
  destruct (oversized_part_rejected two_bytes app_dir encoder)
    as (_ & Hsingle & Hmultiple & _).
  split; [exact Hbig|]. split.
  - apply Hsingle; [reflexivity | reflexivity | exact Hbig].
  - apply Hmultiple;
      [constructor | vm_compute; reflexivity | reflexivity | reflexivity | exact Hbig].
Defined.

Lemma disallowed_type_rejected_witness :
  anim_gif ∈ [anim_gif]
  ∧ includes (ALLOWED_TYPES default_config) (mimetype anim_gif) = false
  ∧ (∃ msg, post_upload_single default_config app_dir encoder [anim_gif] start
            = (res_status_json 400
                 [("success", JBool false); ("message", JString msg)], start))
  ∧ (∃ msg, post_upload_multiple default_config app_dir encoder [anim_gif] start
            = (res_status_json 400
                 [("success", JBool false); ("message", JString msg)], start)).
Proof.
  assert (Hin : anim_gif ∈ [anim_gif]) by (left).
  assert (Hty : includes (ALLOWED_TYPES default_config) (mimetype anim_gif) = false)
    by reflexivity.
  split; [exact Hin|]. split; [exact Hty|].
  exact (proj1 (disallowed_type_rejected default_config app_dir encoder [anim_gif] start)
           anim_gif Hin Hty).
Defined.

Lemma batch_aborts_at_first_failure_witness :
  let after_first := (upload_each default_config app_dir encoder [first_jpg] [] start).2 in
  (post_upload_multiple default_config app_dir encoder
     ([first_jpg] ++ empty_png :: [last_webp]) start).1
  = res_status_json 500
      [("success", JBool false); ("message", JString "Input Buffer is empty")]
  ∧ disk (post_upload_multiple default_config app_dir encoder
            ([first_jpg] ++ empty_png :: [last_webp]) start).2
    = disk after_first
  ∧ is_file (disk after_first) ["app"; "uploads"; "1700000000000-a.jpg"] = true.
Proof.
  intros after_first.
  assert (Hin : upload_array default_config "files" (MAX_FILES default_config)
                  ([first_jpg] ++ empty_png :: [last_webp])
                = inr ([first_jpg] ++ empty_png :: [last_webp]))
    by (vm_compute; reflexivity).
  assert (Hstored : upload_each default_config app_dir encoder [first_jpg] [] start
                    = (inr ["https://cdn.soulcraftbd.com/uploads/1700000000000-a.jpg"],
                       after_first)).
  { apply pair_eq_intro. vm_compute. reflexivity. }
  assert (Hfail : upload_each default_config app_dir encoder [empty_png] [] after_first
                  = (inl (new_Error "Input Buffer is empty"),
                     (upload_each default_config app_dir encoder [empty_png] []
                        after_first).2)).
  { apply pair_eq_intro. vm_compute. reflexivity. }
  destruct (batch_aborts_at_first_failure default_config app_dir encoder
              [first_jpg] empty_png [last_webp] start _ _ _ _ Hin Hstored Hfail)
    as (Hresp & Hdisk & Hfiles).
  rewrite Hresp.
  split; [reflexivity|]. split; [exact Hdisk|].
  destruct (Hfiles 0 first_jpg eq_refl) as (l & Hl & Hfile).
  vm_compute in Hl. injection Hl as <-. rewrite <- Hdisk. exact Hfile.
Defined.

Lemma listing_reflects_directory_witness :
  ∃ names,
    get_images default_config app_dir one_stored
    = (res_json
         [("success", JBool true);
          ("images",
           JStrings (List.map (fun name => UPLOADS_URL default_config +:+ "/" +:+ name)
                              names))], one_stored)
    ∧ NoDup names
    ∧ ∀ name, name ∈ names
              ↔ is_Some (disk one_stored !! (["app"; "uploads"] ++ [name])).
Proof.
  apply (proj1 (listing_reflects_directory default_config app_dir one_stored)
           (mkLocation ["app"; "uploads"] false)).
  - vm_compute. reflexivity.
  - vm_compute. reflexivity.
Defined.

Lemma delete_nul_path_uncaught_witness :
  is_file (disk one_stored) ["app"; "uploads"; nul_name] = false
  ∧ dispatch default_config app_dir encoder (DELETE_images nul_name) one_stored
    = (res_uncaught, one_stored)
  ∧ status (dispatch default_config app_dir encoder (DELETE_images nul_name)
              one_stored).1 = 500%Z
  ∧ (dispatch default_config app_dir encoder (DELETE_images nul_name) one_stored).1
    ≠ res_status_json 404
        [("success", JBool false);
         ("message", JString "File not found or already deleted")]
  ∧ ∀ obj, body (dispatch default_config app_dir encoder (DELETE_images nul_name)
                   one_stored).1 ≠ Json obj.
Proof.
  split; [vm_compute; reflexivity|].
  apply (delete_nul_path_uncaught default_config app_dir encoder nul_name one_stored).
  vm_compute. reflexivity.
Defined.

Lemma cors_gate_witness :
  (cors_origin default_config (Some "https://evil.example") ≠ inr true
   ∧ app default_config app_dir encoder
       (mkRequest (Some "https://evil.example") (DELETE_images "old.png")) one_stored
     = (NextError (new_Error "Not allowed by CORS"), one_stored))
  ∧ (cors_origin default_config (Some "https://soulcraftbd.com") = inr true
     ∧ app default_config app_dir encoder
         (mkRequest (Some "https://soulcraftbd.com") GET_images) one_stored
       = (Responded (get_images default_config app_dir one_stored).1,
          (get_images default_config app_dir one_stored).2)).
Proof.
  assert (Hno : cors_origin default_config (Some "https://evil.example") ≠ inr true)
    by (vm_compute; discriminate).
  assert (Hyes : cors_origin default_config (Some "https://soulcraftbd.com") = inr true)
    by (vm_compute; reflexivity).
  split; (split; [assumption|]).
  - exact (proj2 (proj2 (cors_gate default_config app_dir encoder
                           (mkRequest (Some "https://evil.example")
                                      (DELETE_images "old.png")) one_stored)) Hno).
  - exact (proj1 (proj2 (cors_gate default_config app_dir encoder
                           (mkRequest (Some "https://soulcraftbd.com") GET_images)
                           one_stored)) Hyes).
Defined.


Lemma multiple_upload_without_files_witness :
  upload_array default_config "files" (MAX_FILES default_config) [] = inr []
  ∧ post_upload_multiple_request default_config app_dir encoder (multipart []) start
    = (res_json [("success", JBool true); ("urls", JStrings [])], start)
  ∧ post_upload_multiple_request default_config app_dir encoder not_multipart start
    = (res_status_json 500
         [("success", JBool false); ("message", JString "req.files is not iterable")],
       start).
Proof.
  split; [reflexivity|]. split.
  - apply (proj1 (multiple_upload_without_files default_config app_dir encoder start) []).
    reflexivity.
  - exact (proj2 (proj2 (multiple_upload_without_files default_config app_dir encoder
                           start))).
Defined.

(** The scenario of the specification: an upload is listed, and gone from
    the listing once deleted. *)
Example upload_list_delete :
  let uploaded := (post_upload_single default_config app_dir encoder [cat_jpg] start).2 in
  let deleted :=
    (delete_image default_config app_dir "1700000000000-cat.JPG" uploaded).2 in
  (get_images default_config app_dir start).1
  = res_json [("success", JBool true); ("images", JStrings [])]
  ∧ (get_images default_config app_dir uploaded).1
    = res_json
        [("success", JBool true);
         ("images",
          JStrings ["https://cdn.soulcraftbd.com/uploads/1700000000000-cat.JPG"])]
  ∧ (delete_image default_config app_dir "1700000000000-cat.JPG" uploaded).1
    = res_json [("success", JBool true); ("message", JString "Deleted successfully")]
  ∧ (get_images default_config app_dir deleted).1
    = res_json [("success", JBool true); ("images", JStrings [])].
Proof. repeat split; vm_compute; reflexivity. Qed.

(** ** Where the specification says more than the server does *)

(** C3: a part that is larger than the maximum and also of a type that
    is not allowed is refused for its type: the answer carries the type
    message, not a size message. *)
Lemma oversized_wrong_type_counterexample :
  anim_gif ∈ [anim_gif]
  ∧ (MAX_FILE_SIZE two_bytes < size anim_gif)%N
  ∧ (post_upload_single two_bytes app_dir encoder [anim_gif] start).1
    = res_status_json 400
        [("success", JBool false);
         ("message", JString "Invalid file type (JPEG, PNG, WebP only).")]
  ∧ (post_upload_single two_bytes app_dir encoder [anim_gif] start).1
    ≠ res_status_json 400
        [("success", JBool false); ("message", JString "File too large (max 2MB)")].
Proof.
  split; [by left|]. split; [vm_compute; reflexivity|].
  split; [vm_compute; reflexivity | vm_compute; discriminate].
Qed.

(** C10: a request to the multiple route whose body is not multipart has
    no file part and gets through multer without an error, yet it is not
    answered with success and an empty [urls] array: the answer is HTTP
    500. *)
Lemma not_multipart_batch_counterexample :
  (post_upload_multiple_request default_config app_dir encoder not_multipart start).1
  = res_status_json 500
      [("success", JBool false); ("message", JString "req.files is not iterable")]
  ∧ (post_upload_multiple_request default_config app_dir encoder not_multipart start).1
    ≠ res_json [("success", JBool true); ("urls", JStrings [])]
  ∧ disk (post_upload_multiple_request default_config app_dir encoder not_multipart
            start).2 = disk start.
Proof. split; [reflexivity|]. split; [discriminate | reflexivity]. Qed.

(** C8: a request whose [Origin] header is present and empty is let
    through, although its origin is neither absent nor in the allow-list. *)
Lemma empty_origin_counterexample :
  ¬ (cors_origin default_config (Some "") = inr true
     ↔ (Some "" = None :> option string)
       ∨ ∃ s, Some "" = Some s ∧ s ∈ ALLOWED_ORIGINS default_config).
Proof.
  intros [Hallow _].
  destruct (Hallow eq_refl) as [Hnone | (s & [= <-] & Hin)]; [discriminate|].
  apply includes_elem_of in Hin. vm_compute in Hin. discriminate.
Qed.

(** * The further properties on concrete deployments *)

Import Cases.

Lemma uploaded_file_is_listed_witness :
  ∃ url images,
    (post_upload_single default_config app_dir encoder [cat_jpg] start).1
    = res_json [("success", JBool true); ("url", JString url)]
    ∧ get_images default_config app_dir
        (post_upload_single default_config app_dir encoder [cat_jpg] start).2
      = (res_json [("success", JBool true); ("images", JStrings images)],
         (post_upload_single default_config app_dir encoder [cat_jpg] start).2)
    ∧ url ∈ images.
Proof.
  apply (uploaded_file_is_listed default_config app_dir encoder [cat_jpg] start).
  - reflexivity.
  - repeat constructor.
  - apply surjective_pairing.
  - vm_compute. reflexivity.
Defined.

Lemma deleted_file_is_unlisted_witness :
  let deleted := (delete_image default_config app_dir "old.png" one_stored).2 in
  ∃ names,
    get_images default_config app_dir deleted
    = (res_json
         [("success", JBool true);
          ("images",
           JStrings (List.map (fun name => UPLOADS_URL default_config +:+ "/" +:+ name)
                              names))], deleted)
    ∧ (∀ name, name ∈ names
               ↔ name ≠ "old.png"
                 ∧ is_Some (disk one_stored !! (["app"; "uploads"] ++ [name])))
    ∧ UPLOADS_URL default_config +:+ "/" +:+ "old.png"
      ∉ List.map (fun name => UPLOADS_URL default_config +:+ "/" +:+ name) names.
Proof.
  intros deleted.
  apply (deleted_file_is_unlisted default_config app_dir "old.png" one_stored deleted
           (delete_image default_config app_dir "old.png" one_stored).1
           (mkLocation ["app"; "uploads"] false)).
  - reflexivity.
  - reflexivity.
  - vm_compute. reflexivity.
  - vm_compute. reflexivity.
  - apply surjective_pairing.
  - vm_compute. reflexivity.
Defined.

Lemma delete_twice_not_found_witness :
  let deleted := (delete_image default_config app_dir "old.png" one_stored).2 in
  delete_image default_config app_dir "old.png" deleted
  = (res_status_json 404
       [("success", JBool false);
        ("message", JString "File not found or already deleted")], deleted).
Proof.
  intros deleted.
  apply (delete_twice_not_found default_config app_dir "old.png" one_stored deleted
           (delete_image default_config app_dir "old.png" one_stored).1).
  - apply surjective_pairing.
  - vm_compute. reflexivity.
Defined.

Lemma same_name_upload_overwrites_witness :
  let first := post_upload_single default_config app_dir encoder [cat_jpg]
                 same_millisecond in
  let second := post_upload_single default_config app_dir encoder [cat_again] first.2 in
  second.1 = first.1
  ∧ disk second.2
    = disk (post_upload_single default_config app_dir encoder [cat_again]
              same_millisecond).2
  ∧ ∃ l data,
      locate (path_join [app_dir; UPLOADS_DIR default_config;
                         Number_toString (clock same_millisecond (ticks same_millisecond))
                         +:+ "-" +:+ originalname cat_jpg]) = Some l
      ∧ transcoded encoder (buffer cat_again)
          (Number_toString (clock same_millisecond (ticks same_millisecond))
           +:+ "-" +:+ originalname cat_jpg) = inr data
      ∧ disk second.2 !! segments l = Some (File data).
Proof.
  intros first second.
  apply (same_name_upload_overwrites default_config app_dir encoder cat_jpg cat_again
           same_millisecond first.2 first.1).
  - reflexivity.
  - reflexivity.
  - apply surjective_pairing.
  - vm_compute. reflexivity.
  - vm_compute. reflexivity.
Defined.

Lemma delete_reaches_outside_storage_witness :
  delete_image default_config app_dir "../server.js" with_source
  = (res_json [("success", JBool true); ("message", JString "Deleted successfully")],
     set_disk (delete ["app"; "server.js"] (disk with_source)) with_source)
  ∧ ∀ entry, ["app"; "server.js"] ≠ ["app"; "uploads"] ++ [entry].
Proof.
  apply (delete_reaches_outside_storage default_config app_dir "server.js" with_source
           (mkLocation ["app"; "uploads"] false)).
  - reflexivity.
  - reflexivity.
  - vm_compute. reflexivity.
  - discriminate.
  - vm_compute. reflexivity.
Defined.

Lemma stored_name_inj_witness :
  1700000000000%Z = 1700000000000%Z ∧ originalname cat_jpg = originalname cat_again.
Proof.
  apply (stored_name_inj 1700000000000 1700000000000 cat_jpg cat_again).
  reflexivity.
Defined.

Lemma too_many_files_rejected_witness :
  (∃ err, upload_array default_config "files" (MAX_FILES default_config)
            (replicate 21 first_jpg) = inl err
     ∧ code err = Some "LIMIT_UNEXPECTED_FILE"
     ∧ post_upload_multiple default_config app_dir encoder (replicate 21 first_jpg) start
       = (res_status_json 400
            [("success", JBool false); ("message", JString (message err))], start))
  ∧ (∃ err, upload_single default_config "file" [cat_jpg; cat_again] = inl err
       ∧ code err = Some "LIMIT_UNEXPECTED_FILE"
       ∧ post_upload_single default_config app_dir encoder [cat_jpg; cat_again] start
         = (res_status_json 400
              [("success", JBool false); ("message", JString (message err))], start)).
Proof.
  split.
  - apply (proj1 (too_many_files_rejected default_config app_dir encoder
                    (replicate 21 first_jpg) start)).
    + vm_compute. reflexivity.
    + apply Forall_replicate. split; [reflexivity|]. split; vm_compute; [reflexivity|].
      discriminate.
  - apply (proj2 (too_many_files_rejected default_config app_dir encoder
                    [cat_jpg; cat_again] start)).
    + simpl. lia.
    + repeat constructor; vm_compute; discriminate.
Defined.

Lemma wrong_field_name_rejected_witness :
  (∃ msg, post_upload_single default_config app_dir encoder [first_jpg] start
          = (res_status_json 400
               [("success", JBool false); ("message", JString msg)], start))
  ∧ (∃ msg, post_upload_multiple default_config app_dir encoder [cat_jpg] start
            = (res_status_json 400
                 [("success", JBool false); ("message", JString msg)], start))
  ∧ (status (post_upload_single default_config app_dir encoder [cat_jpg] start).1
     = 400%Z
     ∨ status (post_upload_multiple default_config app_dir encoder [cat_jpg] start).1
       = 400%Z).
Proof.
  split; [|split].
  - apply (proj1 (wrong_field_name_rejected default_config app_dir encoder
                    [first_jpg] start) first_jpg); [by left | discriminate].
  - apply (proj1 (proj2 (wrong_field_name_rejected default_config app_dir encoder
                           [cat_jpg] start)) cat_jpg); [by left | discriminate].
  - apply (proj2 (proj2 (wrong_field_name_rejected default_config app_dir encoder
                           [cat_jpg] start))). discriminate.
Defined.

Lemma batch_splits_witness :
  let batch := post_upload_multiple default_config app_dir encoder
                 ([first_jpg] ++ [last_webp]) start in
  ∃ urls1 urls2 w1,
    post_upload_multiple default_config app_dir encoder [first_jpg] start
    = (res_json [("success", JBool true); ("urls", JStrings urls1)], w1)
    ∧ post_upload_multiple default_config app_dir encoder [last_webp] w1
      = (res_json [("success", JBool true); ("urls", JStrings urls2)], batch.2)
    ∧ batch.1 = res_json [("success", JBool true); ("urls", JStrings (urls1 ++ urls2))].
Proof.
  intros batch.
  apply (batch_splits default_config app_dir encoder [first_jpg] [last_webp] start).
  - apply surjective_pairing.
  - vm_compute. reflexivity.
Defined.

Lemma upload_touches_only_its_files_witness :
  let uploaded := post_upload_single default_config app_dir encoder [cat_jpg] start in
  disk uploaded.2 !! ["app"; "uploads"; "1700000000000-cat.JPG"]
  ≠ disk start !! ["app"; "uploads"; "1700000000000-cat.JPG"]
  ∧ ∃ file l, [cat_jpg] = [file]
      ∧ locate (path_join [app_dir; UPLOADS_DIR default_config;
                           Number_toString (clock start (ticks start)) +:+ "-"
                           +:+ originalname file]) = Some l
      ∧ ["app"; "uploads"; "1700000000000-cat.JPG"] = segments l
      ∧ is_file (disk uploaded.2) ["app"; "uploads"; "1700000000000-cat.JPG"] = true.
Proof.
  intros uploaded.
  assert (Hchanged : disk uploaded.2 !! ["app"; "uploads"; "1700000000000-cat.JPG"]
                     ≠ disk start !! ["app"; "uploads"; "1700000000000-cat.JPG"])
    by (vm_compute; discriminate).
  split; [exact Hchanged|].
  apply (proj1 (upload_touches_only_its_files default_config app_dir encoder [cat_jpg]
                  start uploaded.2 uploaded.1
                  ["app"; "uploads"; "1700000000000-cat.JPG"])).
  - apply surjective_pairing.
  - exact Hchanged.
Defined.

Lemma startup_prepares_storage_witness :
  let d' := started default_config only_app in
  ∃ s, locate (path_join [app_dir; UPLOADS_DIR default_config]) = Some s
    ∧ (∀ p x, only_app !! p = Some x → d' !! p = Some x)
    ∧ (is_directory d' (segments s) = true
       ∨ (d' = only_app ∧ is_file only_app (segments s) = true))
    ∧ (is_file only_app (segments s) = false →
       ∀ w, disk w = d' →
         ∃ images,
           get_images default_config app_dir w
           = (res_json [("success", JBool true); ("images", JStrings images)], w)).
Proof.
  intros d'.
  assert (Hok : match ensure_uploads_dir default_config app_dir only_app with
                | inr _ => true
                | inl _ => false
                end = true) by (vm_compute; reflexivity).
  apply (startup_prepares_storage default_config app_dir only_app d').
  - reflexivity.
  - repeat (constructor; [split; discriminate|]). constructor.
  - discriminate.
  - reflexivity.
  - unfold d', started.
    destruct (ensure_uploads_dir default_config app_dir only_app); [discriminate|].
    reflexivity.
Defined.

Lemma absolute_uploads_dir_is_missed_witness :
  let d' := started absolute_dir only_app in
  ∃ s, locate (path_join [app_dir; UPLOADS_DIR absolute_dir]) = Some s
    ∧ segments s = List.filter nonempty (split_on "/"%char app_dir)
                   ++ List.filter nonempty (split_on "/"%char (UPLOADS_DIR absolute_dir))
    ∧ (is_directory only_app (segments s) = false →
       is_directory d' (segments s) = false
       ∧ ∀ w, disk w = d' → status (get_images absolute_dir app_dir w).1 = 500%Z).
Proof.
  intros d'.
  assert (Hok : match ensure_uploads_dir absolute_dir app_dir only_app with
                | inr _ => true
                | inl _ => false
                end = true) by (vm_compute; reflexivity).
  apply (absolute_uploads_dir_is_missed absolute_dir app_dir only_app d').
  - reflexivity.
  - repeat (constructor; [split; discriminate|]). constructor.
  - discriminate.
  - reflexivity.
  - repeat (constructor; [split; discriminate|]). constructor.
  - unfold d', started.
    destruct (ensure_uploads_dir absolute_dir app_dir only_app); [discriminate|].
    reflexivity.
Defined.

Lemma stored_extension_witness :
  path_extname (Number_toString 1700000000000 +:+ "-" +:+ originalname cat_jpg)
  = path_extname (originalname cat_jpg)
  ∧ path_extname (originalname dot_png) = ""
  ∧ path_extname (Number_toString 1700000000000 +:+ "-" +:+ originalname dot_png)
    = "." +:+ "png".
Proof.
  split.
  - apply (proj1 (proj2 (stored_extension encoder 1700000000000 cat_jpg eq_refl))).
    vm_compute. discriminate.
  - apply (proj2 (proj2 (stored_extension encoder 1700000000000 dot_png eq_refl)) "png");
      [reflexivity | discriminate | reflexivity].
Defined.

Lemma list_variable_round_trip_witness :
  env_list (Some "https://soulcraftbd.com, https://admin.soulcraftbd.com")
           "https://soulcraftbd.com"
  = ["https://soulcraftbd.com"; " https://admin.soulcraftbd.com"]
  ∧ cors_origin two_origins (Some " https://admin.soulcraftbd.com") = inr true
  ∧ cors_origin two_origins (Some "https://admin.soulcraftbd.com") ≠ inr true.
Proof.
  assert (Hvalue : join_with "," ["https://soulcraftbd.com";
                                  " https://admin.soulcraftbd.com"] ≠ "")
    by (vm_compute; discriminate).
  assert (Hentries : Forall (fun e => existsb is_comma (list_ascii_of_string e) = false)
                       ["https://soulcraftbd.com"; " https://admin.soulcraftbd.com"])
    by (repeat constructor).
  destruct (list_variable_round_trip two_origins
              ["https://soulcraftbd.com"; " https://admin.soulcraftbd.com"]
              "https://soulcraftbd.com" Hvalue Hentries) as (Hlist & Horigins & _).
  assert (Hjoin : join_with "," ["https://soulcraftbd.com";
                                 " https://admin.soulcraftbd.com"]
                  = "https://soulcraftbd.com, https://admin.soulcraftbd.com")
    by (vm_compute; reflexivity).
  rewrite Hjoin in Hlist, Horigins.
  assert (Hcfg : ALLOWED_ORIGINS two_origins
                 = env_list (Some "https://soulcraftbd.com, https://admin.soulcraftbd.com")
                            "https://soulcraftbd.com") by (vm_compute; reflexivity).
  split; [exact Hlist|]. split.
  - apply (Horigins Hcfg). right. right. left.
  - intros Hallowed. apply (Horigins Hcfg) in Hallowed as [Hempty|Hin].
    + discriminate.
    + apply includes_elem_of in Hin. vm_compute in Hin. discriminate.
Defined.


Lemma subdirectory_listed_not_deleted_witness :
  (∃ images,
     get_images default_config app_dir with_album
     = (res_json [("success", JBool true); ("images", JStrings images)], with_album)
     ∧ UPLOADS_URL default_config +:+ "/" +:+ "album" ∈ images)
  ∧ delete_image default_config app_dir "album" with_album
    = (res_status_json 404
         [("success", JBool false);
          ("message", JString "File not found or already deleted")], with_album).
Proof.
  apply (subdirectory_listed_not_deleted default_config app_dir "album" with_album
           (mkLocation ["app"; "uploads"] false)).
  - reflexivity.
  - reflexivity.
  - vm_compute. reflexivity.
  - vm_compute. reflexivity.
  - vm_compute. reflexivity.
Defined.

Lemma delete_route_outcome_witness :
  (is_file (disk one_stored) ["app"; "uploads"; "old.png"] = true
   ∧ dispatch default_config app_dir encoder (DELETE_images "old.png") one_stored
     = (res_json [("success", JBool true); ("message", JString "Deleted successfully")],
        set_disk (delete ["app"; "uploads"; "old.png"] (disk one_stored)) one_stored))
  ∧ (is_file (disk one_stored) ["app"; "uploads"; "gone.png"] = false
     ∧ dispatch default_config app_dir encoder (DELETE_images "gone.png") one_stored
       = (res_status_json 404
            [("success", JBool false);
             ("message", JString "File not found or already deleted")], one_stored)).
Proof.
  assert (Hold : is_file (disk one_stored) ["app"; "uploads"; "old.png"] = true)
    by (vm_compute; reflexivity).
  assert (Hgone : is_file (disk one_stored) ["app"; "uploads"; "gone.png"] = false)
    by (vm_compute; reflexivity).
  split; (split; [assumption|]).
  - apply (proj2 (proj2 (delete_route_outcome default_config app_dir encoder "old.png"
                           one_stored ltac:(vm_compute; reflexivity)))
             (mkLocation ["app"; "uploads"; "old.png"] false));
      [vm_compute; reflexivity | reflexivity | exact Hold].
  - apply (proj1 (proj2 (delete_route_outcome default_config app_dir encoder "gone.png"
                           one_stored ltac:(vm_compute; reflexivity)))
             (mkLocation ["app"; "uploads"; "gone.png"] false));
      [vm_compute; reflexivity | exact Hgone].
Defined.

Lemma uncaught_only_for_missing_names_witness :
  has_nul (path_join [app_dir; UPLOADS_DIR default_config; "old.png"]) = false
  ∧ dispatch default_config app_dir encoder (DELETE_images "old.png") one_stored
    = delete_image default_config app_dir "old.png" one_stored
  ∧ (dispatch default_config app_dir encoder (DELETE_images "old.png") one_stored).1
    ≠ res_uncaught.
Proof.
  apply (uncaught_only_for_missing_names default_config app_dir encoder "old.png"
           one_stored (mkLocation ["app"; "uploads"; "old.png"] false)).
  - vm_compute. reflexivity.
  - vm_compute. reflexivity.
  - exists (File pixels). vm_compute. reflexivity.
Defined.
